(** * GlobalSimplexMesh: a distributed D-simplex mesh

    Shallow embedding of [src/mesh/GlobalSimplexMesh.h].

    The program is SPMD: every rank of the communicator runs the same
    method and the ranks meet only in collectives ([MPI_Scan], the
    all-to-all of [AllToAllV]).  A run is therefore modelled in lock step:
    a value "on every rank" is a list indexed by rank, a local computation
    is a [map] over that list, and a collective is a function from the
    list of what every rank contributes to the list of what every rank
    obtains.  A failed [assert], an out-of-range index or a collective the
    ranks do not enter together ends the run: the methods return [option].

    Sizes, counts and indices ([std::size_t], [int]) are [nat]: they are
    bounded by the memory of a rank and never wrap.  Vertex ids, hash
    values and contiguous ids (64 bit, only compared, reduced modulo the
    number of ranks, or offset by a size) are [N]; partition entries
    ([idx_t], signed) are [Z]. *)

From Stdlib Require Import List Arith NArith ZArith Bool Lia Permutation Sorted.
Import ListNotations.

Set Implicit Arguments.
Set Maximal Implicit Insertion.

(** ** The error monad of a run *)

Definition bind {A B : Type} (x : option A) (f : A -> option B) : option B :=
  match x with
  | Some a => f a
  | None => None
  end.

Notation "x <- e ;; k" := (bind e (fun x => k))
  (at level 61, e at next level, right associativity).
Notation "' p <- e ;; k" := (bind e (fun p => k))
  (at level 61, p pattern, e at next level, right associativity).

(** [assert(b)]: the run goes on when [b] holds and aborts otherwise. *)
Definition assert (b : bool) : option unit :=
  if b then Some tt else None.

(** Every rank computes locally; the run goes on when all of them do. *)
Fixpoint sequence {A : Type} (l : list (option A)) : option (list A) :=
  match l with
  | [] => Some []
  | x :: l' => a <- x ;; r <- sequence l' ;; Some (a :: r)
  end.

Definition forRanks {A B : Type} (f : A -> option B) (l : list A) : option (list B) :=
  sequence (map f l).

(** The value every rank holds when the ranks agree on it (a condition
    that guards a collective); [None] when they differ. *)
Definition agreed (bs : list bool) : option bool :=
  if forallb (fun b => b) bs then Some true
  else if forallb negb bs then Some false
  else None.

(** ** Simplex.h (not in the sources): the simplex value *)

(** A [Simplex<d>] holds [d+1] vertex ids, sorted at construction. *)
Definition Simplex := list N.

Definition simplex_eqb (a b : Simplex) : bool :=
  if list_eq_dec N.eq_dec a b then true else false.

(** Modelled from the spec: the canonical ordering of simplices
    ([operator<] of Simplex.h), lexicographic on the sorted ids. *)
Fixpoint simplex_ltb (a b : Simplex) : bool :=
  match a, b with
  | [], [] => false
  | [], _ :: _ => true
  | _ :: _, [] => false
  | x :: a', y :: b' => (x <? y)%N || ((x =? y)%N && simplex_ltb a' b')
  end.

(** Modelled from the spec: [downward<k>] of Simplex.h, the faces with
    [k+1] vertices in lexicographic order of the vertex positions. *)
Fixpoint sublists (n : nat) (s : Simplex) : list Simplex :=
  match n, s with
  | 0, _ => [[]]
  | S _, [] => []
  | S n', x :: s' => map (cons x) (sublists n' s') ++ sublists n s'
  end.

Definition downward (k : nat) (s : Simplex) : list Simplex := sublists (S k) s.

(** ** What the C++ library leaves to the implementation *)

(** A comparator as [std::sort] requires it. *)
Record StrictWeakOrder {A : Type} (lt : A -> A -> bool) : Prop := {
  swo_irrefl : forall a, lt a a = false;
  swo_trans : forall a b c, lt a b = true -> lt b c = true -> lt a c = true;
  swo_negtrans : forall a b c, lt a b = false -> lt b c = false -> lt a c = false
}.

(** A range is sorted with respect to [lt] when no later element is
    less than an earlier one. *)
Definition sorted_by {A : Type} (lt : A -> A -> bool) : list A -> Prop :=
  StronglySorted (fun a b => lt b a = false).

(** The standard library as the code sees it.  [std::sort] rearranges a
    range into a sorted one and promises nothing about the order of
    equivalent elements; an unordered container is iterated in an order
    of the implementation's choice ([uorder] gives it from the order of
    insertion). *)
Record StdLib : Type := {
  std_sort : forall A : Type, (A -> A -> bool) -> list A -> list A;
  std_sort_perm : forall (A : Type) (lt : A -> A -> bool) (l : list A),
    StrictWeakOrder lt -> Permutation (std_sort lt l) l;
  std_sort_sorted : forall (A : Type) (lt : A -> A -> bool) (l : list A),
    StrictWeakOrder lt -> sorted_by lt (std_sort lt l);
  uorder : forall A : Type, list (Simplex * A) -> list (Simplex * A);
  uorder_perm : forall (A : Type) (l : list (Simplex * A)),
    Permutation (uorder l) l
}.

(** ** MPI collectives *)

(** [MPI_Scan] with [MPI_SUM]: rank [r] obtains the sum of the
    contributions of ranks [0..r]. *)
Definition MPI_Scan_sum (xs : list nat) : list nat :=
  map (fun r => list_sum (firstn (S r) xs)) (seq 0 (length xs)).

(** ** parallel/CommPattern.h (not in the sources): AllToAllV *)

(** Modelled from the spec: the state of an [AllToAllV] on one rank, the
    counts it sends to and receives from every peer. *)
Record AllToAllV : Type := {
  sendcounts : list nat;
  recvcounts : list nat
}.

(** [swap()]: the roles of sender and receiver are exchanged. *)
Definition swap (a : AllToAllV) : AllToAllV :=
  {| sendcounts := recvcounts a; recvcounts := sendcounts a |}.

(** The constructor from send counts: a size exchange gives every rank
    the counts it will receive. *)
Definition column {A : Type} (d : A) (r : nat) (rows : list (list A)) : list A :=
  map (fun row => nth r row d) rows.

Definition mkAllToAllV (counts : list (list nat)) : list AllToAllV :=
  map (fun r => {| sendcounts := nth r counts []; recvcounts := column 0 r counts |})
      (seq 0 (length counts)).

(** Displacements are the prefix sums of the counts; [segment] is the
    part of a buffer that belongs to peer [p]. *)
Definition displ (counts : list nat) (p : nat) : nat := list_sum (firstn p counts).

Definition segment {A : Type} (counts : list nat) (buf : list A) (p : nat) : list A :=
  firstn (nth p counts 0) (skipn (displ counts p) buf).

Definition noPattern : AllToAllV := {| sendcounts := []; recvcounts := [] |}.

(** The ranks' patterns match when every rank sends one count per peer,
    its buffer holds what it sends, and every receiver expects from each
    peer what that peer sends. *)
Definition matched {A : Type} (a2a : list AllToAllV) (bufs : list (list A)) : bool :=
  let procs := length a2a in
  (length bufs =? procs) &&
  forallb (fun '(a, buf) =>
             (length (sendcounts a) =? procs) && (length (recvcounts a) =? procs) &&
             (length buf =? list_sum (sendcounts a)))
          (combine a2a bufs) &&
  forallb (fun r => forallb (fun p =>
             nth p (recvcounts (nth r a2a noPattern)) 0 =?
             nth r (sendcounts (nth p a2a noPattern)) 0)
             (seq 0 procs))
          (seq 0 procs).

(** [exchange(buffer)]: rank [r] obtains, in rank order, the segments
    that the peers addressed to it. *)
Definition exchange {A : Type} (a2a : list AllToAllV) (bufs : list (list A))
  : option (list (list A)) :=
  _ <- assert (matched a2a bufs) ;;
  Some (map (fun r => concat (map (fun '(a, buf) => segment (sendcounts a) buf r)
                                   (combine a2a bufs)))
            (seq 0 (length a2a))).

(** [getSDispls()] / [getRDispls()]: the pairs (peer, index in the
    buffer), in the order of the buffer. *)
Definition displs_pairs (counts : list nat) : list (nat * nat) :=
  concat (map (fun p => map (fun j => (p, displ counts p + j)) (seq 0 (nth p counts 0)))
              (seq 0 (length counts))).

Definition getSDispls (a : AllToAllV) : list (nat * nat) := displs_pairs (sendcounts a).
Definition getRDispls (a : AllToAllV) : list (nat * nat) := displs_pairs (recvcounts a).

(** ** parallel/SortedDistribution.h (not in the sources) *)

Fixpoint takeWhile {A : Type} (f : A -> bool) (l : list A) : list A :=
  match l with
  | [] => []
  | x :: l' => if f x then x :: takeWhile f l' else []
  end.

Fixpoint dropWhile {A : Type} (f : A -> bool) (l : list A) : list A :=
  match l with
  | [] => []
  | x :: l' => if f x then dropWhile f l' else l
  end.

(** Modelled from the spec: [SortedDistributionToRank], the rank whose
    range of the prefix-sum distribution holds the id (the last bound
    that is not above the id, found by binary search). *)
Definition SortedDistributionToRank (dist : list N) (id : N) : nat :=
  length (takeWhile (fun d => (d <=? id)%N) dist) - 1.

(** ** The global mesh *)

Section GlobalMesh.

(** MeshData.h is not in the sources: a [MeshData] is a sequence of
    rows of a type the mesh never looks into; [unsetRow] is the row
    of the [unset] sentinel. *)
Variable Row : Type.
Variable unsetRow : Row.

(** [SimplexHash] of Simplex.h, not in the sources: any function of
    the (sorted) vertex ids. *)
Variable SimplexHash : Simplex -> N.

Variable stl : StdLib.

(** The template parameter: elements are [D]-simplices. *)
Variable D : nat.

Definition MeshData : Type := list Row.

(** Modelled from the spec: [MeshData::redistributed(lids, a2a)]
    gathers the rows in the order of [lids] and ships them with the
    exchange object. *)
Definition redistributed (a2a : list AllToAllV) (args : list (list nat * MeshData))
  : option (list MeshData) :=
  exchange a2a (map (fun '(lids, dat) => map (fun i => nth i dat unsetRow) lids) args).

(** The members of the object on one rank ([vertexData] and the
    boundary meshes only feed attached data and are left out). *)
Record GlobalSimplexMesh : Type := {
  elems_ : list Simplex;
  elementData : option MeshData;
  isPartitionedByHash : bool;
  vtxdist : list N
}.

(** The distributed object: one [GlobalSimplexMesh] per rank. *)
Definition World : Type := list GlobalSimplexMesh.

Definition numElements (m : GlobalSimplexMesh) : nat := length (elems_ m).

Definition hasElementData (m : GlobalSimplexMesh) : bool :=
  match elementData m with Some _ => true | None => false end.

Definition theElementData (m : GlobalSimplexMesh) : MeshData :=
  match elementData m with Some d => d | None => [] end.

(** [getPlex2Rank<DD>()] (lines 384-397). *)
Definition getPlex2Rank (DD procs : nat) (m : GlobalSimplexMesh) (plex : Simplex) : nat :=
  match DD with
  | 0 =>
      if 0 <? length (vtxdist m)
      then SortedDistributionToRank (vtxdist m) (nth 0 plex 0%N)
      else N.to_nat (nth 0 plex 0%N mod N.of_nat procs)
  | S _ => N.to_nat (SimplexHash plex mod N.of_nat procs)
  end.

(** *** doPartition (lines 157-190) *)

(** Lines 173-180: for every rank [p] in turn, the entries of the
    enumeration whose target is at most [p] are counted for [p] and
    appended to the send buffer. *)
Fixpoint sendLoop (partition : list Z) (ps : list nat) (eIt : list nat)
  : list nat * list nat * list nat :=
  match ps with
  | [] => ([], [], eIt)
  | p :: ps' =>
      let now := takeWhile (fun e => (nth e partition 0 <=? Z.of_nat p)%Z) eIt in
      let later := dropWhile (fun e => (nth e partition 0 <=? Z.of_nat p)%Z) eIt in
      let '(counts, sent, rest) := sendLoop partition ps' later in
      (length now :: counts, now ++ sent, rest)
  end.

Record Outgoing : Type := {
  out_enumeration : list nat;
  out_sendcounts : list nat;
  out_elemsToSend : list Simplex
}.

Definition partition_lt (partition : list Z) (a b : nat) : bool :=
  (nth a partition 0 <? nth b partition 0)%Z.

Definition isEmpty {A : Type} (l : list A) : bool :=
  match l with [] => true | _ :: _ => false end.

(** Lines 161-181 on one rank. *)
Definition doPartition_local (procs : nat) (arg : GlobalSimplexMesh * list Z)
  : option Outgoing :=
  let '(m, partition) := arg in
  _ <- assert (length partition =? numElements m) ;;
  let enumeration :=
    std_sort stl (partition_lt partition) (seq 0 (length partition)) in
  let '(counts, sent, rest) := sendLoop partition (seq 0 procs) enumeration in
  _ <- assert (isEmpty rest) ;;
  Some {| out_enumeration := enumeration;
          out_sendcounts := counts;
          out_elemsToSend := map (fun i => nth i (elems_ m) []) sent |}.

Definition with_elems (m : GlobalSimplexMesh) (ed : list Simplex * option MeshData)
  : GlobalSimplexMesh :=
  {| elems_ := fst ed; elementData := snd ed;
     isPartitionedByHash := isPartitionedByHash m; vtxdist := vtxdist m |}.

Definition set_flag (b : bool) (m : GlobalSimplexMesh) : GlobalSimplexMesh :=
  {| elems_ := elems_ m; elementData := elementData m;
     isPartitionedByHash := b; vtxdist := vtxdist m |}.

(** Every rank calls [doPartition] on its object with its own
    partition vector. *)
Definition doPartition (args : list (GlobalSimplexMesh * list Z)) : option World :=
  let w := map fst args in
  outs <- forRanks (doPartition_local (length args)) args ;;
  let a2a := mkAllToAllV (map out_sendcounts outs) in
  elems' <- exchange a2a (map out_elemsToSend outs) ;;
  hasData <- agreed (map hasElementData w) ;;
  data' <- (if hasData : bool
            then d <- redistributed a2a
                        (combine (map out_enumeration outs) (map theElementData w)) ;;
                 Some (map (@Some MeshData) d)
            else Some (map (fun _ => None) w)) ;;
  Some (map (fun '(m, ed) => with_elems m ed) (combine w (combine elems' data'))).

(** [repartition()] (lines 104-110); [metis r] is the vector the
    external partitioner returns on rank [r]. *)
Definition repartition (metis : nat -> list Z) (w : World) : option World :=
  w' <- doPartition (combine w (map metis (seq 0 (length w)))) ;;
  Some (map (set_flag false) w').

(** [repartitionByHash()] (lines 117-130). *)
Definition repartitionByHash (w : World) : option World :=
  done <- agreed (map isPartitionedByHash w) ;;
  if done : bool then Some w
  else
    w' <- doPartition
            (map (fun m => (m, map (fun e => Z.of_nat (getPlex2Rank D (length w) m e))
                                   (elems_ m))) w) ;;
    Some (map (set_flag true) w').

(** *** Ghost growth *)

(** An [unordered_multimap] from faces: its entries in the order of
    iteration.  [count], [erase(key)] and [equal_range]. *)
Definition countKey {A : Type} (k : Simplex) (up : list (Simplex * A)) : nat :=
  length (filter (fun u => simplex_eqb (fst u) k) up).

Definition eraseKey {A : Type} (k : Simplex) (up : list (Simplex * A))
  : list (Simplex * A) :=
  filter (fun u => negb (simplex_eqb (fst u) k)) up.

Definition equal_range {A : Type} (k : Simplex) (up : list (Simplex * A))
  : list (Simplex * A) :=
  filter (fun u => simplex_eqb (fst u) k) up.

(** [deleteInternalFaces] (lines 299-310): the iterator walks the
    map; a key that occurs more than once is erased with all its
    entries, and no key may occur more than twice.  [it] is what the
    iterator has still before it (the entries behind it have keys of
    their own). *)
Fixpoint deleteInternalFaces (fuel : nat) (it : list (Simplex * nat))
  : option (list (Simplex * nat)) :=
  match it with
  | [] => Some []
  | u :: rest =>
      match fuel with
      | 0 => None
      | S fuel' =>
          let count := countKey (fst u) it in
          _ <- assert (count <=? 2) ;;
          if 1 <? count
          then deleteInternalFaces fuel' (eraseKey (fst u) it)
          else r <- deleteInternalFaces fuel' rest ;; Some (u :: r)
      end
  end.

(** [getBoundaryFaces] (lines 289-331). *)
Definition getBoundaryFaces (elems : list Simplex) : option (list (Simplex * nat)) :=
  let up :=
    uorder stl
      (concat (map (fun '(elNo, e) => map (fun s => (s, elNo)) (downward (D - 1) e))
                   (combine (seq 0 (length elems)) elems))) in
  deleteInternalFaces (length up) up.

(** Lines 341-353 and 236-252: the entries of [up] are put into the
    send buffer peer by peer (a counting sort on the rank of the
    face); a rank outside the communicator is an index out of range. *)
Definition bucket {A : Type} (procs : nat) (rankOf : A -> nat) (items : list A)
  : option (list (list A)) :=
  _ <- assert (forallb (fun u => rankOf u <? procs) items) ;;
  Some (map (fun p => filter (fun u => rankOf u =? p) items) (seq 0 procs)).

(** An [unordered_set] of faces. *)
Definition set_insert (f : Simplex) (s : list Simplex) : list Simplex :=
  if existsb (simplex_eqb f) s then s else f :: s.

(** Lines 371-380: a face that the owner saw once is a domain
    boundary; it leaves [up] and enters the set. *)
Fixpoint eraseDomainBoundary (fc : list (Simplex * nat))
         (up : list (Simplex * nat)) (dbf : list Simplex)
  : option (list (Simplex * nat) * list Simplex) :=
  match fc with
  | [] => Some (up, dbf)
  | (f, c) :: fc' =>
      _ <- assert ((1 <=? c) && (c <=? 2)) ;;
      if c =? 1
      then _ <- assert (0 <? countKey f up) ;;
           eraseDomainBoundary fc' (eraseKey f up) (set_insert f dbf)
      else eraseDomainBoundary fc' up dbf
  end.

(** [deleteDomainBoundaryFaces] (lines 333-382), on every rank: the
    round trip to the owners of the faces, who count how often each
    face was sent to them.  The result is [up] as the call leaves it,
    and the set that it returns. *)
Definition deleteDomainBoundaryFaces (w : World) (ups : list (list (Simplex * nat)))
  : option (list (list (Simplex * nat) * list Simplex)) :=
  let procs := length w in
  sends <- forRanks (fun '(m, up) =>
                       bucket procs (getPlex2Rank (D - 1) procs m) (map fst up))
                    (combine w ups) ;;
  let a2a := mkAllToAllV (map (map (@length Simplex)) sends) in
  let faces := map (@concat Simplex) sends in
  requestedFaces <- exchange a2a faces ;;
  let requestedFaceCount :=
    map (fun rf => map (fun f => length (filter (simplex_eqb f) rf)) rf) requestedFaces in
  faceCount <- exchange (map swap a2a) requestedFaceCount ;;
  forRanks (fun '(up, (fs, cs)) =>
              _ <- assert (length cs =? length fs) ;;
              eraseDomainBoundary (combine fs cs) up [])
           (combine ups (combine faces faceCount)).

(** The local variables of [getGhostElements] on one rank. *)
Record GhostState : Type := {
  gs_elems : list Simplex;
  gs_hasDomainBoundaryFaces : bool;
  gs_domainBoundaryFaces : list Simplex
}.

(** How an iteration took the domain-boundary faces out of [up]. *)
Inductive Filtering : Type :=
| CountRoundTrip
| LocalFilter.

(** [std::unique] on a sorted range. *)
Fixpoint unique (l : list Simplex) : list Simplex :=
  match l with
  | [] => []
  | x :: l' =>
      match l' with
      | [] => [x]
      | y :: _ => if simplex_eqb x y then unique l' else x :: unique l'
      end
  end.

(** Lines 267-275 for one received entry: the first entry of the
    face's range whose element is not the sender's own. *)
Definition opposite (requestedUp : list (Simplex * Simplex)) (fe : Simplex * Simplex)
  : option Simplex :=
  match dropWhile (fun u => simplex_eqb (snd u) (snd fe))
                  (equal_range (fst fe) requestedUp) with
  | [] => None
  | u :: _ => Some (snd u)
  end.

(** One turn of the loop of lines 216-285, on every rank. *)
Definition ghostIteration (w : World) (st : list GhostState)
  : option (list GhostState * Filtering) :=
  let procs := length w in
  ups0 <- forRanks (fun s => getBoundaryFaces (gs_elems s)) st ;;
  known <- agreed (map gs_hasDomainBoundaryFaces st) ;;
  '(ups, dbfs, how) <-
    (if known : bool
     then Some (map (fun '(s, up) =>
                       fold_left (fun u f => eraseKey f u) (gs_domainBoundaryFaces s) up)
                    (combine st ups0),
                map gs_domainBoundaryFaces st, LocalFilter)
     else r <- deleteDomainBoundaryFaces w ups0 ;;
          Some (map fst r, map snd r, CountRoundTrip)) ;;
  sends <- forRanks (fun '(m, up) =>
                       bucket procs (fun u => getPlex2Rank (D - 1) procs m (fst u)) up)
                    (combine w ups) ;;
  let a2a := mkAllToAllV (map (map (@length (Simplex * nat))) sends) in
  let boundaryFaces := map (fun sd => map fst (concat sd)) sends in
  let boundaryElems :=
    map (fun '(s, sd) => map (fun u => nth (snd u) (gs_elems s) []) (concat sd))
        (combine st sends) in
  requestedBoundaryFaces <- exchange a2a boundaryFaces ;;
  requestedBoundaryElems <- exchange a2a boundaryElems ;;
  replies <- forRanks (fun '(fs, es) =>
                         let requestedUp := uorder stl (combine fs es) in
                         forRanks (opposite requestedUp) (combine fs es))
                      (combine requestedBoundaryFaces requestedBoundaryElems) ;;
  received <- exchange (map swap a2a) replies ;;
  Some (map (fun '(s, (dbf, be)) =>
               {| gs_elems := gs_elems s ++ unique (std_sort stl simplex_ltb be);
                  gs_hasDomainBoundaryFaces := gs_hasDomainBoundaryFaces s;
                  gs_domainBoundaryFaces := dbf |})
            (combine st (combine dbfs received)),
        how).

Fixpoint ghostLoop (w : World) (overlap : nat) (st : list GhostState)
  : option (list GhostState * list Filtering) :=
  match overlap with
  | 0 => Some (st, [])
  | S overlap' =>
      '(st1, how) <- ghostIteration w st ;;
      '(st2, hows) <- ghostLoop w overlap' st1 ;;
      Some (st2, how :: hows)
  end.

Definition ghostStart (elems : list Simplex) : GhostState :=
  {| gs_elems := elems;
     gs_hasDomainBoundaryFaces := false;
     gs_domainBoundaryFaces := [] |}.

(** [getGhostElements(elems_, overlap)] (lines 208-287) on every rank. *)
Definition getGhostElements (w : World) (overlap : nat) : option (list (list Simplex)) :=
  '(st, _) <- ghostLoop w overlap (map (fun m => ghostStart (elems_ m)) w) ;;
  Some (map gs_elems st).

(** How the iterations of that call filtered the domain-boundary faces. *)
Definition ghostFiltering (w : World) (overlap : nat) : option (list Filtering) :=
  '(_, hows) <- ghostLoop w overlap (map (fun m => ghostStart (elems_ m)) w) ;;
  Some hows.

(** *** The local view *)

(** LocalFaces.h is not in the sources: the faces, their contiguous
    ids, and the shared-ranks table as a flat sequence with the
    length of every face's part. *)
Record LocalFaces : Type := {
  lf_faces : list Simplex;
  lf_contiguousGIDs : list N;
  lf_sharedRanks : list nat;
  lf_sharedRanksCounts : list nat
}.

(** The element entry of [getAllLocalFaces] (lines 194-205). *)
Definition getElementFaces (w : World) (overlap : nat) : option (list LocalFaces) :=
  elemsCopy <- getGhostElements w overlap ;;
  let ownedSize := map numElements w in
  let gidOffset := map (fun '(scan, own) => scan - own)
                       (combine (MPI_Scan_sum ownedSize) ownedSize) in
  Some (map (fun '(ec, (off, m)) =>
               {| lf_faces := ec;
                  lf_contiguousGIDs := map N.of_nat (seq off (numElements m));
                  lf_sharedRanks := [];
                  lf_sharedRanksCounts := [] |})
            (combine elemsCopy (combine gidOffset w))).

(** *** Faces of lower dimension *)

(** A [std::set] of simplices: its elements in ascending order. *)
Fixpoint ordered_insert (s : Simplex) (l : list Simplex) : list Simplex :=
  match l with
  | [] => [s]
  | x :: l' =>
      if simplex_ltb s x then s :: l
      else if simplex_ltb x s then x :: ordered_insert s l'
      else l
  end.

(** [requiredFaces[p].insert(s)]; [p] must be a rank. *)
Fixpoint insertAt (p : nat) (s : Simplex) (sets : list (list Simplex)) {struct sets}
  : option (list (list Simplex)) :=
  match sets with
  | [] => None
  | x :: sets' =>
      match p with
      | 0 => Some (ordered_insert s x :: sets')
      | S p' => r <- insertAt p' s sets' ;; Some (x :: r)
      end
  end.

(** Lines 412-418: the faces of the local elements, one set per owner. *)
Definition requiredFaces (DD procs : nat) (m : GlobalSimplexMesh) (elems : list Simplex)
  : option (list (list Simplex)) :=
  fold_left (fun acc s => sets <- acc ;; insertAt (getPlex2Rank DD procs m s) s sets)
            (concat (map (downward DD) elems))
            (Some (repeat [] procs)).

(** Lines 485-498: the [std::map] from the distinct requested faces, in
    ascending order, to consecutive ids from the offset on. *)
Definition ownedFaces (requestedFaces : list Simplex) : list Simplex :=
  fold_left (fun owned face => ordered_insert face owned) requestedFaces [].

Definition ownedFacesToCGID (gidOffset : nat) (owned : list Simplex) : list (Simplex * nat) :=
  combine owned (seq gidOffset (length owned)).

Definition lookupCGID (map : list (Simplex * nat)) (face : Simplex) : nat :=
  match find (fun kv => simplex_eqb (fst kv) face) map with
  | Some kv => snd kv
  | None => 0
  end.

(** [getContiguousGIDs] (lines 472-507): the owners name every
    requested face and reply over the swapped pattern. *)
Definition getContiguousGIDs (DD : nat) (requestedFaces : list (list Simplex))
           (a2a : list AllToAllV) : option (list (list N)) :=
  let cGIDs :=
    match DD with
    | 0 => map (map (fun face => nth 0 face 0%N)) requestedFaces
    | S _ =>
        let owned := map ownedFaces requestedFaces in
        let ownedSize := map (@length Simplex) owned in
        let gidOffset := map (fun '(scan, own) => scan - own)
                             (combine (MPI_Scan_sum ownedSize) ownedSize) in
        map (fun '(rf, (ow, off)) =>
               map (fun face => N.of_nat (lookupCGID (ownedFacesToCGID off ow) face)) rf)
            (combine requestedFaces (combine owned gidOffset))
    end in
  exchange a2a cGIDs.

(** Lines 515-518: for every face, the ranks that sent it. *)
Definition sharedRanksInfo (sDispls : list (nat * nat)) (requestedFaces : list Simplex)
           (face : Simplex) : list nat :=
  map fst (filter (fun pi => simplex_eqb (nth (snd pi) requestedFaces []) face) sDispls).

(** Lines 536-543: [counts[p] += vals[i]] for every pair [(p, i)]. *)
Fixpoint add_at (p v : nat) (l : list nat) {struct l} : list nat :=
  match l with
  | [] => []
  | x :: l' =>
      match p with
      | 0 => (x + v) :: l'
      | S p' => x :: add_at p' v l'
      end
  end.

Definition accumulate (procs : nat) (pairs : list (nat * nat)) (vals : list nat)
  : list nat :=
  fold_left (fun acc pi => add_at (fst pi) (nth (snd pi) vals 0) acc) pairs (repeat 0 procs).

(** [getSharedRanks] (lines 509-550); the result is what
    [setSharedRanks] receives: the ranks, flat, and the count of every
    face. *)
Definition getSharedRanks (procs : nat) (requestedFaces : list (list Simplex))
           (a2a : list AllToAllV) : option (list (list nat * list nat)) :=
  let local := combine a2a requestedFaces in
  let sharedRanksSendCount :=
    map (fun '(a, rf) => map (fun face => length (sharedRanksInfo (getSDispls a) rf face)) rf)
        local in
  sharedRanksRecvCount <- exchange a2a sharedRanksSendCount ;;
  let requestedSharedRanks :=
    map (fun '(a, rf) => concat (map (sharedRanksInfo (getSDispls a) rf) rf)) local in
  let sendcounts :=
    map (fun '(a, sc) => accumulate procs (getSDispls a) sc)
        (combine a2a sharedRanksSendCount) in
  let recvcounts :=
    map (fun '(a, rc) => accumulate procs (getRDispls a) rc)
        (combine a2a sharedRanksRecvCount) in
  let a2aSharedRanks :=
    map (fun '(s, r) => {| sendcounts := s; recvcounts := r |})
        (combine sendcounts recvcounts) in
  sharedRanks <- exchange a2aSharedRanks requestedSharedRanks ;;
  Some (combine sharedRanks sharedRanksRecvCount).

(** [getVertexLID] (lines 399-404) asserts that a requested vertex lies
    in the range of the rank that was asked for it. *)
Definition vertexOwned (vtxdist : list N) (rank : nat) (plex : Simplex) : bool :=
  (nth rank vtxdist 0 <=? nth 0 plex 0)%N && (nth 0 plex 0 <? nth (S rank) vtxdist 0)%N.

(** [getFaces<DD>] (lines 406-470) on every rank, from the element
    lists with their ghosts.  The attached data of lines 440-466 is
    left out: it reads the vertex data and the boundary meshes and
    goes into the [MeshData] of the result only; what remains of it is
    the assertion of [getVertexLID]. *)
Definition getFaces (DD : nat) (w : World) (elems : list (list Simplex))
  : option (list LocalFaces) :=
  let procs := length w in
  required <- forRanks (fun '(m, es) => requiredFaces DD procs m es) (combine w elems) ;;
  let counts := map (map (@length Simplex)) required in
  let faces := map (@concat Simplex) required in
  let a2a := mkAllToAllV counts in
  requestedFaces <- exchange a2a faces ;;
  let a2a' := map swap a2a in
  cGIDs <- getContiguousGIDs DD requestedFaces a2a' ;;
  _ <- forRanks (fun '(rank, (m, rf)) =>
                   match DD with
                   | 0 => if 0 <? length (vtxdist m)
                          then assert (forallb (vertexOwned (vtxdist m) rank) rf)
                          else Some tt
                   | S _ => Some tt
                   end)
                (combine (seq 0 procs) (combine w requestedFaces)) ;;
  shared <- getSharedRanks procs requestedFaces a2a' ;;
  Some (map (fun '(fs, (gids, (ranks, cnts))) =>
               {| lf_faces := fs; lf_contiguousGIDs := gids;
                  lf_sharedRanks := ranks; lf_sharedRanksCounts := cnts |})
            (combine faces (combine cGIDs shared))).

(** [getAllLocalFaces] (lines 192-206): the entries of the dimensions
    below [D], then the element entry. *)
Definition getAllLocalFaces (w : World) (overlap : nat)
  : option (list (list LocalFaces) * list LocalFaces) :=
  elemsCopy <- getGhostElements w overlap ;;
  lower <- sequence (map (fun DD => getFaces DD w elemsCopy) (seq 0 D)) ;;
  top <- getElementFaces w overlap ;;
  Some (lower, top).

(** The ranks that share the face at position [j] of a local view. *)
Definition sharedRanksAt (lf : LocalFaces) (j : nat) : list nat :=
  segment (lf_sharedRanksCounts lf) (lf_sharedRanks lf) j.

End GlobalMesh.

(** ** Two implementations of the library *)

(** Insertion sort: an element is placed before the first one that is
    not less than it, so equivalent elements keep their order. *)
Fixpoint insert_by {A : Type} (lt : A -> A -> bool) (x : A) (l : list A) : list A :=
  match l with
  | [] => [x]
  | y :: l' => if lt y x then y :: insert_by lt x l' else x :: l
  end.

Definition insertion_sort (A : Type) (lt : A -> A -> bool) (l : list A) : list A :=
  fold_right (insert_by lt) [] l.


Definition insertion_order (A : Type) (l : list (Simplex * A)) : list (Simplex * A) := l.

Lemma insert_by_perm (A : Type) (lt : A -> A -> bool) (x : A) (l : list A) :
  Permutation (insert_by lt x l) (x :: l).
Proof.
  induction l as [|y l IH]; simpl; [reflexivity|].
  destruct (lt y x); [|reflexivity].
  rewrite IH. apply perm_swap.
Qed.

Lemma insertion_sort_perm (A : Type) (lt : A -> A -> bool) (l : list A) :
  Permutation (insertion_sort lt l) l.
Proof.
  induction l as [|x l IH]; simpl; [reflexivity|].
  rewrite insert_by_perm. now constructor.
Qed.

Lemma swo_asym (A : Type) (lt : A -> A -> bool) (a b : A) :
  StrictWeakOrder lt -> lt a b = true -> lt b a = false.
Proof.
  intros O Hab. destruct (lt b a) eqn:Hba; [|reflexivity].
  rewrite <- (swo_irrefl O a). symmetry. exact (swo_trans O _ _ _ Hab Hba).
Qed.

Lemma insert_by_sorted (A : Type) (lt : A -> A -> bool) (x : A) (l : list A) :
  StrictWeakOrder lt -> sorted_by lt l -> sorted_by lt (insert_by lt x l).
Proof.
  intros O. unfold sorted_by.
  induction l as [|y l IH]; intros S; simpl.
  - repeat constructor.
  - inversion S as [|? ? S' F]; subst.
    destruct (lt y x) eqn:Hyx.
    + constructor; [now apply IH|].
      eapply Permutation_Forall.
      * symmetry. apply insert_by_perm.
      * constructor; [now apply swo_asym|exact F].
    + constructor; [exact S|].
      constructor; [exact Hyx|].
      eapply Forall_impl; [|exact F]. intros b Hb.
      exact (swo_negtrans O _ _ _ Hb Hyx).
Qed.

Lemma insertion_sort_sorted (A : Type) (lt : A -> A -> bool) (l : list A) :
  StrictWeakOrder lt -> sorted_by lt (insertion_sort lt l).
Proof.
  intros O. induction l as [|x l IH]; simpl.
  - constructor.
  - now apply insert_by_sorted.
Qed.


(** The library whose [std::sort] happens to be stable and whose
    unordered containers are iterated in the order of insertion. *)
Definition stl_stable : StdLib :=
  {| std_sort := @insertion_sort;
     std_sort_perm := fun A lt l _ => insertion_sort_perm lt l;
     std_sort_sorted := fun A lt l O => insertion_sort_sorted l O;
     uorder := @insertion_order;
     uorder_perm := fun A l => Permutation_refl l |}.


(** ** Lists indexed by rank *)

Definition transpose {A : Type} (d : A) (M : list (list A)) : list (list A) :=
  map (fun r => column d r M) (seq 0 (length M)).

(** One row per rank and one entry per peer in every row. *)
Definition square {A : Type} (M : list (list A)) : Prop :=
  Forall (fun row => length row = length M) M.

Lemma nth_map_lt (A B : Type) (f : A -> B) (l : list A) (p : nat) (d : B) (d' : A) :
  p < length l -> nth p (map f l) d = f (nth p l d').
Proof.
  intros H. rewrite (nth_indep _ d (f d')); [apply map_nth|now rewrite length_map].
Qed.

Lemma map_nth_seq (A : Type) (l : list A) (d : A) :
  map (fun r => nth r l d) (seq 0 (length l)) = l.
Proof.
  induction l as [|x l IH]; simpl; [reflexivity|].
  f_equal. rewrite <- seq_shift, map_map. exact IH.
Qed.

Lemma In_combine_nth (A B : Type) (l1 : list A) (l2 : list B) (a : A) (b : B)
      (d1 : A) (d2 : B) :
  In (a, b) (combine l1 l2) ->
  exists r, r < length l1 /\ r < length l2 /\ nth r l1 d1 = a /\ nth r l2 d2 = b.
Proof.
  revert l2. induction l1 as [|x l1 IH]; intros [|y l2] H; simpl in H; try contradiction.
  destruct H as [H|H].
  - inversion H; subst. exists 0. simpl. repeat split; lia.
  - destruct (IH _ H) as (r & H1 & H2 & H3 & H4).
    exists (S r). simpl. repeat split; try lia; assumption.
Qed.

Lemma length_transpose (A : Type) (d : A) (M : list (list A)) :
  length (transpose d M) = length M.
Proof. unfold transpose. now rewrite length_map, length_seq. Qed.

Lemma nth_transpose (A : Type) (d : A) (M : list (list A)) (r : nat) :
  r < length M -> nth r (transpose d M) [] = column d r M.
Proof.
  intros H. unfold transpose.
  rewrite (nth_map_lt _ _ _ 0); [|now rewrite length_seq].
  now rewrite seq_nth.
Qed.

Lemma nth_column (A : Type) (d : A) (M : list (list A)) (r q : nat) :
  q < length M -> nth q (column d r M) d = nth r (nth q M []) d.
Proof. intros H. unfold column. now rewrite (nth_map_lt _ _ _ []). Qed.

Lemma square_transpose (A : Type) (d : A) (M : list (list A)) :
  square (transpose d M).
Proof.
  unfold square. rewrite length_transpose. unfold transpose.
  apply Forall_forall. intros row H. apply in_map_iff in H.
  destruct H as (r & <- & _). unfold column. now rewrite length_map.
Qed.

Lemma transpose_involutive (A : Type) (d : A) (M : list (list A)) :
  square M -> transpose d (transpose d M) = M.
Proof.
  intros Sq. unfold transpose at 1. rewrite length_transpose.
  etransitivity; [|apply (map_nth_seq M [])].
  apply map_ext_in. intros r Hr. apply in_seq in Hr.
  unfold column at 1. unfold transpose. rewrite map_map.
  assert (Hlen : length (nth r M []) = length M).
  { unfold square in Sq. rewrite Forall_forall in Sq. apply Sq, nth_In. lia. }
  etransitivity; [|apply (map_nth_seq (nth r M []) d)]. rewrite Hlen.
  apply map_ext_in. intros q Hq. apply in_seq in Hq.
  apply nth_column. lia.
Qed.

Lemma transpose_map_map (A B : Type) (f : A -> B) (d : A) (M : list (list A)) :
  transpose (f d) (map (map f) M) = map (map f) (transpose d M).
Proof.
  unfold transpose. rewrite length_map, map_map.
  apply map_ext. intros r. unfold column. rewrite !map_map.
  apply map_ext. intros row. apply map_nth.
Qed.

Lemma perm_eq (A : Type) (l l' : list A) : l = l' -> Permutation l l'.
Proof. intros ->. reflexivity. Qed.

Lemma concat_map_app (A B : Type) (f g : A -> list B) (l : list A) :
  Permutation (concat (map (fun x => f x ++ g x) l))
              (concat (map f l) ++ concat (map g l)).
Proof.
  induction l as [|x l IH]; simpl; [reflexivity|].
  rewrite IH, <- !app_assoc. apply Permutation_app_head.
  rewrite !app_assoc. apply Permutation_app_tail. apply Permutation_app_comm.
Qed.

(** Transposition moves the items between the ranks and neither loses
    nor repeats one. *)
Lemma transpose_perm (A : Type) (M : list (list (list A))) (n : nat) :
  Forall (fun row => length row = n) M ->
  Permutation (concat (map (fun r => concat (column [] r M)) (seq 0 n)))
              (concat (map (@concat A) M)).
Proof.
  induction M as [|row M IH]; intros H; simpl.
  - clear H. induction (seq 0 n) as [|x l IH]; simpl; [reflexivity|exact IH].
  - inversion H as [|? ? Hrow HM]; subst.
    rewrite (concat_map_app (fun r => nth r row []) (fun r => concat (column [] r M))).
    rewrite (IH HM). apply Permutation_app_tail.
    now rewrite map_nth_seq.
Qed.

(** ** The exchange, seen on the chunks that the ranks address to each other *)

Lemma segment_chunks (A : Type) (ch : list (list A)) (p : nat) :
  segment (map (@length A) ch) (concat ch) p = nth p ch [].
Proof.
  unfold segment, displ. revert p.
  induction ch as [|c ch IH]; intros p.
  - destruct p; reflexivity.
  - destruct p as [|p]; simpl.
    + rewrite firstn_app, firstn_all, Nat.sub_diag. simpl. apply app_nil_r.
    + rewrite skipn_app, skipn_all2 by lia. simpl.
      replace (length c + list_sum (firstn p (map (@length A) ch)) - length c)
        with (list_sum (firstn p (map (@length A) ch))) by lia.
      apply IH.
Qed.

Lemma length_mkAllToAllV (C : list (list nat)) : length (mkAllToAllV C) = length C.
Proof. unfold mkAllToAllV. now rewrite length_map, length_seq. Qed.

Lemma nth_mkAllToAllV (C : list (list nat)) (r : nat) :
  r < length C ->
  nth r (mkAllToAllV C) noPattern =
  {| sendcounts := nth r C []; recvcounts := column 0 r C |}.
Proof.
  intros H. unfold mkAllToAllV.
  rewrite (nth_map_lt _ _ _ 0); [|now rewrite length_seq].
  now rewrite seq_nth.
Qed.

Lemma sendcounts_mkAllToAllV (C : list (list nat)) : map sendcounts (mkAllToAllV C) = C.
Proof. unfold mkAllToAllV. rewrite map_map. simpl. apply map_nth_seq. Qed.

Lemma map_combine_fst (A B C E : Type) (f : A -> B) (h : B -> C -> E)
      (l : list A) (l' : list C) :
  map (fun '(a, c) => h (f a) c) (combine l l') =
  map (fun '(b, c) => h b c) (combine (map f l) l').
Proof.
  revert l'. induction l as [|x l IH]; intros [|y l']; simpl; try reflexivity.
  now rewrite IH.
Qed.

Lemma map_combine_maps (A B C E : Type) (f : A -> B) (g : A -> C) (h : B -> C -> E)
      (l : list A) :
  map (fun '(b, c) => h b c) (combine (map f l) (map g l)) = map (fun x => h (f x) (g x)) l.
Proof. induction l as [|x l IH]; simpl; [reflexivity|now rewrite IH]. Qed.

Lemma square_nth (A : Type) (M : list (list A)) (r : nat) :
  square M -> r < length M -> length (nth r M []) = length M.
Proof.
  intros Sq H. unfold square in Sq. rewrite Forall_forall in Sq. apply Sq, nth_In, H.
Qed.

Lemma matched_mk (A : Type) (M : list (list (list A))) :
  square M ->
  matched (mkAllToAllV (map (map (@length A)) M)) (map (@concat A) M) = true.
Proof.
  intros Sq. unfold matched.
  rewrite length_mkAllToAllV, !length_map, Nat.eqb_refl. simpl.
  apply andb_true_intro. split.
  - apply forallb_forall. intros [a buf] H.
    apply In_combine_nth with (d1 := noPattern) (d2 := @nil A) in H.
    destruct H as (r & Hr & _ & Ha & Hb).
    rewrite length_mkAllToAllV, length_map in Hr.
    rewrite nth_mkAllToAllV in Ha by now rewrite length_map.
    subst a. simpl.
    change (@nil nat) with (map (@length A) []). rewrite map_nth.
    unfold column. rewrite !length_map, (square_nth Sq Hr), !Nat.eqb_refl. simpl.
    apply Nat.eqb_eq. subst buf.
    change (@nil A) with (concat (@nil (list A))). rewrite map_nth.
    apply length_concat.
  - apply forallb_forall. intros r Hr. apply in_seq in Hr.
    apply forallb_forall. intros p Hp. apply in_seq in Hp.
    rewrite !nth_mkAllToAllV by (rewrite length_map; lia). simpl.
    apply Nat.eqb_eq. apply nth_column. rewrite length_map. lia.
Qed.

(** What every rank obtains from an exchange: the chunks addressed to
    it, in rank order. *)
Lemma exchange_mk (A : Type) (M : list (list (list A))) :
  square M ->
  exchange (mkAllToAllV (map (map (@length A)) M)) (map (@concat A) M)
  = Some (map (@concat A) (transpose [] M)).
Proof.
  intros Sq. unfold exchange. rewrite (matched_mk Sq). simpl.
  f_equal. unfold transpose. rewrite map_map, length_mkAllToAllV, length_map.
  apply map_ext. intros r. f_equal.
  rewrite (map_combine_fst sendcounts (fun c buf => segment c buf r)).
  rewrite sendcounts_mkAllToAllV.
  rewrite (map_combine_maps (map (@length A)) (@concat A) (fun c buf => segment c buf r)).
  unfold column. apply map_ext. intros row. apply segment_chunks.
Qed.

(** After [swap()] the pattern is the one built from the counts that
    were received. *)
Lemma swap_mkAllToAllV (C : list (list nat)) :
  square C -> map swap (mkAllToAllV C) = mkAllToAllV (transpose 0 C).
Proof.
  intros Sq. unfold mkAllToAllV. rewrite map_map, length_transpose.
  apply map_ext_in. intros r Hr. apply in_seq in Hr. unfold swap. simpl.
  rewrite nth_transpose by lia. f_equal.
  rewrite <- (nth_transpose 0 (transpose 0 C)) by (rewrite length_transpose; lia).
  now rewrite (transpose_involutive 0 Sq).
Qed.

Lemma square_map_map (A B : Type) (f : A -> B) (M : list (list A)) :
  square M -> square (map (map f) M).
Proof.
  unfold square. rewrite length_map. intros H. apply Forall_map.
  eapply Forall_impl; [|exact H]. intros row Hrow. now rewrite length_map.
Qed.

(** The reply over the swapped pattern: when every rank answers with
    chunks shaped like the ones it received, every requester obtains
    its answers chunk by chunk, in the order of its own send buffer. *)
Lemma exchange_swap (A B : Type) (M : list (list (list A))) (R : list (list (list B))) :
  square M ->
  map (map (@length B)) R = map (map (@length A)) (transpose [] M) ->
  exchange (map swap (mkAllToAllV (map (map (@length A)) M))) (map (@concat B) R)
  = Some (map (@concat B) (transpose [] R)).
Proof.
  intros Sq Sh.
  rewrite swap_mkAllToAllV by now apply square_map_map.
  change 0 with (@length A []).
  rewrite transpose_map_map, <- Sh.
  apply exchange_mk.
  assert (Sq' : square (map (map (@length B)) R)).
  { rewrite Sh. apply square_map_map, square_transpose. }
  unfold square in *. rewrite length_map in Sq'. rewrite Forall_map in Sq'.
  eapply Forall_impl; [|exact Sq']. intros row Hrow. simpl in Hrow.
  now rewrite length_map in Hrow.
Qed.

Lemma segment_cons (A : Type) (c : nat) (cs : list nat) (buf : list A) (p : nat) :
  segment (c :: cs) buf (S p) = segment cs (skipn c buf) p.
Proof.
  unfold segment, displ. simpl. rewrite skipn_skipn. f_equal. f_equal. lia.
Qed.

(** A buffer is the concatenation of its segments. *)
Lemma concat_segments (A : Type) (cnt : list nat) (buf : list A) :
  length buf = list_sum cnt ->
  concat (map (segment cnt buf) (seq 0 (length cnt))) = buf.
Proof.
  revert buf. induction cnt as [|c cs IH]; intros buf H; simpl in *.
  - destruct buf; [reflexivity|discriminate].
  - rewrite <- seq_shift, map_map.
    rewrite (map_ext _ (segment cs (skipn c buf))) by (intros p; apply segment_cons).
    rewrite IH by (rewrite length_skipn; lia).
    unfold segment, displ. simpl. apply firstn_skipn.
Qed.

Lemma segment_map (A B : Type) (f : A -> B) (cnt : list nat) (buf : list A) (p : nat) :
  segment cnt (map f buf) p = map f (segment cnt buf p).
Proof. unfold segment. now rewrite skipn_map, firstn_map. Qed.

Lemma matched_map (A B : Type) (f : A -> B) (a2a : list AllToAllV) (bufs : list (list A)) :
  matched a2a (map (map f) bufs) = matched a2a bufs.
Proof.
  unfold matched. rewrite length_map. f_equal. f_equal.
  generalize (length a2a) as n. intros n.
  revert bufs. induction a2a as [|a a2a IH]; intros [|buf bufs]; simpl; try reflexivity.
  now rewrite IH, length_map.
Qed.

Definition option_map2 {A B : Type} (f : A -> B) (x : option A) : option B :=
  match x with Some a => Some (f a) | None => None end.

(** The exchange does not look into the items it moves. *)
Lemma exchange_map (A B : Type) (f : A -> B) (a2a : list AllToAllV) (bufs : list (list A)) :
  exchange a2a (map (map f) bufs) = option_map2 (map (map f)) (exchange a2a bufs).
Proof.
  unfold exchange. rewrite matched_map.
  destruct (matched a2a bufs); simpl; [|reflexivity].
  f_equal. rewrite map_map. apply map_ext. intros r.
  rewrite concat_map, map_map. f_equal.
  clear. revert bufs. induction a2a as [|a a2a IH]; intros [|buf bufs]; simpl; try reflexivity.
  now rewrite IH, segment_map.
Qed.

Lemma matched_inv (A : Type) (a2a : list AllToAllV) (bufs : list (list A)) :
  matched a2a bufs = true ->
  length bufs = length a2a /\
  Forall (fun ab => length (sendcounts (fst ab)) = length a2a /\
                    length (snd ab) = list_sum (sendcounts (fst ab))) (combine a2a bufs).
Proof.
  unfold matched. intros H.
  apply andb_prop in H. destruct H as [H _].
  apply andb_prop in H. destruct H as [H1 H2].
  apply Nat.eqb_eq in H1. split; [exact H1|].
  apply Forall_forall. intros [a buf] Hin.
  rewrite forallb_forall in H2. specialize (H2 _ Hin). simpl in H2.
  apply andb_prop in H2. destruct H2 as [H2 H3].
  apply andb_prop in H2. destruct H2 as [H2 _].
  apply Nat.eqb_eq in H2, H3. now split.
Qed.

Lemma exchange_inv (A : Type) (a2a : list AllToAllV) (bufs res : list (list A)) :
  exchange a2a bufs = Some res ->
  matched a2a bufs = true /\
  res = map (fun r => concat (map (fun '(a, buf) => segment (sendcounts a) buf r)
                                  (combine a2a bufs)))
            (seq 0 (length a2a)).
Proof.
  unfold exchange. destruct (matched a2a bufs); simpl; [|discriminate].
  intros H. inversion H. now split.
Qed.

Lemma combine_snd_all (A B : Type) (l : list A) (l' : list B) :
  length l' = length l -> map snd (combine l l') = l'.
Proof.
  revert l'. induction l as [|x l IH]; intros [|y l'] H; simpl in *; try discriminate;
    [reflexivity|]. f_equal. apply IH. lia.
Qed.

(** The exchange neither loses nor repeats an item. *)
Lemma exchange_perm (A : Type) (a2a : list AllToAllV) (bufs res : list (list A)) :
  exchange a2a bufs = Some res -> Permutation (concat res) (concat bufs).
Proof.
  intros H. apply exchange_inv in H. destruct H as [Hm ->].
  apply matched_inv in Hm. destruct Hm as [Hlen Hall].
  set (n := length a2a) in *.
  set (M := map (fun ab : AllToAllV * list A =>
                   map (segment (sendcounts (fst ab)) (snd ab)) (seq 0 n))
                (combine a2a bufs)).
  assert (HM : map (@concat A) M = bufs).
  { etransitivity; [|exact (combine_snd_all a2a bufs Hlen)].
    unfold M. rewrite map_map. apply map_ext_in. intros [a buf] Hin.
    rewrite Forall_forall in Hall. destruct (Hall _ Hin) as [H1 H2]. simpl in *.
    rewrite <- H1. now apply concat_segments. }
  transitivity (concat (map (@concat A) M)); [|now rewrite HM].
  rewrite <- (@transpose_perm A M n).
  - apply perm_eq. f_equal. apply map_ext_in. intros r Hr. apply in_seq in Hr.
    f_equal. unfold column, M. rewrite map_map. apply map_ext. intros [a buf]. simpl.
    rewrite (nth_map_lt _ _ _ 0) by (rewrite length_seq; lia).
    now rewrite seq_nth by lia.
  - unfold M. apply Forall_map. apply Forall_forall. intros ab _.
    now rewrite length_map, length_seq.
Qed.

(** Whatever a rank obtains was in the segment some peer addressed to it. *)
Lemma exchange_In (A : Type) (a2a : list AllToAllV) (bufs res : list (list A))
      (r : nat) (x : A) :
  exchange a2a bufs = Some res -> In x (nth r res []) ->
  exists q, q < length a2a /\
            In x (segment (sendcounts (nth q a2a noPattern)) (nth q bufs []) r).
Proof.
  intros H Hin. apply exchange_inv in H. destruct H as [_ ->].
  destruct (Nat.lt_ge_cases r (length a2a)) as [Hr|Hr].
  - rewrite (nth_map_lt _ _ _ 0) in Hin by now rewrite length_seq.
    rewrite seq_nth in Hin by exact Hr. simpl in Hin.
    apply in_concat in Hin. destruct Hin as (seg & Hseg & Hx).
    apply in_map_iff in Hseg. destruct Hseg as ([a buf] & <- & Hab).
    apply In_combine_nth with (d1 := noPattern) (d2 := @nil A) in Hab.
    destruct Hab as (q & Hq & _ & <- & <-). exists q. now split.
  - rewrite nth_overflow in Hin by now rewrite length_map, length_seq. contradiction.
Qed.

Lemma length_exchange (A : Type) (a2a : list AllToAllV) (bufs res : list (list A)) :
  exchange a2a bufs = Some res -> length res = length a2a.
Proof.
  intros H. apply exchange_inv in H. destruct H as [_ ->].
  now rewrite length_map, length_seq.
Qed.

(** ** Facts about the local loops *)

Lemma sequence_Forall2 (A : Type) (l : list (option A)) (r : list A) :
  sequence l = Some r <-> Forall2 (fun x y => x = Some y) l r.
Proof.
  revert r. induction l as [|x l IH]; intros r; simpl.
  - split; intros H; [inversion H; constructor|inversion H; reflexivity].
  - destruct x as [a|]; simpl.
    + destruct (sequence l) as [r'|]; simpl.
      * split; intros H.
        -- inversion H; subst. constructor; [reflexivity|now apply IH].
        -- inversion H as [|? ? ? ? Ha Hr]; subst. inversion Ha; subst.
           apply IH in Hr. now inversion Hr.
      * split; intros H; [discriminate|].
        inversion H as [|? ? ? ? _ Hr]; subst. apply IH in Hr. discriminate.
    + split; intros H; [discriminate|]. inversion H as [|? ? ? ? Ha _]. discriminate.
Qed.

Lemma forRanks_Forall2 (A B : Type) (f : A -> option B) (l : list A) (r : list B) :
  forRanks f l = Some r <-> Forall2 (fun x y => f x = Some y) l r.
Proof.
  unfold forRanks. rewrite sequence_Forall2. split; intros H.
  - remember (map f l) as l' eqn:E. revert l E.
    induction H; intros [|a l0] E; simpl in E; inversion E; subst; constructor; auto.
  - induction H; simpl; constructor; auto.
Qed.

Lemma forRanks_map (A B : Type) (f : A -> option B) (g : A -> B) (l : list A) :
  (forall x, In x l -> f x = Some (g x)) -> forRanks f l = Some (map g l).
Proof.
  intros H. apply forRanks_Forall2.
  induction l as [|x l IH]; simpl; constructor.
  - apply H. now left.
  - apply IH. intros y Hy. apply H. now right.
Qed.

Lemma Forall2_map_eq (A B : Type) (g : A -> B) (l : list A) (r : list B) :
  Forall2 (fun x y => y = g x) l r -> r = map g l.
Proof. induction 1; simpl; congruence. Qed.

Lemma Forall2_Forall_l (A B : Type) (R : A -> B -> Prop) (P : A -> Prop)
      (l : list A) (l' : list B) :
  Forall2 R l l' -> (forall x y, R x y -> P x) -> Forall P l.
Proof. induction 1; intros HP; constructor; eauto. Qed.

Lemma takeWhile_dropWhile (A : Type) (f : A -> bool) (l : list A) :
  takeWhile f l ++ dropWhile f l = l.
Proof.
  induction l as [|x l IH]; simpl; [reflexivity|].
  destruct (f x); simpl; [now rewrite IH|reflexivity].
Qed.

Lemma takeWhile_In (A : Type) (f : A -> bool) (l : list A) (x : A) :
  In x (takeWhile f l) -> f x = true /\ In x l.
Proof.
  induction l as [|y l IH]; simpl; [contradiction|].
  destruct (f y) eqn:E; simpl; [|contradiction].
  intros [<-|H]; [now split; [|left]|].
  destruct (IH H). split; [assumption|now right].
Qed.

Lemma dropWhile_In (A : Type) (f : A -> bool) (l : list A) (x : A) :
  In x (dropWhile f l) -> In x l.
Proof.
  intros H. rewrite <- (takeWhile_dropWhile f l). apply in_or_app. now right.
Qed.

Lemma dropWhile_all (A : Type) (f : A -> bool) (l : list A) :
  (forall x, In x l -> f x = true) -> dropWhile f l = [].
Proof.
  induction l as [|x l IH]; intros H; simpl; [reflexivity|].
  rewrite (H x) by now left. apply IH. intros y Hy. apply H. now right.
Qed.

Lemma dropWhile_sorted (A : Type) (lt : A -> A -> bool) (f : A -> bool) (l : list A) :
  sorted_by lt l -> sorted_by lt (dropWhile f l).
Proof.
  unfold sorted_by. induction 1 as [|x l S IH F]; simpl; [constructor|].
  destruct (f x); [exact IH|now constructor].
Qed.

Lemma partition_lt_swo (partition : list Z) : StrictWeakOrder (partition_lt partition).
Proof.
  unfold partition_lt. constructor.
  - intros a. apply Z.ltb_irrefl.
  - intros a b c H1 H2. apply Z.ltb_lt in H1, H2. apply Z.ltb_lt. lia.
  - intros a b c H1 H2. apply Z.ltb_ge in H1, H2. apply Z.ltb_ge. lia.
Qed.

(** The chunks that the loop of lines 173-180 forms, peer by peer, and
    what it leaves over. *)
Fixpoint sendChunks (partition : list Z) (ps : list nat) (eIt : list nat)
  : list (list nat) :=
  match ps with
  | [] => []
  | p :: ps' =>
      takeWhile (fun e => (nth e partition 0 <=? Z.of_nat p)%Z) eIt
      :: sendChunks partition ps'
           (dropWhile (fun e => (nth e partition 0 <=? Z.of_nat p)%Z) eIt)
  end.

Fixpoint sendRest (partition : list Z) (ps : list nat) (eIt : list nat) : list nat :=
  match ps with
  | [] => eIt
  | p :: ps' =>
      sendRest partition ps' (dropWhile (fun e => (nth e partition 0 <=? Z.of_nat p)%Z) eIt)
  end.

Lemma sendLoop_chunks (partition : list Z) (ps eIt : list nat) :
  sendLoop partition ps eIt =
  (map (@length nat) (sendChunks partition ps eIt),
   concat (sendChunks partition ps eIt),
   sendRest partition ps eIt).
Proof.
  revert eIt. induction ps as [|p ps IH]; intros eIt; simpl; [reflexivity|].
  now rewrite IH.
Qed.

Lemma length_sendChunks (partition : list Z) (ps eIt : list nat) :
  length (sendChunks partition ps eIt) = length ps.
Proof. revert eIt. induction ps; intros; simpl; congruence. Qed.

Lemma sendChunks_all (partition : list Z) (ps eIt : list nat) :
  concat (sendChunks partition ps eIt) ++ sendRest partition ps eIt = eIt.
Proof.
  revert eIt. induction ps as [|p ps IH]; intros eIt; simpl; [reflexivity|].
  rewrite <- app_assoc, IH. apply takeWhile_dropWhile.
Qed.

Lemma dropWhile_sorted_above (partition : list Z) (p : Z) (l : list nat) (e : nat) :
  sorted_by (partition_lt partition) l ->
  In e (dropWhile (fun e => (nth e partition 0 <=? p)%Z) l) ->
  (p < nth e partition 0)%Z.
Proof.
  unfold sorted_by. induction 1 as [|x l S IH F]; simpl; [contradiction|].
  destruct (nth x partition 0 <=? p)%Z eqn:E; [exact IH|].
  apply Z.leb_gt in E. intros [<-|H]; [exact E|].
  rewrite Forall_forall in F. specialize (F _ H).
  unfold partition_lt in F. apply Z.ltb_ge in F. lia.
Qed.

(** In a sorted enumeration the chunk of peer [p] holds exactly the
    indices whose target is [p] (the chunk of the first peer also takes
    what lies below it). *)
Lemma sendChunks_target (partition : list Z) (k : nat) :
  forall (p0 : nat) (eIt : list nat) (j i : nat),
  sorted_by (partition_lt partition) eIt ->
  (forall e, In e eIt -> (Z.of_nat p0 <= nth e partition 0)%Z) ->
  In i (nth j (sendChunks partition (seq p0 k) eIt) []) ->
  nth i partition 0%Z = Z.of_nat (p0 + j).
Proof.
  induction k as [|k IH]; intros p0 eIt j i HS L Hin; simpl in Hin.
  - destruct j; contradiction.
  - destruct j as [|j].
    + apply takeWhile_In in Hin. destruct Hin as [H1 H2].
      apply Z.leb_le in H1. specialize (L _ H2). lia.
    + replace (p0 + S j) with (S p0 + j) by lia.
      eapply IH; [| |exact Hin].
      * now apply dropWhile_sorted.
      * intros e He. apply (dropWhile_sorted_above _ _ HS) in He. lia.
Qed.

Lemma sendRest_nil (partition : list Z) (k : nat) :
  forall (p0 : nat) (eIt : list nat),
  (forall e, In e eIt -> (nth e partition 0 <= Z.of_nat (p0 + k))%Z) ->
  sendRest partition (seq p0 (S k)) eIt = [].
Proof.
  induction k as [|k IH]; intros p0 eIt H.
  - simpl. apply dropWhile_all. intros e He. apply Z.leb_le.
    specialize (H _ He). now rewrite Nat.add_0_r in H.
  - change (seq p0 (S (S k))) with (p0 :: seq (S p0) (S k)). simpl sendRest.
    apply IH. intros e He. apply dropWhile_In in He. specialize (H _ He). lia.
Qed.

(** ** Facts about [doPartition] *)

Section PartitionFacts.

Variable Row : Type.
Variable unsetRow : Row.
Variable stl : StdLib.

Local Abbreviation Mesh := (GlobalSimplexMesh Row).

(** Element data is keyed by the position in the local element
    array: element [i] and the row attached to it. *)
Definition rowAt (m : Mesh) (i : nat) : Simplex * option Row :=
  (nth i (elems_ m) [],
   match elementData m with Some d => Some (nth i d unsetRow) | None => None end).

Definition rows (m : Mesh) : list (Simplex * option Row) :=
  map (rowAt m) (seq 0 (numElements m)).

Definition getRow (p : Simplex * option Row) : Row :=
  match snd p with Some x => x | None => unsetRow end.

Definition retag (hd : bool) (p : Simplex * option Row) : Simplex * option Row :=
  (fst p, if hd then Some (getRow p) else None).

Definition enumerationOf (partition : list Z) : list nat :=
  std_sort stl (partition_lt partition) (seq 0 (length partition)).

Definition chunksOf (procs : nat) (arg : Mesh * list Z) : list (list nat) :=
  sendChunks (snd arg) (seq 0 procs) (enumerationOf (snd arg)).

Definition packed (arg : Mesh * list Z) : list (Simplex * option Row) :=
  map (rowAt (fst arg)) (enumerationOf (snd arg)).

Definition outgoingOf (procs : nat) (arg : Mesh * list Z) : Outgoing :=
  {| out_enumeration := enumerationOf (snd arg);
     out_sendcounts := map (@length nat) (chunksOf procs arg);
     out_elemsToSend := map (fun i => nth i (elems_ (fst arg)) []) (enumerationOf (snd arg)) |}.

Definition sendable (procs : nat) (arg : Mesh * list Z) : Prop :=
  length (snd arg) = numElements (fst arg) /\
  sendRest (snd arg) (seq 0 procs) (enumerationOf (snd arg)) = [].

Lemma enumerationOf_perm (partition : list Z) :
  Permutation (enumerationOf partition) (seq 0 (length partition)).
Proof. apply std_sort_perm, partition_lt_swo. Qed.

Lemma enumerationOf_sorted (partition : list Z) :
  sorted_by (partition_lt partition) (enumerationOf partition).
Proof. apply std_sort_sorted, partition_lt_swo. Qed.

Lemma doPartition_local_inv (procs : nat) (arg : Mesh * list Z) (out : Outgoing) :
  doPartition_local stl procs arg = Some out ->
  sendable procs arg /\ out = outgoingOf procs arg.
Proof.
  destruct arg as [m partition]. unfold doPartition_local, sendable, outgoingOf, chunksOf.
  simpl fst. simpl snd. fold (enumerationOf partition).
  destruct (length partition =? numElements m) eqn:E; simpl; [|discriminate].
  apply Nat.eqb_eq in E. rewrite sendLoop_chunks.
  pose proof (sendChunks_all partition (seq 0 procs) (enumerationOf partition)) as Hall.
  destruct (sendRest partition (seq 0 procs) (enumerationOf partition)) as [|x rest];
    simpl; [|discriminate].
  rewrite app_nil_r in Hall. rewrite Hall.
  intros H. inversion H. repeat split. exact E.
Qed.

Lemma doPartition_local_sendable (procs : nat) (arg : Mesh * list Z) :
  sendable procs arg -> doPartition_local stl procs arg = Some (outgoingOf procs arg).
Proof.
  destruct arg as [m partition]. unfold doPartition_local, sendable, outgoingOf, chunksOf.
  simpl fst. simpl snd. fold (enumerationOf partition). intros [E R].
  rewrite E, Nat.eqb_refl. simpl. rewrite sendLoop_chunks, R. simpl.
  pose proof (sendChunks_all partition (seq 0 procs) (enumerationOf partition)) as Hall.
  rewrite R, app_nil_r in Hall. now rewrite Hall.
Qed.

Lemma chunksOf_concat (procs : nat) (arg : Mesh * list Z) :
  sendable procs arg -> concat (chunksOf procs arg) = enumerationOf (snd arg).
Proof.
  intros [_ R]. unfold chunksOf.
  pose proof (sendChunks_all (snd arg) (seq 0 procs) (enumerationOf (snd arg))) as Hall.
  now rewrite R, app_nil_r in Hall.
Qed.

Lemma getRow_rowAt (m : Mesh) (i : nat) :
  getRow (rowAt m i) = nth i (theElementData m) unsetRow.
Proof.
  unfold getRow, rowAt, theElementData. simpl.
  destruct (elementData m); [reflexivity|now destruct i].
Qed.

Lemma retag_rowAt (m : Mesh) (i : nat) :
  retag (hasElementData m) (rowAt m i) = rowAt m i.
Proof.
  unfold retag, rowAt, hasElementData, getRow. simpl.
  now destruct (elementData m).
Qed.

Lemma agreed_all (bs : list bool) (b : bool) :
  agreed bs = Some b -> forall x, In x bs -> x = b.
Proof.
  unfold agreed. destruct (forallb (fun b => b) bs) eqn:E1.
  - intros H x Hx. inversion H; subst.
    rewrite forallb_forall in E1. now apply E1.
  - destruct (forallb negb bs) eqn:E2; [|discriminate].
    intros H x Hx. inversion H; subst.
    rewrite forallb_forall in E2. specialize (E2 _ Hx). now destruct x.
Qed.

Lemma combine_maps (A B C E : Type) (f : B -> C) (g : B -> E) (l : list A) (X : list B) :
  combine l (combine (map f X) (map g X)) = map (fun '(m, x) => (m, (f x, g x))) (combine l X).
Proof.
  revert X. induction l as [|m l IH]; intros [|x X]; simpl; try reflexivity.
  now rewrite IH.
Qed.

Lemma combine_const (A B C E : Type) (f : B -> C) (e : E) (l : list A) (X : list B) :
  combine l (combine (map f X) (map (fun _ => e) l)) =
  map (fun '(m, x) => (m, (f x, e))) (combine l X).
Proof.
  revert X. induction l as [|m l IH]; intros [|x X]; simpl; try reflexivity.
  now rewrite IH.
Qed.

(** What [doPartition] does, in one exchange of the elements paired
    with their rows. *)
Lemma doPartition_inv (args : list (Mesh * list Z)) (w' : World Row) :
  doPartition unsetRow stl args = Some w' ->
  exists (X : list (list (Simplex * option Row))) (hd : bool),
    Forall (sendable (length args)) args /\
    exchange (mkAllToAllV (map (fun arg => map (@length nat) (chunksOf (length args) arg)) args))
             (map packed args) = Some X /\
    agreed (map hasElementData (map fst args)) = Some hd /\
    w' = map (fun '(m, x) =>
                with_elems m (map fst x, if hd then Some (map getRow x) else None))
             (combine (map fst args) X).
Proof.
  unfold doPartition. set (procs := length args).
  destruct (forRanks (doPartition_local stl procs) args) as [outs|] eqn:Houts;
    simpl; [|discriminate].
  apply forRanks_Forall2 in Houts.
  assert (Hsend : Forall (sendable procs) args).
  { eapply Forall2_Forall_l; [exact Houts|].
    intros arg out H. now apply doPartition_local_inv in H. }
  assert (Hout : outs = map (outgoingOf procs) args).
  { apply Forall2_map_eq. eapply Forall2_impl; [|exact Houts].
    intros arg out H. now apply doPartition_local_inv in H. }
  subst outs. rewrite !map_map. simpl.
  set (a2a := mkAllToAllV (map (fun arg => map (@length nat) (chunksOf procs arg)) args)).
  replace (map (fun x => map (fun i => nth i (elems_ (fst x)) []) (enumerationOf (snd x))) args)
    with (map (map fst) (map packed args)).
  2:{ rewrite map_map. apply map_ext. intros arg. unfold packed. rewrite map_map.
      reflexivity. }
  rewrite exchange_map.
  destruct (exchange a2a (map packed args)) as [X|] eqn:HX; simpl; [|discriminate].
  destruct (agreed (map (fun x => hasElementData (fst x)) args)) as [hd|] eqn:Hag;
    simpl; [|discriminate].
  intros H. exists X, hd. split; [exact Hsend|]. split; [reflexivity|]. split; [reflexivity|].
  destruct hd.
  - unfold redistributed in H.
    replace (map (fun '(lids, dat) => map (fun i => nth i dat unsetRow) lids)
                 (combine (map (fun x => enumerationOf (snd x)) args)
                          (map (fun x => theElementData (fst x)) args)))
      with (map (map getRow) (map packed args)) in H.
    2:{ rewrite (map_combine_maps (fun x : Mesh * list Z => enumerationOf (snd x))
                                  (fun x : Mesh * list Z => theElementData (fst x))
                                  (fun lids dat => map (fun i => nth i dat unsetRow) lids)).
        rewrite map_map. apply map_ext. intros arg. unfold packed. rewrite map_map.
        apply map_ext. intros i. apply getRow_rowAt. }
    rewrite exchange_map, HX in H. simpl in H. inversion H.
    rewrite map_map.
    rewrite (combine_maps (map fst) (fun x => Some (map getRow x))).
    rewrite map_map. apply map_ext. now intros [m x].
  - simpl in H. inversion H.
    replace (map (fun _ : Mesh * list Z => @None (MeshData Row)) args)
      with (map (fun _ : Mesh => @None (MeshData Row)) (map fst args))
      by now rewrite map_map.
    rewrite (combine_const (map fst) (@None (MeshData Row))).
    rewrite map_map. apply map_ext. now intros [m x].
Qed.

Lemma Permutation_concat_map (A B : Type) (f g : A -> list B) (l : list A) :
  (forall x, In x l -> Permutation (f x) (g x)) ->
  Permutation (concat (map f l)) (concat (map g l)).
Proof.
  induction l as [|x l IH]; intros H; simpl; [reflexivity|].
  apply Permutation_app; [apply H; now left|].
  apply IH. intros y Hy. apply H. now right.
Qed.

Lemma combine_snd_map (A B C : Type) (f : A * B -> C) (g : B -> C) (l : list A) (X : list B) :
  length X = length l -> (forall m x, f (m, x) = g x) ->
  map f (combine l X) = map g X.
Proof.
  intros Hlen Hf.
  transitivity (map g (map snd (combine l X))); [|now rewrite combine_snd_all].
  rewrite map_map. apply map_ext. intros [m x]. apply Hf.
Qed.

Lemma rows_with_elems (m : Mesh) (x : list (Simplex * option Row)) (hd : bool) :
  rows (with_elems m (map fst x, if hd then Some (map getRow x) else None)) =
  map (retag hd) x.
Proof.
  unfold rows, numElements. simpl. rewrite length_map.
  transitivity (map (retag hd) (map (fun r => nth r x ([], None)) (seq 0 (length x))));
    [|now rewrite map_nth_seq].
  rewrite map_map.
  apply map_ext. intros i. unfold rowAt, retag. simpl.
  change (@nil N) with (fst (@nil N, @None Row)). rewrite map_nth. f_equal.
  destruct hd; [|reflexivity]. f_equal.
  change unsetRow with (getRow (@nil N, @None Row)) at 1. now rewrite map_nth.
Qed.

Lemma packed_perm (procs : nat) (arg : Mesh * list Z) :
  sendable procs arg -> Permutation (packed arg) (rows (fst arg)).
Proof.
  intros [E _]. unfold packed, rows. rewrite <- E.
  apply Permutation_map, enumerationOf_perm.
Qed.

(** [doPartition] moves the elements, each with its row, and neither
    loses nor repeats one. *)
Lemma doPartition_rows (args : list (Mesh * list Z)) (w' : World Row) :
  doPartition unsetRow stl args = Some w' ->
  Permutation (concat (map rows w')) (concat (map rows (map fst args))).
Proof.
  intros H. apply doPartition_inv in H.
  destruct H as (X & hd & Hsend & HX & Hag & ->).
  assert (Hlen : length X = length (map fst args)).
  { rewrite (length_exchange _ _ HX), length_mkAllToAllV, !length_map. reflexivity. }
  rewrite map_map.
  rewrite (@combine_snd_map _ _ _
             (fun mx : Mesh * list (Simplex * option Row) =>
                rows (let '(m, x) := mx in
                      with_elems m (map fst x, if hd then Some (map getRow x) else None)))
             (map (retag hd)) (map fst args) X Hlen)
    by (intros m x; apply rows_with_elems).
  rewrite <- concat_map.
  rewrite map_map.
  transitivity (map (retag hd) (concat (map packed args))).
  { apply Permutation_map, (exchange_perm _ _ HX). }
  transitivity (concat (map packed args)).
  - apply perm_eq. rewrite concat_map, map_map. f_equal.
    apply map_ext_in. intros [m partition] Hin. unfold packed. rewrite map_map. simpl.
    apply map_ext. intros i.
    rewrite <- (agreed_all _ Hag (hasElementData m)); [apply retag_rowAt|].
    apply in_map, (in_map fst _ _ Hin).
  - apply Permutation_concat_map. intros arg Hin.
    rewrite Forall_forall in Hsend. exact (packed_perm (Hsend _ Hin)).
Qed.

Lemma length_doPartition (args : list (Mesh * list Z)) (w' : World Row) :
  doPartition unsetRow stl args = Some w' -> length w' = length args.
Proof.
  intros H. apply doPartition_inv in H.
  destruct H as (X & hd & Hsend & HX & Hag & ->).
  rewrite length_map, length_combine, (length_exchange _ _ HX), length_mkAllToAllV, !length_map.
  apply Nat.min_id.
Qed.

Lemma nth_error_combine (A B : Type) (l : list A) (l' : list B) (r : nat) (a : A) (b : B) :
  nth_error (combine l l') r = Some (a, b) ->
  nth_error l r = Some a /\ nth_error l' r = Some b.
Proof.
  revert l l'. induction r as [|r IH]; intros [|x l] [|y l'] H; simpl in *;
    try discriminate.
  - inversion H. now split.
  - now apply IH.
Qed.

Lemma segment_packed (procs : nat) (arg : Mesh * list Z) (r : nat) :
  sendable procs arg ->
  segment (map (@length nat) (chunksOf procs arg)) (packed arg) r =
  map (rowAt (fst arg)) (nth r (chunksOf procs arg) []).
Proof.
  intros Hs. unfold packed. rewrite <- (chunksOf_concat Hs), concat_map.
  replace (map (@length nat) (chunksOf procs arg))
    with (map (@length (Simplex * option Row))
              (map (map (rowAt (fst arg))) (chunksOf procs arg))).
  2:{ rewrite map_map. apply map_ext. intros ch. apply length_map. }
  rewrite segment_chunks.
  change (@nil (Simplex * option Row)) with (map (rowAt (fst arg)) []).
  apply map_nth.
Qed.

Lemma nth_nonneg (partition : list Z) (i : nat) :
  Forall (fun t => (0 <= t)%Z) partition -> (0 <= nth i partition 0)%Z.
Proof.
  intros H. destruct (nth_in_or_default i partition 0%Z) as [Hin| ->]; [|lia].
  rewrite Forall_forall in H. now apply H.
Qed.

(** Where [doPartition] puts an element: on the rank its partition
    entry names. *)
Lemma doPartition_dest (args : list (Mesh * list Z)) (w' : World Row)
      (r : nat) (m' : Mesh) (e : Simplex) :
  doPartition unsetRow stl args = Some w' ->
  Forall (fun arg => Forall (fun t => (0 <= t)%Z) (snd arg)) args ->
  nth_error w' r = Some m' -> In e (elems_ m') ->
  exists (m : Mesh) (partition : list Z) (i : nat),
    In (m, partition) args /\ i < numElements m /\
    e = nth i (elems_ m) [] /\ nth i partition 0%Z = Z.of_nat r.
Proof.
  intros H Hpos Hr He. apply doPartition_inv in H.
  destruct H as (X & hd & Hsend & HX & Hag & ->).
  rewrite nth_error_map in Hr.
  destruct (nth_error (combine (map fst args) X) r) as [[m0 x]|] eqn:Hc; [|discriminate].
  simpl in Hr. inversion Hr; subst m'. clear Hr. simpl in He.
  apply nth_error_combine in Hc. destruct Hc as [_ Hx].
  apply (nth_error_nth _ _ []) in Hx. subst x.
  apply in_map_iff in He. destruct He as (p & <- & Hp).
  eapply exchange_In in Hp; [|exact HX]. destruct Hp as (q & Hq & Hseg).
  rewrite length_mkAllToAllV, length_map in Hq.
  destruct (nth_error args q) as [[m partition]|] eqn:Harg.
  2:{ apply nth_error_None in Harg. lia. }
  rewrite nth_mkAllToAllV in Hseg by now rewrite length_map.
  simpl in Hseg.
  erewrite (nth_error_nth (map _ args)) in Hseg by (apply map_nth_error; exact Harg).
  erewrite (nth_error_nth (map packed args)) in Hseg by (apply map_nth_error; exact Harg).
  assert (Hin : In (m, partition) args) by (eapply nth_error_In; exact Harg).
  rewrite Forall_forall in Hsend, Hpos.
  pose proof (Hsend _ Hin) as Hs. pose proof (Hpos _ Hin) as Hp0. simpl in Hp0.
  rewrite segment_packed in Hseg by exact Hs. simpl in Hseg.
  apply in_map_iff in Hseg. destruct Hseg as (i & <- & Hi).
  exists m, partition, i. split; [exact Hin|].
  assert (Hi' : In i (enumerationOf partition)).
  { change partition with (snd (m, partition)).
    rewrite <- (chunksOf_concat Hs). apply in_concat.
    exists (nth r (chunksOf (length args) (m, partition)) []). split; [|exact Hi].
    apply nth_In.
    destruct (Nat.lt_ge_cases r (length (chunksOf (length args) (m, partition))))
      as [Hlt|Hge]; [exact Hlt|].
    rewrite nth_overflow in Hi by exact Hge. contradiction. }
  split.
  - destruct Hs as [E _]. simpl in E. rewrite <- E.
    eapply Permutation_in in Hi'; [|apply enumerationOf_perm].
    apply in_seq in Hi'. lia.
  - split; [reflexivity|].
    unfold chunksOf in Hi. simpl in Hi.
    change (Z.of_nat r) with (Z.of_nat (0 + r)).
    eapply sendChunks_target; [apply enumerationOf_sorted| |exact Hi].
    intros e He. simpl. now apply nth_nonneg.
Qed.

(** The exchange of anything that is sent in the order of the
    enumeration goes through. *)
Lemma exchange_outgoing (T : Type) (h : Mesh * list Z -> nat -> T)
      (args : list (Mesh * list Z)) :
  Forall (sendable (length args)) args ->
  exchange (mkAllToAllV (map (fun arg => map (@length nat) (chunksOf (length args) arg)) args))
           (map (fun arg => map (h arg) (enumerationOf (snd arg))) args)
  = Some (map (@concat T)
              (transpose [] (map (fun arg => map (map (h arg)) (chunksOf (length args) arg))
                                 args))).
Proof.
  intros Hsend.
  set (M := map (fun arg => map (map (h arg)) (chunksOf (length args) arg)) args).
  replace (map (fun arg => map (@length nat) (chunksOf (length args) arg)) args)
    with (map (map (@length T)) M).
  2:{ unfold M. rewrite map_map. apply map_ext. intros arg. rewrite map_map.
      apply map_ext. intros ch. apply length_map. }
  replace (map (fun arg => map (h arg) (enumerationOf (snd arg))) args)
    with (map (@concat T) M).
  2:{ unfold M. rewrite map_map. apply map_ext_in. intros arg Hin.
      rewrite Forall_forall in Hsend.
      now rewrite <- concat_map, (chunksOf_concat (Hsend _ Hin)). }
  apply exchange_mk. unfold square, M. rewrite length_map. apply Forall_map.
  apply Forall_forall. intros arg _. unfold chunksOf.
  now rewrite length_map, length_sendChunks, length_seq.
Qed.

(** A partition vector as the partitioner promises it: one target per
    element, each a rank. *)
Definition valid_partition (procs : nat) (arg : Mesh * list Z) : Prop :=
  length (snd arg) = numElements (fst arg) /\
  Forall (fun t => (0 <= t < Z.of_nat procs)%Z) (snd arg).

Lemma valid_sendable (procs : nat) (arg : Mesh * list Z) :
  0 < procs -> valid_partition procs arg -> sendable procs arg.
Proof.
  intros Hp [E V]. split; [exact E|].
  destruct procs as [|k]; [lia|].
  apply sendRest_nil. intros e _. simpl.
  destruct (nth_in_or_default e (snd arg) 0%Z) as [Hin|Hd].
  - rewrite Forall_forall in V. specialize (V _ Hin). lia.
  - rewrite Hd. lia.
Qed.

Lemma doPartition_returns (args : list (Mesh * list Z)) :
  Forall (valid_partition (length args)) args ->
  agreed (map hasElementData (map fst args)) <> None ->
  exists w', doPartition unsetRow stl args = Some w'.
Proof.
  intros Hv Hag.
  assert (Hsend : Forall (sendable (length args)) args).
  { destruct args as [|a l]; [constructor|].
    eapply Forall_impl; [|exact Hv]. intros arg. apply valid_sendable. simpl. lia. }
  clear Hv. destruct args as [|a0 args'] eqn:Eargs.
  { eexists. reflexivity. }
  rewrite <- Eargs in *. clear Eargs a0 args'.
  unfold doPartition.
  rewrite (forRanks_map _ (outgoingOf (length args))).
  2:{ intros arg Hin. rewrite Forall_forall in Hsend.
      now apply doPartition_local_sendable, Hsend. }
  simpl. rewrite !map_map. simpl.
  rewrite (exchange_outgoing (fun arg i => nth i (elems_ (fst arg)) []) Hsend). simpl.
  destruct (agreed (map (fun x => hasElementData (fst x)) args)) as [hd|] eqn:E.
  2:{ exfalso. apply Hag. now rewrite map_map. }
  simpl. destruct hd; simpl; [|eexists; reflexivity].
  unfold redistributed.
  rewrite (map_combine_maps (fun x : Mesh * list Z => enumerationOf (snd x))
                            (fun x : Mesh * list Z => theElementData (fst x))
                            (fun lids dat => map (fun i => nth i dat unsetRow) lids)).
  rewrite (exchange_outgoing (fun arg i => nth i (theElementData (fst arg)) unsetRow) Hsend).
  simpl. eexists. reflexivity.
Qed.

Lemma fst_combine_all (A B : Type) (l : list A) (l' : list B) :
  length l = length l' -> map fst (combine l l') = l.
Proof.
  revert l'. induction l as [|x l IH]; intros [|y l'] H; simpl in *; try discriminate;
    [reflexivity|]. f_equal. apply IH. lia.
Qed.

Lemma rows_set_flag (b : bool) (m : Mesh) : rows (set_flag b m) = rows m.
Proof. reflexivity. Qed.

(** *** repartition *)

Definition allRows (w : World Row) : list (Simplex * option Row) :=
  concat (map rows w).

(** The contract of the external partitioner, and of the caller who
    attached element data on every rank or on none. *)
Definition partitioner_ok (metis : nat -> list Z) (w : World Row) : Prop :=
  forall r m, nth_error w r = Some m -> valid_partition (length w) (m, metis r).

Definition data_uniform (w : World Row) : Prop :=
  agreed (map hasElementData w) <> None.

Lemma Forall_combine_seq (A B : Type) (P : A * B -> Prop) (f : nat -> B) (l : list A) :
  (forall r m, nth_error l r = Some m -> P (m, f r)) ->
  Forall P (combine l (map f (seq 0 (length l)))).
Proof.
  intros H. apply Forall_forall. intros [m y] Hin.
  apply In_nth_error in Hin. destruct Hin as [r Hr].
  apply nth_error_combine in Hr. destruct Hr as [Hm Hy].
  rewrite nth_error_map in Hy.
  destruct (nth_error (seq 0 (length l)) r) as [k|] eqn:Hk; [|discriminate].
  assert (Hr : r < length (seq 0 (length l))) by (apply nth_error_Some; congruence).
  rewrite length_seq in Hr.
  apply (nth_error_nth _ _ 0) in Hk. rewrite seq_nth in Hk by lia.
  simpl in Hk, Hy. inversion Hy; subst. now apply H.
Qed.

(** C5. [repartition()] preserves the global multiset of elements
    with their data rows: when the partitioner keeps its contract,
    the call returns and the elements of all ranks, each paired with
    the row attached to it, are afterwards a permutation of what they
    were before; none is lost and none is duplicated. *)
Theorem repartition_preserves_rows (metis : nat -> list Z) (w : World Row) :
  partitioner_ok metis w -> data_uniform w ->
  exists w', repartition unsetRow stl metis w = Some w' /\
             Permutation (allRows w') (allRows w).
Proof.
  intros Hok Hdu. unfold repartition.
  set (args := combine w (map metis (seq 0 (length w)))).
  assert (Hlen : length args = length w).
  { unfold args. rewrite length_combine, length_map, length_seq. apply Nat.min_id. }
  assert (Hfst : map fst args = w).
  { unfold args. apply fst_combine_all. now rewrite length_map, length_seq. }
  destruct (@doPartition_returns args) as [w'' Hw''].
  - rewrite Hlen. unfold args. now apply Forall_combine_seq.
  - now rewrite Hfst.
  - rewrite Hw''. simpl. eexists. split; [reflexivity|].
    unfold allRows. rewrite map_map.
    rewrite (map_ext _ rows) by (intros m; apply rows_set_flag).
    pose proof (@doPartition_rows args w'' Hw'') as Hp.
    now rewrite Hfst in Hp.
Qed.





(** *** repartitionByHash *)

Variable SimplexHash : Simplex -> N.
Variable D : nat.

(** Every element is on the rank its hash names. *)
Definition hash_partitioned (w : World Row) : Prop :=
  forall r m e, nth_error w r = Some m -> In e (elems_ m) ->
                N.to_nat (SimplexHash e mod N.of_nat (length w)) = r.

(** The distributed objects a program can hold: constructed (the flag
    is cleared, element data is attached on every rank or on none),
    then repartitioned any number of times. *)
Inductive reachable : World Row -> Prop :=
| reach_constructed : forall w,
    Forall (fun m => isPartitionedByHash m = false) w -> data_uniform w -> reachable w
| reach_repartition : forall metis w w',
    reachable w -> repartition unsetRow stl metis w = Some w' -> reachable w'
| reach_byHash : forall w w',
    reachable w -> repartitionByHash unsetRow SimplexHash stl D w = Some w' -> reachable w'.

Lemma agreed_const (bs : list bool) (b : bool) :
  (forall x, In x bs -> x = b) -> agreed bs <> None.
Proof.
  intros H. unfold agreed.
  destruct (forallb (fun x => x) bs) eqn:E1; [discriminate|].
  destruct (forallb negb bs) eqn:E2; [discriminate|].
  exfalso. destruct b.
  - rewrite <- not_true_iff_false in E1. apply E1. apply forallb_forall. exact H.
  - rewrite <- not_true_iff_false in E2. apply E2. apply forallb_forall.
    intros x Hx. now rewrite (H x Hx).
Qed.

Lemma agreed_true_of_false (bs : list bool) :
  (forall x, In x bs -> x = false) -> agreed bs = Some true -> bs = [].
Proof.
  intros H. destruct bs as [|b bs]; [reflexivity|].
  rewrite (H b) by now left. unfold agreed. simpl.
  destruct (forallb negb bs); discriminate.
Qed.

Lemma agreed_all_true (bs : list bool) :
  (forall x, In x bs -> x = true) -> agreed bs = Some true.
Proof.
  intros H. unfold agreed.
  replace (forallb (fun b => b) bs) with true; [reflexivity|].
  symmetry. apply forallb_forall. exact H.
Qed.

Lemma doPartition_data_uniform (args : list (Mesh * list Z)) (w' : World Row) :
  doPartition unsetRow stl args = Some w' -> data_uniform w'.
Proof.
  intros H. apply doPartition_inv in H.
  destruct H as (X & hd & _ & _ & _ & ->).
  apply (@agreed_const _ hd). intros x Hx.
  apply in_map_iff in Hx. destruct Hx as (m' & <- & Hm').
  apply in_map_iff in Hm'. destruct Hm' as ([m x] & <- & _).
  unfold hasElementData. simpl. now destruct hd.
Qed.

Lemma data_uniform_set_flag (b : bool) (w : World Row) :
  data_uniform w -> data_uniform (map (set_flag b) w).
Proof. unfold data_uniform. now rewrite map_map. Qed.

Definition hashTargets (procs : nat) (m : Mesh) : Mesh * list Z :=
  (m, map (fun e => Z.of_nat (getPlex2Rank SimplexHash D procs m e)) (elems_ m)).

Lemma hashTargets_valid (procs : nat) (m : Mesh) :
  0 < D -> 0 < procs -> valid_partition procs (hashTargets procs m).
Proof.
  intros HD Hp. split; simpl; [apply length_map|].
  apply Forall_map, Forall_forall. intros e _.
  unfold getPlex2Rank. destruct D as [|d]; [lia|].
  assert (Hlt : (SimplexHash e mod N.of_nat procs < N.of_nat procs)%N)
    by (apply N.mod_lt; lia).
  revert Hlt. generalize (SimplexHash e mod N.of_nat procs)%N. intros x Hlt. lia.
Qed.

Lemma doPartition_hash_partitioned (w w' : World Row) :
  0 < D ->
  doPartition unsetRow stl (map (hashTargets (length w)) w) = Some w' ->
  hash_partitioned w'.
Proof.
  intros HD H r m' e Hr He.
  rewrite (length_doPartition _ H), length_map.
  eapply doPartition_dest in He; [| exact H | | exact Hr].
  - destruct He as (m & partition & i & Hin & Hi & -> & Ht).
    apply in_map_iff in Hin. destruct Hin as (m0 & E & _).
    unfold hashTargets in E. inversion E; subst m0 partition. clear E.
    rewrite nth_map_lt with (d' := @nil N) in Ht by exact Hi.
    unfold getPlex2Rank in Ht. destruct D as [|d]; [lia|]. now apply Nat2Z.inj in Ht.
  - apply Forall_map, Forall_forall. intros m _. simpl.
    apply Forall_map, Forall_forall. intros e0 _. lia.
Qed.

(** What a call of [repartitionByHash] needs and gives. *)
Lemma repartitionByHash_spec (w : World Row) :
  0 < D -> data_uniform w ->
  agreed (map isPartitionedByHash w) <> None ->
  (agreed (map isPartitionedByHash w) = Some true -> hash_partitioned w) ->
  exists w', repartitionByHash unsetRow SimplexHash stl D w = Some w' /\
             hash_partitioned w' /\ data_uniform w' /\
             (forall m, In m w' -> isPartitionedByHash m = true).
Proof.
  intros HD Hdu Hfl Hinv. unfold repartitionByHash.
  destruct (agreed (map isPartitionedByHash w)) as [[|]|] eqn:Hag; [| |congruence]; simpl.
  - exists w. repeat split; auto.
    intros m Hm. apply (agreed_all _ Hag). now apply in_map.
  - fold (hashTargets (length w)).
    destruct (@doPartition_returns (map (hashTargets (length w)) w)) as [w'' Hw''].
    + rewrite length_map. apply Forall_map, Forall_forall. intros m Hm.
      apply hashTargets_valid; [exact HD|]. destruct w; [contradiction|simpl; lia].
    + rewrite !map_map. simpl. exact Hdu.
    + rewrite Hw''. simpl. eexists. split; [reflexivity|]. split; [|split].
      * intros r m e Hr He. rewrite length_map.
        rewrite nth_error_map in Hr.
        destruct (nth_error w'' r) as [m''|] eqn:Hr''; [|discriminate].
        inversion Hr; subst m. simpl in He.
        exact (@doPartition_hash_partitioned w w'' HD Hw'' r m'' e Hr'' He).
      * apply data_uniform_set_flag. eapply doPartition_data_uniform. exact Hw''.
      * intros m Hm. apply in_map_iff in Hm. now destruct Hm as (m'' & <- & _).
Qed.

Lemma hash_partitioned_nil : hash_partitioned [].
Proof. intros r m e Hr. destruct r; discriminate. Qed.

Lemma flags_cleared (w : World Row) :
  (forall m, In m w -> isPartitionedByHash m = false) ->
  agreed (map isPartitionedByHash w) <> None /\
  (agreed (map isPartitionedByHash w) = Some true -> hash_partitioned w).
Proof.
  intros H.
  assert (H' : forall x, In x (map isPartitionedByHash w) -> x = false).
  { intros x Hx. apply in_map_iff in Hx. destruct Hx as (m & <- & Hm). now apply H. }
  split; [eapply agreed_const; exact H'|].
  intros Hag. apply agreed_true_of_false in Hag; [|exact H'].
  apply map_eq_nil in Hag. subst w. apply hash_partitioned_nil.
Qed.

(** The class invariant: the flag is the same on every rank, and a
    set flag tells the truth. *)
Lemma reachable_inv (w : World Row) :
  0 < D -> reachable w ->
  data_uniform w /\
  agreed (map isPartitionedByHash w) <> None /\
  (agreed (map isPartitionedByHash w) = Some true -> hash_partitioned w).
Proof.
  intros HD H. induction H as [w Hfl Hdu|metis w w' _ IH Hrep|w w' _ IH Hrep].
  - split; [exact Hdu|]. apply flags_cleared. rewrite Forall_forall in Hfl. exact Hfl.
  - unfold repartition in Hrep.
    destruct (doPartition unsetRow stl (combine w (map metis (seq 0 (length w)))))
      as [w''|] eqn:Hw''; [|discriminate].
    simpl in Hrep. inversion Hrep; subst w'. split.
    + apply data_uniform_set_flag. eapply doPartition_data_uniform. exact Hw''.
    + apply flags_cleared. intros m Hm. apply in_map_iff in Hm.
      now destruct Hm as (m' & <- & _).
  - destruct IH as (Hdu & Hfl & Hinv).
    destruct (repartitionByHash_spec HD Hdu Hfl Hinv) as (w1 & Hw1 & Hhp & Hdu1 & Hfl1).
    rewrite Hrep in Hw1. inversion Hw1; subst w1.
    assert (Hag : agreed (map isPartitionedByHash w') = Some true).
    { apply agreed_all_true. intros x Hx. apply in_map_iff in Hx.
      destruct Hx as (m & <- & Hm). now apply Hfl1. }
    split; [exact Hdu1|]. split; [congruence|]. intros _. exact Hhp.
Qed.

(** C3. After [repartitionByHash()] returns, every element in the
    local element array of every rank has [SimplexHash<D>(e) mod
    procs] equal to that rank (and on every object a program can
    hold, the call does return). *)
Theorem repartitionByHash_owner (w : World Row) :
  0 < D -> reachable w ->
  exists w', repartitionByHash unsetRow SimplexHash stl D w = Some w' /\
             hash_partitioned w'.
Proof.
  intros HD H. destruct (reachable_inv HD H) as (Hdu & Hfl & Hinv).
  destruct (repartitionByHash_spec HD Hdu Hfl Hinv) as (w' & Hw' & Hhp & _).
  exists w'. now split.
Qed.

(** C4. [repartitionByHash] is idempotent: a second call finds the
    flag set and is a no-op, so two calls in a row leave the mesh as
    one call does. *)
Theorem repartitionByHash_idempotent (w : World Row) :
  (w' <- repartitionByHash unsetRow SimplexHash stl D w ;;
   repartitionByHash unsetRow SimplexHash stl D w')
  = repartitionByHash unsetRow SimplexHash stl D w.
Proof.
  destruct (repartitionByHash unsetRow SimplexHash stl D w) as [w'|] eqn:E;
    simpl; [|reflexivity].
  unfold repartitionByHash in E.
  destruct (agreed (map isPartitionedByHash w)) as [[|]|] eqn:Hag; simpl in E;
    try discriminate.
  - inversion E; subst w'. unfold repartitionByHash. now rewrite Hag.
  - destruct (doPartition unsetRow stl _) as [w''|]; simpl in E; [|discriminate].
    inversion E; subst w'.
    unfold repartitionByHash.
    rewrite agreed_all_true; [reflexivity|].
    intros x Hx. rewrite map_map in Hx. apply in_map_iff in Hx.
    now destruct Hx as (m & <- & _).
Qed.

End PartitionFacts.

(** ** The canonical order of simplices *)

Lemma simplex_ltb_irrefl (a : Simplex) : simplex_ltb a a = false.
Proof.
  induction a as [|x a IH]; simpl; [reflexivity|].
  now rewrite N.ltb_irrefl, N.eqb_refl, IH.
Qed.

Lemma simplex_ltb_cons (x y : N) (a b : Simplex) :
  simplex_ltb (x :: a) (y :: b) = true <->
  (x < y)%N \/ (x = y /\ simplex_ltb a b = true).
Proof.
  simpl. rewrite orb_true_iff, andb_true_iff, N.ltb_lt, N.eqb_eq. reflexivity.
Qed.

Lemma simplex_ltb_cons_false (x y : N) (a b : Simplex) :
  simplex_ltb (x :: a) (y :: b) = false <->
  (y < x)%N \/ (x = y /\ simplex_ltb a b = false).
Proof.
  simpl. rewrite orb_false_iff, andb_false_iff, N.ltb_ge, N.eqb_neq.
  split.
  - intros [H1 [H2|H2]]; [left; lia|].
    destruct (N.eq_dec x y) as [E|E]; [right; now split|left; lia].
  - intros [H|[-> H]].
    + split; [lia|left; lia].
    + split; [lia|now right].
Qed.

Lemma simplex_ltb_trans (a b c : Simplex) :
  simplex_ltb a b = true -> simplex_ltb b c = true -> simplex_ltb a c = true.
Proof.
  revert b c. induction a as [|x a IH]; intros [|y b] [|z c] H1 H2;
    try discriminate; try reflexivity.
  apply simplex_ltb_cons in H1, H2. apply simplex_ltb_cons.
  destruct H1 as [H1|[-> H1]], H2 as [H2|[-> H2]]; try (left; lia).
  right. split; [reflexivity|]. eapply IH; eassumption.
Qed.

Lemma simplex_ltb_negtrans (a b c : Simplex) :
  simplex_ltb a b = false -> simplex_ltb b c = false -> simplex_ltb a c = false.
Proof.
  revert b c. induction a as [|x a IH]; intros [|y b] [|z c] H1 H2;
    try discriminate; try reflexivity.
  apply simplex_ltb_cons_false in H1, H2. apply simplex_ltb_cons_false.
  destruct H1 as [H1|[-> H1]], H2 as [H2|[-> H2]]; try (left; lia).
  right. split; [reflexivity|]. eapply IH; eassumption.
Qed.

Lemma simplex_ltb_swo : StrictWeakOrder simplex_ltb.
Proof.
  constructor.
  - apply simplex_ltb_irrefl.
  - apply simplex_ltb_trans.
  - apply simplex_ltb_negtrans.
Qed.

(** The order is total: simplices that are not ordered are equal. *)
Lemma simplex_ltb_total (a b : Simplex) :
  simplex_ltb a b = false -> simplex_ltb b a = false -> a = b.
Proof.
  revert b. induction a as [|x a IH]; intros [|y b] H1 H2; try discriminate;
    [reflexivity|].
  apply simplex_ltb_cons_false in H1, H2.
  destruct H1 as [H1|[-> H1]], H2 as [H2|[E H2]]; try lia.
  f_equal. now apply IH.
Qed.

Lemma simplex_eqb_eq (a b : Simplex) : simplex_eqb a b = true <-> a = b.
Proof.
  unfold simplex_eqb. destruct (list_eq_dec N.eq_dec a b); split; congruence.
Qed.

Lemma simplex_eqb_refl (a : Simplex) : simplex_eqb a a = true.
Proof. now apply simplex_eqb_eq. Qed.

Definition strictly_sorted : list Simplex -> Prop :=
  StronglySorted (fun a b => simplex_ltb a b = true).

Lemma unique_head (x : Simplex) (l : list Simplex) :
  exists t, unique (x :: l) = x :: t.
Proof.
  revert x. induction l as [|y l IH]; intros x; [now exists []|].
  simpl. destruct (simplex_eqb x y) eqn:E.
  - apply simplex_eqb_eq in E. subst y. apply IH.
  - eexists. reflexivity.
Qed.

(** Sorting and [std::unique] leave a strictly increasing batch. *)
Lemma unique_sorted (l : list Simplex) :
  sorted_by simplex_ltb l -> strictly_sorted (unique l).
Proof.
  intros HS. apply Sorted_StronglySorted.
  { intros a b c. apply simplex_ltb_trans. }
  unfold sorted_by in HS. induction HS as [|x l HS IH F]; [constructor|].
  destruct l as [|y l]; [repeat constructor|].
  change (unique (x :: y :: l))
    with (if simplex_eqb x y then unique (y :: l) else x :: unique (y :: l)).
  destruct (simplex_eqb x y) eqn:E; [exact IH|].
  constructor; [exact IH|].
  destruct (unique_head y l) as [t ->]. constructor.
  inversion F as [|? ? Hyx _]; subst.
  destruct (simplex_ltb x y) eqn:Hxy; [reflexivity|].
  exfalso. rewrite <- not_true_iff_false in E. apply E, simplex_eqb_eq.
  now apply simplex_ltb_total.
Qed.

(** ** Facts about ghost growth *)

Ltac bind_inv H :=
  match type of H with
  | bind ?x _ = Some _ =>
      let E := fresh "E" in
      destruct x eqn:E; simpl in H; [|discriminate]
  end.

Lemma length_forRanks (A B : Type) (f : A -> option B) (l : list A) (r : list B) :
  forRanks f l = Some r -> length r = length l.
Proof.
  intros H. apply forRanks_Forall2 in H. symmetry. eapply Forall2_length. exact H.
Qed.

Lemma Forall2_nth_error_r (A B : Type) (R : A -> B -> Prop) (l : list A) (l' : list B)
      (i : nat) (y : B) :
  Forall2 R l l' -> nth_error l' i = Some y ->
  exists x, nth_error l i = Some x /\ R x y.
Proof.
  intros H. revert i. induction H as [|a b l l' Hab _ IH]; intros i Hi.
  - destruct i; discriminate.
  - destruct i as [|i]; simpl in *.
    + inversion Hi; subst. now exists a.
    + now apply IH.
Qed.

Lemma nth_error_forRanks (A B : Type) (f : A -> option B) (l : list A) (r : list B)
      (i : nat) (y : B) :
  forRanks f l = Some r -> nth_error r i = Some y ->
  exists x, nth_error l i = Some x /\ f x = Some y.
Proof.
  intros H Hi. apply forRanks_Forall2 in H.
  exact (@Forall2_nth_error_r _ _ (fun x y => f x = Some y) l r i y H Hi).
Qed.

Lemma length_exchange_bufs (A : Type) (a2a : list AllToAllV) (bufs res : list (list A)) :
  exchange a2a bufs = Some res -> length bufs = length a2a.
Proof.
  intros H. apply exchange_inv in H. destruct H as [Hm _].
  now apply matched_inv in Hm.
Qed.

Section GhostFacts.

Variable Row : Type.
Variable SimplexHash : Simplex -> N.
Variable stl : StdLib.
Variable D : nat.

Local Abbreviation Mesh := (GlobalSimplexMesh Row).

Lemma length_deleteDomainBoundaryFaces (w : World Row) (ups : list (list (Simplex * nat)))
      (r : list (list (Simplex * nat) * list Simplex)) :
  deleteDomainBoundaryFaces SimplexHash D w ups = Some r ->
  length ups = length w -> length r = length w.
Proof.
  unfold deleteDomainBoundaryFaces. intros H Hlen.
  bind_inv H. bind_inv H. bind_inv H.
  apply length_forRanks in H, E.
  apply length_exchange in E0, E1.
  rewrite length_map, length_mkAllToAllV, length_map in E1.
  rewrite length_combine in E.
  rewrite H, !length_combine, length_map, E1, E. lia.
Qed.

(** One turn of the loop only appends, to every rank's list, a
    sorted batch without repetitions; the flag stays as it was. *)
Lemma ghostIteration_inv (w : World Row) (st st' : list GhostState) (how : Filtering) :
  ghostIteration SimplexHash stl D w st = Some (st', how) ->
  (length st = length w -> length st' = length w) /\
  (forall r s', nth_error st' r = Some s' ->
     exists s batch,
       nth_error st r = Some s /\
       gs_elems s' = gs_elems s ++ batch /\ strictly_sorted batch /\
       gs_hasDomainBoundaryFaces s' = gs_hasDomainBoundaryFaces s) /\
  (agreed (map gs_hasDomainBoundaryFaces st) = Some false -> how = CountRoundTrip).
Proof.
  unfold ghostIteration. intros H.
  bind_inv H. rename l into ups0. rename E into Hups0.
  bind_inv H. rename b into known. rename E into Hknown.
  bind_inv H. destruct p as [[ups dbfs] how0]. rename E into Hfilter.
  bind_inv H. rename l into sends. rename E into Hsends.
  bind_inv H. rename l into rbf. rename E into Hrbf.
  bind_inv H. rename l into rbe. rename E into Hrbe.
  bind_inv H. rename l into replies. rename E into Hreplies.
  bind_inv H. rename l into received. rename E into Hrecv.
  inversion H; subst st' how0. clear H.
  split; [|split].
  - intros Hlen.
    assert (Hu0 : length ups0 = length w).
    { apply length_forRanks in Hups0. lia. }
    assert (Hu : length ups = length w /\ length dbfs = length w).
    { destruct known.
      - inversion Hfilter; subst.
        rewrite !length_map, length_combine. lia.
      - bind_inv Hfilter. inversion Hfilter; subst.
        rewrite !length_map.
        split; eapply length_deleteDomainBoundaryFaces; eauto. }
    destruct Hu as [Hu Hd].
    apply length_forRanks in Hsends. rewrite length_combine in Hsends.
    apply length_exchange in Hrecv.
    rewrite length_map, length_mkAllToAllV, length_map in Hrecv.
    rewrite length_map, !length_combine. lia.
  - intros r s' Hs'. rewrite nth_error_map in Hs'.
    destruct (nth_error (combine st (combine dbfs received)) r)
      as [[s [dbf be]]|] eqn:Hc; [|discriminate].
    simpl in Hs'. inversion Hs'; subst s'. clear Hs'. simpl.
    apply nth_error_combine in Hc. destruct Hc as [Hs _].
    exists s, (unique (std_sort stl simplex_ltb be)).
    repeat split; [exact Hs|].
    apply unique_sorted, std_sort_sorted, simplex_ltb_swo.
  - intros Hag. assert (Hk : known = false) by congruence. subst known.
    bind_inv Hfilter. now inversion Hfilter.
Qed.

Lemma agreed_all_false (bs : list bool) :
  bs <> [] -> (forall x, In x bs -> x = false) -> agreed bs = Some false.
Proof.
  intros Hne H. destruct bs as [|b bs]; [congruence|].
  unfold agreed. rewrite (H b) by now left. simpl.
  replace (forallb negb bs) with true; [reflexivity|].
  symmetry. apply forallb_forall. intros x Hx. rewrite (H x); [reflexivity|now right].
Qed.

Definition flagsCleared (st : list GhostState) : Prop :=
  forall s, In s st -> gs_hasDomainBoundaryFaces s = false.

Lemma ghostIteration_flagsCleared (w : World Row) (st st' : list GhostState)
      (how : Filtering) :
  ghostIteration SimplexHash stl D w st = Some (st', how) ->
  flagsCleared st -> flagsCleared st'.
Proof.
  intros H Hfl s' Hs'. apply ghostIteration_inv in H. destruct H as (_ & H & _).
  apply In_nth_error in Hs'. destruct Hs' as [r Hr].
  destruct (H _ _ Hr) as (s & batch & Hs & _ & _ & ->).
  apply Hfl. eapply nth_error_In. exact Hs.
Qed.

(** The whole loop: [overlap] batches are appended and nothing else
    changes; the flag, never set, sends every turn on the round trip. *)
Lemma ghostLoop_inv (w : World Row) (overlap : nat) :
  forall (st st' : list GhostState) (hows : list Filtering),
  ghostLoop SimplexHash stl D w overlap st = Some (st', hows) ->
  (length st = length w -> length st' = length w) /\
  (forall r s', nth_error st' r = Some s' ->
     exists s batches,
       nth_error st r = Some s /\ length batches = overlap /\
       gs_elems s' = gs_elems s ++ concat batches /\ Forall strictly_sorted batches) /\
  (st <> [] -> length st = length w -> flagsCleared st ->
   hows = repeat CountRoundTrip overlap).
Proof.
  induction overlap as [|k IH]; intros st st' hows H; simpl in H.
  - inversion H; subst. split; [auto|]. split; [|reflexivity].
    intros r s' Hs'. exists s', []. rewrite app_nil_r. repeat split; auto.
  - bind_inv H. destruct p as [st1 how]. rename E into H1.
    bind_inv H. destruct p as [st2 hows2]. rename E into H2.
    inversion H; subst st' hows. clear H.
    pose proof H1 as H1'. apply ghostIteration_inv in H1'.
    destruct H1' as (L1 & P1 & R1).
    destruct (IH _ _ _ H2) as (L2 & P2 & R2).
    split; [auto|]. split.
    + intros r s' Hs'.
      destruct (P2 _ _ Hs') as (s1 & batches & Hs1 & Hlen & He & Hsorted).
      destruct (P1 _ _ Hs1) as (s & batch & Hs & He1 & Hb & _).
      exists s, (batch :: batches). simpl.
      repeat split; [exact Hs|now rewrite Hlen| |now constructor].
      now rewrite He, He1, app_assoc.
    + intros Hne Hlen Hfl. simpl. f_equal.
      * apply R1. apply agreed_all_false.
        -- destruct st; [congruence|discriminate].
        -- intros x Hx. apply in_map_iff in Hx. destruct Hx as (s & <- & Hs).
           now apply Hfl.
      * apply R2.
        -- specialize (L1 Hlen). destruct st1; [|discriminate].
           destruct st; [congruence|]. simpl in *. lia.
        -- auto.
        -- eapply ghostIteration_flagsCleared; eauto.
Qed.

Lemma nth_error_ghostStart (w : World Row) (r : nat) (s : GhostState) :
  nth_error (map (fun m : Mesh => ghostStart (elems_ m)) w) r = Some s ->
  exists m, nth_error w r = Some m /\ s = ghostStart (elems_ m).
Proof.
  rewrite nth_error_map. destruct (nth_error w r) as [m|]; [|discriminate].
  intros H. inversion H. now exists m.
Qed.

(** What [getGhostElements] returns on a rank: the owned elements,
    then one batch per layer. *)
Lemma getGhostElements_inv (w : World Row) (overlap : nat) (res : list (list Simplex)) :
  getGhostElements SimplexHash stl D w overlap = Some res ->
  length res = length w /\
  forall r m ec, nth_error w r = Some m -> nth_error res r = Some ec ->
    exists batches, length batches = overlap /\
                    ec = elems_ m ++ concat batches /\ Forall strictly_sorted batches.
Proof.
  unfold getGhostElements. intros H. bind_inv H. destruct p as [st hows].
  inversion H; subst res. clear H.
  apply ghostLoop_inv in E. destruct E as (L & P & _).
  split; [rewrite length_map; apply L; apply length_map|].
  intros r m ec Hm Hec. rewrite nth_error_map in Hec.
  destruct (nth_error st r) as [s'|] eqn:Hs'; [|discriminate].
  inversion Hec; subst ec.
  destruct (P _ _ Hs') as (s & batches & Hs & Hlen & He & Hsorted).
  apply nth_error_ghostStart in Hs. destruct Hs as (m0 & Hm0 & ->).
  assert (m0 = m) by congruence. subst m0.
  exists batches. now repeat split.
Qed.

Lemma getGhostElements_0 (w : World Row) :
  getGhostElements SimplexHash stl D w 0 = Some (map elems_ w).
Proof. unfold getGhostElements. simpl. now rewrite map_map. Qed.

Lemma ghostFiltering_inv (w : World Row) (overlap : nat) (hows : list Filtering) :
  w <> [] ->
  ghostFiltering SimplexHash stl D w overlap = Some hows ->
  hows = repeat CountRoundTrip overlap.
Proof.
  unfold ghostFiltering. intros Hne H. bind_inv H. destruct p as [st hows0].
  inversion H; subst hows0. clear H.
  apply ghostLoop_inv in E. destruct E as (_ & _ & R). apply R.
  - destruct w; [congruence|discriminate].
  - apply length_map.
  - intros s Hs. apply in_map_iff in Hs. now destruct Hs as (m & <- & _).
Qed.

(** *** The element entry of the local view *)

(** The offset that the scan of line 198 leaves on rank [r]: the
    number of elements that the ranks below [r] own. *)
Definition gidOffsetOf (w : World Row) (r : nat) : nat :=
  list_sum (firstn r (map (@numElements Row) w)).

Lemma list_sum_firstn_S (l : list nat) (r : nat) :
  list_sum (firstn (S r) l) = list_sum (firstn r l) + nth r l 0.
Proof.
  revert r. induction l as [|x l IH]; intros r.
  - destruct r; reflexivity.
  - destruct r as [|r]; [simpl; lia|].
    assert (Hc : forall a t, list_sum (a :: t) = a + list_sum t) by reflexivity.
    rewrite !firstn_cons, !Hc, IH.
    change (nth (S r) (x :: l) 0) with (nth r l 0). lia.
Qed.

Lemma nth_error_gidOffset (sizes : list nat) (r off : nat) :
  nth_error (map (fun '(scan, own) => scan - own) (combine (MPI_Scan_sum sizes) sizes)) r
  = Some off ->
  off = list_sum (firstn r sizes).
Proof.
  rewrite nth_error_map.
  destruct (nth_error (combine (MPI_Scan_sum sizes) sizes) r) as [[scan own]|] eqn:E;
    [|discriminate].
  intros H. inversion H; subst off. clear H.
  apply nth_error_combine in E. destruct E as [Hscan Hown].
  unfold MPI_Scan_sum in Hscan. rewrite nth_error_map in Hscan.
  destruct (nth_error (seq 0 (length sizes)) r) as [k|] eqn:Hk; [|discriminate].
  assert (Hr : r < length (seq 0 (length sizes))) by (apply nth_error_Some; congruence).
  rewrite length_seq in Hr.
  apply (nth_error_nth _ _ 0) in Hk. rewrite seq_nth in Hk by lia. simpl in Hk. subst k.
  assert (Hs : scan = list_sum (firstn (S r) sizes)) by (cbn [option_map] in Hscan; congruence).
  subst scan.
  apply (nth_error_nth _ _ 0) in Hown. rewrite list_sum_firstn_S, Hown. lia.
Qed.

Lemma getElementFaces_inv (w : World Row) (overlap : nat) (lfs : list LocalFaces) :
  getElementFaces SimplexHash stl D w overlap = Some lfs ->
  length lfs = length w /\
  forall r m lf, nth_error w r = Some m -> nth_error lfs r = Some lf ->
    lf_contiguousGIDs lf = map N.of_nat (seq (gidOffsetOf w r) (numElements m)) /\
    exists batches, length batches = overlap /\
                    lf_faces lf = elems_ m ++ concat batches /\
                    Forall strictly_sorted batches.
Proof.
  unfold getElementFaces. intros H. bind_inv H. rename l into elemsCopy.
  inversion H; subst lfs. clear H.
  apply getGhostElements_inv in E. destruct E as [Hlen P].
  split.
  - rewrite length_map, !length_combine, length_map, length_combine.
    unfold MPI_Scan_sum. rewrite !length_map, length_seq. lia.
  - intros r m lf Hm Hlf. rewrite nth_error_map in Hlf.
    destruct (nth_error (combine elemsCopy _) r) as [[ec [off m0]]|] eqn:Hc;
      [|discriminate].
    inversion Hlf; subst lf. clear Hlf. simpl.
    apply nth_error_combine in Hc. destruct Hc as [Hec Hc].
    apply nth_error_combine in Hc. destruct Hc as [Hoff Hm0].
    assert (m0 = m) by congruence. subst m0.
    apply nth_error_gidOffset in Hoff. subst off.
    split; [reflexivity|]. now apply (P r).
Qed.

(** C10. The element list of the local view starts with the owned
    elements in their order; ghosts are only appended, one sorted
    batch without repetitions per layer; so the ids that [iota]
    gives line up with the owned elements index by index, and without
    overlap the list is the owned sequence itself. *)
Theorem getElementFaces_owned_first (w : World Row) :
  (forall overlap lfs,
     getElementFaces SimplexHash stl D w overlap = Some lfs ->
     length lfs = length w /\
     forall r m lf, nth_error w r = Some m -> nth_error lfs r = Some lf ->
       (exists batches, length batches = overlap /\
                        lf_faces lf = elems_ m ++ concat batches /\
                        Forall strictly_sorted batches) /\
       firstn (numElements m) (lf_faces lf) = elems_ m /\
       (forall i e, nth_error (elems_ m) i = Some e ->
          nth_error (lf_faces lf) i = Some e /\
          nth_error (lf_contiguousGIDs lf) i = Some (N.of_nat (gidOffsetOf w r + i)))) /\
  (exists lfs0, getElementFaces SimplexHash stl D w 0 = Some lfs0 /\
                map lf_faces lfs0 = map (@elems_ Row) w).
Proof.
  split.
  - intros overlap lfs H. apply getElementFaces_inv in H. destruct H as [Hlen P].
    split; [exact Hlen|]. intros r m lf Hm Hlf.
    destruct (P _ _ _ Hm Hlf) as (Hg & batches & Hb & Hf & Hs).
    split; [now exists batches|]. split.
    + rewrite Hf. unfold numElements.
      rewrite firstn_app, firstn_all, Nat.sub_diag. simpl. apply app_nil_r.
    + intros i e Hi.
      assert (Hlt : i < numElements m) by (apply nth_error_Some; congruence).
      split.
      * rewrite Hf, nth_error_app1 by exact Hlt. exact Hi.
      * rewrite Hg, nth_error_map.
        rewrite (nth_error_nth' _ 0) by now rewrite length_seq.
        now rewrite seq_nth.
  - unfold getElementFaces. rewrite getGhostElements_0. simpl.
    eexists. split; [reflexivity|].
    rewrite map_map.
    set (offs := map (fun '(scan, own) => scan - own) _).
    assert (Hlen : length offs = length w).
    { unfold offs, MPI_Scan_sum.
      rewrite length_map, length_combine, !length_map, length_seq. lia. }
    clearbody offs. revert offs Hlen.
    induction w as [|m w' IH]; intros [|o offs] Hlen; simpl in *; try discriminate;
      [reflexivity|].
    f_equal. apply IH. lia.
Qed.



(** C1, as the code has it.  The flag [hasDomainBoundaryFaces] is
    never set, so every turn of the loop goes on the round trip to
    the owners of the faces and none filters locally. *)
Theorem ghostFiltering_always_round_trip (w : World Row) (overlap : nat)
        (hows : list Filtering) :
  w <> [] ->
  ghostFiltering SimplexHash stl D w overlap = Some hows ->
  hows = repeat CountRoundTrip overlap.
Proof. apply ghostFiltering_inv. Qed.

(** The input of C9: no face of dimension [D-1] has more than two
    witnessing elements in the whole mesh. *)
Definition allElements (w : World Row) : list Simplex := concat (map (@elems_ Row) w).

Definition witnesses (w : World Row) (f : Simplex) : list Simplex :=
  filter (fun e => existsb (simplex_eqb f) (downward (D - 1) e)) (allElements w).

Definition manifoldb (w : World Row) : bool :=
  forallb (fun e => forallb (fun f => length (witnesses w f) <=? 2) (downward (D - 1) e))
          (allElements w).

End GhostFacts.

(** ** Replies over the swapped pattern *)

Lemma map_seq_nth (A B : Type) (F : A -> B) (l : list A) (d : A) :
  map F l = map (fun q => F (nth q l d)) (seq 0 (length l)).
Proof.
  rewrite <- (map_map (fun q => nth q l d) F). now rewrite map_nth_seq.
Qed.

Lemma nth_map_seq (A : Type) (f : nat -> A) (n p : nat) (d : A) :
  p < n -> nth p (map f (seq 0 n)) d = f p.
Proof.
  intros H. rewrite nth_map_lt with (d' := 0) by now rewrite length_seq.
  now rewrite seq_nth.
Qed.

(** Every owner answers each item it received with a value of its own
    choice; every requester then holds, for each chunk of its send
    buffer, the answers of the owner the chunk went to. *)
Lemma exchange_reply (A B : Type) (R : list (list (list A))) (g : nat -> A -> B) :
  square R ->
  exchange (map swap (mkAllToAllV (map (map (@length A)) R)))
           (map (fun p => map (g p) (concat (column [] p R))) (seq 0 (length R)))
  = Some (map (fun row => concat (map (fun p => map (g p) (nth p row [])) (seq 0 (length R))))
              R).
Proof.
  intros Sq.
  set (n := length R).
  set (G := map (fun p => map (map (g p)) (column [] p R)) (seq 0 n)).
  replace (map (fun p => map (g p) (concat (column [] p R))) (seq 0 n))
    with (map (@concat B) G).
  2:{ unfold G. rewrite map_map. apply map_ext. intros p. now rewrite concat_map. }
  rewrite exchange_swap with (R := G); [|exact Sq|].
  - f_equal. unfold transpose.
    assert (HG : length G = n) by (unfold G; now rewrite length_map, length_seq).
    rewrite HG, map_map.
    rewrite (map_seq_nth _ R []). fold n.
    apply map_ext_in. intros q Hq. apply in_seq in Hq. f_equal.
    unfold column at 1. unfold G. rewrite map_map.
    apply map_ext_in. intros p Hp. apply in_seq in Hp.
    change (@nil B) with (map (g p) (@nil A)). rewrite map_nth. f_equal.
    apply nth_column. fold n. lia.
  - unfold G, transpose. fold n. rewrite !map_map.
    apply map_ext. intros p. rewrite map_map. apply map_ext. intros ch. apply length_map.
Qed.

(** ** Sets of simplices *)

Lemma ordered_insert_In (s x : Simplex) (l : list Simplex) :
  In x (ordered_insert s l) <-> x = s \/ In x l.
Proof.
  induction l as [|y l IH]; simpl.
  - intuition.
  - destruct (simplex_ltb s y) eqn:E1; simpl; [intuition|].
    destruct (simplex_ltb y s) eqn:E2; simpl.
    + rewrite IH. intuition.
    + rewrite (simplex_ltb_total _ _ E1 E2). intuition.
Qed.

Lemma ordered_insert_sorted (s : Simplex) (l : list Simplex) :
  strictly_sorted l -> strictly_sorted (ordered_insert s l).
Proof.
  unfold strictly_sorted. induction 1 as [|y l HS IH F]; simpl.
  - repeat constructor.
  - destruct (simplex_ltb s y) eqn:E1.
    + constructor; [now constructor|]. constructor; [exact E1|].
      eapply Forall_impl; [|exact F]. intros z Hz. eapply simplex_ltb_trans; eassumption.
    + destruct (simplex_ltb y s) eqn:E2; [|now constructor].
      constructor; [exact IH|].
      apply Forall_forall. intros z Hz. apply ordered_insert_In in Hz.
      destruct Hz as [->|Hz]; [exact E2|].
      rewrite Forall_forall in F. now apply F.
Qed.

Lemma strictly_sorted_NoDup (l : list Simplex) : strictly_sorted l -> NoDup l.
Proof.
  unfold strictly_sorted. induction 1 as [|y l HS IH F]; constructor; [|exact IH].
  intros Hin. rewrite Forall_forall in F. specialize (F _ Hin).
  now rewrite simplex_ltb_irrefl in F.
Qed.

Lemma insertAt_inv (p : nat) (s : Simplex) (sets sets' : list (list Simplex)) :
  insertAt p s sets = Some sets' ->
  p < length sets /\ length sets' = length sets /\
  forall p', nth p' sets' [] =
             if p' =? p then ordered_insert s (nth p' sets []) else nth p' sets [].
Proof.
  revert p sets'. induction sets as [|x sets IH]; intros p sets' H; simpl in H;
    [discriminate|].
  destruct p as [|p]; simpl in H.
  - injection H as <-. simpl. split; [lia|]. split; [reflexivity|].
    intros [|p']; reflexivity.
  - destruct (insertAt p s sets) as [r|] eqn:E; simpl in H; [|discriminate].
    injection H as <-. destruct (IH _ _ E) as (H1 & H2 & H3).
    simpl. split; [lia|]. split; [lia|].
    intros [|p']; [reflexivity|]. simpl. apply H3.
Qed.

Lemma fold_left_None (A : Type) (f : list (list Simplex) -> A -> option (list (list Simplex)))
      (l : list A) :
  fold_left (fun acc s => sets <- acc ;; f sets s) l None = None.
Proof. induction l as [|x l IH]; simpl; [reflexivity|exact IH]. Qed.

Section FaceSets.

Variable Row : Type.
Variable SimplexHash : Simplex -> N.

Local Abbreviation Mesh := (GlobalSimplexMesh Row).

(** The sets that a rank has filled after it went through the faces
    [todo], starting from the sets [acc]. *)
Lemma requiredFaces_fold (DD procs : nat) (m : Mesh) (todo : list Simplex) :
  forall (acc R : list (list Simplex)),
  fold_left (fun acc s => sets <- acc ;;
                          insertAt (getPlex2Rank SimplexHash DD procs m s) s sets)
            todo (Some acc) = Some R ->
  length R = length acc /\
  ((forall p, strictly_sorted (nth p acc [])) -> forall p, strictly_sorted (nth p R [])) /\
  (forall p f, In f (nth p R []) <->
               In f (nth p acc []) \/
               (In f todo /\ getPlex2Rank SimplexHash DD procs m f = p)).
Proof.
  induction todo as [|s todo IH]; intros acc R H; simpl in H.
  - injection H as <-. split; [reflexivity|]. split; [auto|]. intros p f. simpl. tauto.
  - destruct (insertAt (getPlex2Rank SimplexHash DD procs m s) s acc) as [acc'|] eqn:E.
    2:{ rewrite fold_left_None in H. discriminate. }
    destruct (insertAt_inv _ _ _ E) as (Hp & Hlen & Hnth).
    destruct (IH _ _ H) as (L & S & M).
    split; [lia|]. split.
    + intros Hs. apply S. intros p. rewrite Hnth.
      destruct (p =? _); [apply ordered_insert_sorted|]; apply Hs.
    + intros p f. rewrite M, Hnth. simpl.
      destruct (p =? getPlex2Rank SimplexHash DD procs m s) eqn:Ep.
      * apply Nat.eqb_eq in Ep. rewrite ordered_insert_In.
        split; [intros [[->|H1]|[H1 H2]]|intros [H1|[[<-|H1] H2]]]; auto.
      * apply Nat.eqb_neq in Ep.
        split; [intros [H1|[H1 H2]]|intros [H1|[[<-|H1] H2]]]; auto. congruence.
Qed.

Lemma nth_repeat_nil (A : Type) (n p : nat) : nth p (repeat (@nil A) n) [] = [].
Proof.
  revert p. induction n as [|n IH]; intros [|p]; simpl; auto.
Qed.

(** What [requiredFaces] leaves: one set per rank, and in the set of
    rank [p] exactly the faces of the local elements that [p] owns. *)
Lemma requiredFaces_inv (DD procs : nat) (m : Mesh) (elems : list Simplex)
      (R : list (list Simplex)) :
  requiredFaces SimplexHash DD procs m elems = Some R ->
  length R = procs /\
  (forall p, strictly_sorted (nth p R [])) /\
  (forall p f, In f (nth p R []) <->
               In f (concat (map (downward DD) elems)) /\
               getPlex2Rank SimplexHash DD procs m f = p).
Proof.
  unfold requiredFaces. intros H. apply requiredFaces_fold in H.
  destruct H as (L & S & M). rewrite repeat_length in L.
  split; [exact L|]. split.
  - apply S. intros p. rewrite nth_repeat_nil. constructor.
  - intros p f. rewrite M, nth_repeat_nil. simpl. tauto.
Qed.

End FaceSets.

(** ** Contiguous ids *)

Lemma ownedFaces_fold (rf : list Simplex) :
  forall acc, strictly_sorted acc ->
  strictly_sorted (fold_left (fun owned face => ordered_insert face owned) rf acc) /\
  (forall f, In f (fold_left (fun owned face => ordered_insert face owned) rf acc) <->
             In f acc \/ In f rf).
Proof.
  induction rf as [|x rf IH]; intros acc Hs; simpl.
  - split; [exact Hs|]. intros f. tauto.
  - destruct (IH (ordered_insert x acc) (ordered_insert_sorted x Hs)) as [H1 H2].
    split; [exact H1|]. intros f. rewrite H2, ordered_insert_In.
    split; [intros [[->|H]|H]|intros [H|[<-|H]]]; auto.
Qed.

Lemma ownedFaces_sorted (rf : list Simplex) : strictly_sorted (ownedFaces rf).
Proof. apply ownedFaces_fold. constructor. Qed.

Lemma ownedFaces_In (rf : list Simplex) (f : Simplex) : In f (ownedFaces rf) <-> In f rf.
Proof.
  unfold ownedFaces. destruct (ownedFaces_fold rf (acc := [])) as [_ H]; [constructor|].
  rewrite H. simpl. tauto.
Qed.

(** The id of a face is the offset plus its position among the owned
    faces. *)
Lemma lookupCGID_nth (owned : list Simplex) :
  forall (off i : nat) (f : Simplex),
  NoDup owned -> nth_error owned i = Some f ->
  lookupCGID (ownedFacesToCGID off owned) f = off + i.
Proof.
  unfold lookupCGID, ownedFacesToCGID.
  induction owned as [|x owned IH]; intros off i f Hnd Hi.
  - destruct i; discriminate.
  - inversion Hnd as [|? ? Hx Hnd']; subst. simpl.
    destruct (simplex_eqb x f) eqn:E.
    + apply simplex_eqb_eq in E. subst x. simpl.
      destruct i as [|i]; [lia|]. simpl in Hi. apply nth_error_In in Hi. contradiction.
    + destruct i as [|i].
      * simpl in Hi. injection Hi as ->. rewrite simplex_eqb_refl in E. discriminate.
      * simpl in Hi. rewrite (IH (S off) i f Hnd' Hi). lia.
Qed.

Definition exscan (sizes : list nat) (p : nat) : nat := list_sum (firstn p sizes).

Lemma exscan_le (sizes : list nat) (p p' : nat) :
  p <= p' -> exscan sizes p <= exscan sizes p'.
Proof.
  unfold exscan. induction 1 as [|p' _ IH]; [lia|].
  rewrite list_sum_firstn_S. lia.
Qed.


Lemma exscan_list (sz : list nat) :
  map (fun '(scan, own) => scan - own) (combine (MPI_Scan_sum sz) sz)
  = map (exscan sz) (seq 0 (length sz)).
Proof.
  unfold MPI_Scan_sum.
  transitivity (map (fun '(scan, own) => scan - own)
                    (combine (map (fun r => list_sum (firstn (S r) sz)) (seq 0 (length sz)))
                             (map (fun r => nth r sz 0) (seq 0 (length sz))))).
  - now rewrite map_nth_seq.
  - rewrite (map_combine_maps (fun r => list_sum (firstn (S r) sz)) (fun r => nth r sz 0)
                              (fun scan own => scan - own)).
    apply map_ext. intros r. unfold exscan. rewrite list_sum_firstn_S. lia.
Qed.

Lemma combine_map_map (A B C : Type) (f : A -> B) (g : A -> C) (l : list A) :
  combine (map f l) (map g l) = map (fun x => (f x, g x)) l.
Proof. induction l as [|x l IH]; simpl; [reflexivity|now rewrite IH]. Qed.

Lemma combine_nth_seq (A B : Type) (l : list A) (l' : list B) (d : A) (d' : B) :
  length l' = length l ->
  combine l l' = map (fun p => (nth p l d, nth p l' d')) (seq 0 (length l)).
Proof.
  revert l'. induction l as [|x l IH]; intros [|y l'] H; simpl in *; try discriminate;
    [reflexivity|].
  f_equal. rewrite <- seq_shift, map_map. apply IH. lia.
Qed.

(** The faces that rank [p] is asked for, the distinct ones among
    them, the offset of [p], and the id that [p] gives to a face, all
    from the chunks [R] that the ranks address to each other. *)
Definition requestedOf (R : list (list (list Simplex))) (p : nat) : list Simplex :=
  concat (column [] p R).

Definition ownedOf (R : list (list (list Simplex))) (p : nat) : list Simplex :=
  ownedFaces (requestedOf R p).

Definition ownedSizes (R : list (list (list Simplex))) : list nat :=
  map (fun p => length (ownedOf R p)) (seq 0 (length R)).

Definition gidOf (DD : nat) (R : list (list (list Simplex))) (p : nat) (face : Simplex) : N :=
  match DD with
  | 0 => nth 0 face 0%N
  | S _ => N.of_nat (lookupCGID (ownedFacesToCGID (exscan (ownedSizes R) p) (ownedOf R p)) face)
  end.

Lemma getContiguousGIDs_chunks (DD : nat) (R : list (list (list Simplex))) :
  square R ->
  getContiguousGIDs DD (map (@concat Simplex) (transpose [] R))
                    (map swap (mkAllToAllV (map (map (@length Simplex)) R)))
  = Some (map (fun row => concat (map (fun p => map (gidOf DD R p) (nth p row []))
                                      (seq 0 (length R)))) R).
Proof.
  intros Sq. unfold getContiguousGIDs.
  rewrite <- (exchange_reply (gidOf DD R) Sq). f_equal.
  unfold transpose.
  destruct DD as [|d].
  - rewrite !map_map. reflexivity.
  - set (n := length R).
    set (req := map (@concat Simplex) (map (fun p => column [] p R) (seq 0 n))).
    assert (Hreq : req = map (requestedOf R) (seq 0 n)).
    { unfold req, requestedOf. now rewrite map_map. }
    assert (Hsz : map (@length Simplex) (map ownedFaces req) = ownedSizes R).
    { rewrite Hreq. unfold ownedSizes, ownedOf. fold n. now rewrite !map_map. }
    rewrite Hsz, exscan_list.
    assert (Hn : length (ownedSizes R) = n).
    { unfold ownedSizes. fold n. now rewrite length_map, length_seq. }
    rewrite Hn.
    replace (map ownedFaces req) with (map (ownedOf R) (seq 0 n))
      by (rewrite Hreq; now rewrite map_map).
    rewrite combine_map_map, Hreq, combine_map_map, map_map.
    reflexivity.
Qed.

(** ** Displacements *)

Lemma displ_cons (c : nat) (cs : list nat) (p : nat) :
  displ (c :: cs) (S p) = c + displ cs p.
Proof. unfold displ. now rewrite firstn_cons. Qed.

Lemma nth_concat_displ (A : Type) (C : list (list A)) (d : A) :
  forall q j, j < length (nth q C []) ->
  nth (displ (map (@length A) C) q + j) (concat C) d = nth j (nth q C []) d.
Proof.
  induction C as [|c C IH]; intros q j Hj.
  - destruct q; simpl in Hj; lia.
  - destruct q as [|q]; simpl nth in *.
    + unfold displ. simpl. now rewrite app_nth1.
    + simpl map. rewrite displ_cons. simpl concat.
      rewrite <- Nat.add_assoc, app_nth2_plus. now apply IH.
Qed.

Lemma filter_concat (A : Type) (P : A -> bool) (L : list (list A)) :
  filter P (concat L) = concat (map (filter P) L).
Proof.
  induction L as [|l L IH]; simpl; [reflexivity|]. now rewrite filter_app, IH.
Qed.

Lemma filter_map_swap (A B : Type) (P : B -> bool) (g : A -> B) (l : list A) :
  filter P (map g l) = map g (filter (fun x => P (g x)) l).
Proof.
  induction l as [|x l IH]; simpl; [reflexivity|].
  destruct (P (g x)); simpl; now rewrite IH.
Qed.

Lemma filter_as_concat (A : Type) (P : A -> bool) (l : list A) :
  filter P l = concat (map (fun x => if P x then [x] else []) l).
Proof.
  induction l as [|x l IH]; simpl; [reflexivity|].
  destruct (P x); simpl; now rewrite IH.
Qed.

(** Counting the positions of a list that pass a test is counting the
    entries that pass it. *)
Lemma filter_seq_nth (A B : Type) (t : A -> bool) (b : B) (d : A) (ch : list A) :
  map (fun _ => b) (filter (fun j => t (nth j ch d)) (seq 0 (length ch)))
  = map (fun _ => b) (filter t ch).
Proof.
  induction ch as [|x ch IH]; simpl; [reflexivity|].
  destruct (t x); simpl; rewrite <- seq_shift, filter_map_swap, map_map; simpl;
    now rewrite IH.
Qed.

Lemma filter_eqb_NoDup (f : Simplex) (ch : list Simplex) :
  NoDup ch ->
  filter (fun x => simplex_eqb x f) ch = if existsb (simplex_eqb f) ch then [f] else [].
Proof.
  induction 1 as [|x ch Hx Hnd IH]; simpl; [reflexivity|].
  destruct (simplex_eqb x f) eqn:E.
  - apply simplex_eqb_eq in E. subst x. rewrite simplex_eqb_refl. simpl.
    rewrite IH. destruct (existsb (simplex_eqb f) ch) eqn:Ex; [|reflexivity].
    exfalso. apply Hx. apply existsb_exists in Ex. destruct Ex as (y & Hy & Ey).
    apply simplex_eqb_eq in Ey. now subst y.
  - replace (simplex_eqb f x) with false.
    2:{ symmetry. rewrite <- not_true_iff_false in *. intros H. apply E.
        apply simplex_eqb_eq in H. subst. apply simplex_eqb_refl. }
    exact IH.
Qed.

(** The ranks that the owner records for a face: the requesters whose
    chunk holds it. *)
Lemma sharedRanksInfo_chunks (C : list (list Simplex)) (f : Simplex) :
  (forall q, NoDup (nth q C [])) ->
  sharedRanksInfo (displs_pairs (map (@length Simplex) C)) (concat C) f
  = filter (fun q => existsb (simplex_eqb f) (nth q C [])) (seq 0 (length C)).
Proof.
  intros Hnd. unfold sharedRanksInfo, displs_pairs.
  rewrite length_map, filter_concat, concat_map, !map_map, filter_as_concat.
  f_equal. apply map_ext. intros q.
  change 0 with (length (@nil Simplex)) at 2. rewrite map_nth.
  rewrite filter_map_swap, map_map. simpl.
  rewrite (filter_ext_in _ (fun j => simplex_eqb (nth j (nth q C []) []) f)).
  2:{ intros j Hj. apply in_seq in Hj. rewrite nth_concat_displ by lia. reflexivity. }
  rewrite (@filter_seq_nth _ _ (fun x => simplex_eqb x f) q [] (nth q C [])).
  rewrite filter_eqb_NoDup by apply Hnd.
  now destruct (existsb (simplex_eqb f) (nth q C [])).
Qed.

Lemma length_add_at (p v : nat) (l : list nat) : length (add_at p v l) = length l.
Proof.
  revert p. induction l as [|x l IH]; intros p; simpl; [reflexivity|].
  destruct p; simpl; [reflexivity|now rewrite IH].
Qed.

Lemma nth_add_at (p v q : nat) (l : list nat) :
  p < length l ->
  nth q (add_at p v l) 0 = nth q l 0 + (if q =? p then v else 0).
Proof.
  revert p q. induction l as [|x l IH]; intros p q Hp; simpl in Hp; [lia|].
  destruct p as [|p]; simpl.
  - destruct q; simpl; lia.
  - destruct q as [|q]; simpl; [lia|]. apply IH. lia.
Qed.

(** What the loops of lines 538-543 add up for peer [q]. *)
Lemma nth_accumulate (vals : list nat) (pairs : list (nat * nat)) :
  forall (acc : list nat) (q : nat),
  Forall (fun pi => fst pi < length acc) pairs ->
  length (fold_left (fun acc pi => add_at (fst pi) (nth (snd pi) vals 0) acc) pairs acc)
  = length acc /\
  nth q (fold_left (fun acc pi => add_at (fst pi) (nth (snd pi) vals 0) acc) pairs acc) 0
  = nth q acc 0
    + list_sum (map (fun pi => if q =? fst pi then nth (snd pi) vals 0 else 0) pairs).
Proof.
  induction pairs as [|pi pairs IH]; intros acc q H; simpl.
  - split; [reflexivity|lia].
  - inversion H as [|? ? Hpi Hrest]; subst.
    destruct (IH (add_at (fst pi) (nth (snd pi) vals 0) acc) q) as [L E].
    + rewrite length_add_at. exact Hrest.
    + rewrite L, E, length_add_at, nth_add_at by exact Hpi. split; [reflexivity|lia].
Qed.

Lemma list_sum_concat (L : list (list nat)) :
  list_sum (concat L) = list_sum (map list_sum L).
Proof.
  induction L as [|l L IH]; simpl; [reflexivity|]. now rewrite list_sum_app, IH.
Qed.

Lemma list_sum_zero (A : Type) (l : list A) : list_sum (map (fun _ => 0) l) = 0.
Proof. induction l as [|x l IH]; simpl; [reflexivity|exact IH]. Qed.

Lemma list_sum_pick (s : nat -> nat) (q n : nat) :
  q < n -> list_sum (map (fun p => if q =? p then s p else 0) (seq 0 n)) = s q.
Proof.
  intros Hq. replace n with (q + S (n - q - 1)) by lia.
  rewrite seq_app, map_app, list_sum_app. simpl.
  rewrite Nat.eqb_refl.
  rewrite (map_ext_in _ (fun _ => 0)), list_sum_zero.
  2:{ intros p Hp. apply in_seq in Hp. destruct (q =? p) eqn:E; [|reflexivity].
      apply Nat.eqb_eq in E. lia. }
  rewrite (map_ext_in _ (fun _ => 0)), list_sum_zero; [lia|].
  intros p Hp. apply in_seq in Hp. destruct (q =? p) eqn:E; [|reflexivity].
  apply Nat.eqb_eq in E. lia.
Qed.

(** When the values come in chunks shaped like the pattern, the sums
    per peer are the sums of the chunks. *)
Lemma accumulate_chunks (V : list (list nat)) :
  accumulate (length V) (displs_pairs (map (@length nat) V)) (concat V)
  = map list_sum V.
Proof.
  unfold accumulate.
  set (step := fun acc pi => add_at (fst pi) (nth (snd pi) (concat V) 0) acc).
  assert (Hall : Forall (fun pi => fst pi < length (repeat 0 (length V)))
                        (displs_pairs (map (@length nat) V))).
  { rewrite repeat_length. unfold displs_pairs. rewrite length_map.
    apply Forall_forall. intros pi Hpi. apply in_concat in Hpi.
    destruct Hpi as (l & Hl & Hpi). apply in_map_iff in Hl.
    destruct Hl as (p & <- & Hp). apply in_seq in Hp.
    apply in_map_iff in Hpi. destruct Hpi as (j & <- & _). simpl. lia. }
  apply (nth_ext _ _ 0 0).
  - destruct (nth_accumulate (concat V) (repeat 0 (length V)) 0 Hall) as [L _].
    fold step in L. now rewrite L, repeat_length, length_map.
  - intros q Hq.
    destruct (nth_accumulate (concat V) (repeat 0 (length V)) q Hall) as [L E].
    fold step in L, E. rewrite L, repeat_length in Hq.
    rewrite E, nth_repeat. simpl.
    unfold displs_pairs. rewrite length_map, concat_map, list_sum_concat, !map_map.
    rewrite (map_ext _ (fun p => if q =? p then list_sum (nth p V []) else 0)).
    + rewrite list_sum_pick by exact Hq.
      change (nth q (map list_sum V) 0) with (nth q (map list_sum V) (list_sum [])).
      now rewrite map_nth.
    + intros p. rewrite map_map. simpl.
      destruct (q =? p) eqn:E'; [|apply list_sum_zero].
      f_equal.
      change (nth p (map (@length nat) V) 0)
        with (nth p (map (@length nat) V) (length (@nil nat))).
      rewrite map_nth.
      rewrite (map_ext_in _ (fun j => nth j (nth p V []) 0)).
      * apply map_nth_seq.
      * intros j Hj. apply in_seq in Hj. apply nth_concat_displ. lia.
Qed.

(** ** The shared-ranks table *)

Lemma swapped_pattern (A : Type) (R : list (list (list A))) :
  map swap (mkAllToAllV (map (map (@length A)) R))
  = map (fun p => {| sendcounts := map (@length A) (column [] p R);
                     recvcounts := map (@length A) (nth p R []) |})
        (seq 0 (length R)).
Proof.
  unfold mkAllToAllV. rewrite map_map, length_map.
  apply map_ext. intros p. unfold swap. simpl. f_equal.
  - unfold column. rewrite !map_map. apply map_ext. intros row.
    change 0 with (length (@nil A)). apply map_nth.
  - change (@nil nat) with (map (@length A) []). apply map_nth.
Qed.

Lemma concat_map_concat (A B : Type) (f : A -> list B) (L : list (list A)) :
  concat (map f (concat L)) = concat (map (fun ch => concat (map f ch)) L).
Proof.
  induction L as [|l L IH]; simpl; [reflexivity|].
  now rewrite map_app, concat_app, IH.
Qed.

Lemma concat_concat (A : Type) (L : list (list (list A))) :
  concat (concat L) = concat (map (@concat A) L).
Proof.
  induction L as [|l L IH]; simpl; [reflexivity|]. now rewrite concat_app, IH.
Qed.

(** The ranks whose request to owner [p] holds the face. *)
Definition infoOf (R : list (list (list Simplex))) (p : nat) (face : Simplex) : list nat :=
  filter (fun q => existsb (simplex_eqb face) (nth p (nth q R []) [])) (seq 0 (length R)).

Definition sharedOf (R : list (list (list Simplex))) (q : nat) : list (list nat) :=
  concat (map (fun p => map (infoOf R p) (nth p (nth q R []) [])) (seq 0 (length R))).

Lemma length_column (A : Type) (d : A) (p : nat) (M : list (list A)) :
  length (column d p M) = length M.
Proof. unfold column. apply length_map. Qed.

Lemma sharedRanksInfo_column (R : list (list (list Simplex))) (p : nat) (f : Simplex) :
  (forall q p', NoDup (nth p' (nth q R []) [])) ->
  sharedRanksInfo (displs_pairs (map (@length Simplex) (column [] p R)))
                  (concat (column [] p R)) f
  = infoOf R p f.
Proof.
  intros Hnd. rewrite sharedRanksInfo_chunks.
  - rewrite length_column. unfold infoOf. apply filter_ext_in.
    intros q Hq. apply in_seq in Hq. now rewrite nth_column by lia.
  - intros q. destruct (Nat.lt_ge_cases q (length R)) as [Hq|Hq].
    + rewrite nth_column by exact Hq. apply Hnd.
    + rewrite nth_overflow by (rewrite length_column; exact Hq). constructor.
Qed.

Definition countsOfShared (R : list (list (list Simplex))) (q : nat) : list nat :=
  concat (map (fun p => map (fun f => length (infoOf R p f)) (nth p (nth q R []) []))
              (seq 0 (length R))).

(** The chunks of ranks that the owners send back. *)
Definition sharedChunks (R : list (list (list Simplex))) : list (list (list nat)) :=
  map (fun p => map (fun ch => concat (map (infoOf R p) ch)) (column [] p R))
      (seq 0 (length R)).

Lemma sharedChunks_square (R : list (list (list Simplex))) : square (sharedChunks R).
Proof.
  unfold square, sharedChunks. rewrite length_map, length_seq.
  apply Forall_map, Forall_forall. intros p _. now rewrite length_map, length_column.
Qed.

Lemma sharedChunks_pattern (R : list (list (list Simplex))) :
  square R ->
  map (fun p =>
         {| sendcounts := map (fun ch => list_sum (map (fun f => length (infoOf R p f)) ch))
                              (column [] p R);
            recvcounts := map (fun p' => list_sum (map (fun f => length (infoOf R p' f))
                                                       (nth p' (nth p R []) [])))
                              (seq 0 (length R)) |})
      (seq 0 (length R))
  = mkAllToAllV (map (map (@length nat)) (sharedChunks R)).
Proof.
  intros Sq. unfold mkAllToAllV.
  assert (Hlen : length (sharedChunks R) = length R).
  { unfold sharedChunks. now rewrite length_map, length_seq. }
  rewrite length_map, Hlen.
  apply map_ext_in. intros p Hp. apply in_seq in Hp. f_equal.
  - change (@nil nat) with (map (@length nat) []). rewrite map_nth.
    unfold sharedChunks. rewrite nth_map_seq by lia. rewrite map_map.
    apply map_ext. intros ch. now rewrite length_concat, map_map.
  - unfold column at 1. rewrite map_map. unfold sharedChunks. rewrite map_map.
    apply map_ext_in. intros p' Hp'. apply in_seq in Hp'.
    change 0 with (length (@nil nat)). rewrite map_nth.
    change (@nil nat) with (concat (map (infoOf R p') (@nil Simplex))) at 1.
    rewrite (map_nth (fun ch => concat (map (infoOf R p') ch))).
    rewrite nth_column by lia. now rewrite length_concat, map_map.
Qed.

Lemma getSharedRanks_chunks (R : list (list (list Simplex))) :
  square R ->
  (forall q p, NoDup (nth p (nth q R []) [])) ->
  getSharedRanks (length R) (map (@concat Simplex) (transpose [] R))
                 (map swap (mkAllToAllV (map (map (@length Simplex)) R)))
  = Some (map (fun q => (concat (sharedOf R q), countsOfShared R q)) (seq 0 (length R))).
Proof.
  intros Sq Hnd. unfold getSharedRanks.
  set (a2a' := map swap (mkAllToAllV (map (map (@length Simplex)) R))).
  set (A := fun p => {| sendcounts := map (@length Simplex) (column [] p R);
                        recvcounts := map (@length Simplex) (nth p R []) |}).
  assert (Ha : a2a' = map A (seq 0 (length R))) by apply swapped_pattern.
  assert (Hreq : map (@concat Simplex) (transpose [] R) = map (requestedOf R) (seq 0 (length R))).
  { unfold transpose, requestedOf. now rewrite map_map. }
  rewrite Hreq.
  assert (Hlocal : combine a2a' (map (requestedOf R) (seq 0 (length R)))
                   = map (fun p => (A p, requestedOf R p)) (seq 0 (length R))).
  { rewrite Ha. apply combine_map_map. }
  rewrite Hlocal, !map_map.
  (* the counts that the owners send *)
  rewrite (map_ext_in _ (fun p => map (fun f => length (infoOf R p f))
                                      (concat (column [] p R)))).
  2:{ intros p _. apply map_ext. intros f. unfold A, getSDispls, requestedOf. simpl.
      now rewrite sharedRanksInfo_column. }
  unfold a2a' at 1. rewrite exchange_reply by exact Sq. simpl bind.
  (* the flat lists of ranks *)
  rewrite (map_ext_in (fun x => concat (map (sharedRanksInfo _ _) _))
                      (fun p => concat (nth p (sharedChunks R) []))).
  2:{ intros p Hp. apply in_seq in Hp. unfold sharedChunks.
      rewrite nth_map_seq by lia. rewrite <- concat_map_concat.
      unfold requestedOf. f_equal. apply map_ext. intros f.
      unfold A, getSDispls. simpl. now apply sharedRanksInfo_column. }
  (* the counts that the requesters receive *)
  rewrite (map_seq_nth (fun row => concat (map (fun p => map (fun f => length (infoOf R p f))
                                                          (nth p row []))
                                            (seq 0 (length R)))) R []).
  change (fun q => concat (map (fun p => map (fun f => length (infoOf R p f))
                                         (nth p (nth q R []) []))
                           (seq 0 (length R))))
    with (countsOfShared R).
  (* the pattern of the second exchange *)
  rewrite Ha, !combine_map_map, !map_map.
  rewrite (map_ext_in (fun x => accumulate _ (getSDispls (A x)) _)
                      (fun p => map (fun ch => list_sum (map (fun f => length (infoOf R p f)) ch))
                                    (column [] p R))).
  2:{ intros p _. unfold A, getSDispls. simpl.
      set (V := map (map (fun f => length (infoOf R p f))) (column [] p R)).
      replace (map (@length Simplex) (column [] p R)) with (map (@length nat) V).
      2:{ unfold V. rewrite map_map. apply map_ext. intros ch. apply length_map. }
      replace (map (fun f => length (infoOf R p f)) (concat (column [] p R)))
        with (concat V) by (unfold V; now rewrite concat_map).
      replace (length R) with (length V)
        by (unfold V; now rewrite length_map, length_column).
      rewrite accumulate_chunks. unfold V. now rewrite map_map. }
  rewrite (map_ext_in (fun x => accumulate _ (getRDispls (A x)) _)
                      (fun q => map (fun p => list_sum (map (fun f => length (infoOf R p f))
                                                            (nth p (nth q R []) [])))
                                    (seq 0 (length R)))).
  2:{ intros q Hq. apply in_seq in Hq. unfold A, getRDispls. simpl.
      set (V := map (fun p => map (fun f => length (infoOf R p f)) (nth p (nth q R []) []))
                    (seq 0 (length R))).
      replace (map (@length Simplex) (nth q R [])) with (map (@length nat) V).
      2:{ unfold V. rewrite map_map.
          rewrite (map_seq_nth (@length Simplex) (nth q R []) []).
          rewrite (square_nth Sq) by lia.
          apply map_ext. intros p. apply length_map. }
      replace (length R) with (length V) at 1
        by (unfold V; now rewrite length_map, length_seq).
      unfold countsOfShared. fold V. rewrite accumulate_chunks.
      unfold V. now rewrite map_map. }
  rewrite combine_map_map, map_map.
  rewrite (sharedChunks_pattern Sq).
  assert (Hlen : length (sharedChunks R) = length R).
  { unfold sharedChunks. now rewrite length_map, length_seq. }
  rewrite <- Hlen at 1.
  rewrite <- (map_seq_nth (@concat nat) (sharedChunks R) []).
  rewrite exchange_mk by apply sharedChunks_square. simpl bind. f_equal.
  unfold transpose. rewrite Hlen, map_map, combine_map_map.
  apply map_ext_in. intros q Hq. apply in_seq in Hq. f_equal.
  unfold column at 1, sharedChunks, sharedOf. rewrite map_map, concat_concat, map_map.
  f_equal. apply map_ext_in. intros p Hp. apply in_seq in Hp.
  change (@nil nat) with (concat (map (infoOf R p) (@nil Simplex))) at 1.
  rewrite (map_nth (fun ch => concat (map (infoOf R p) ch))).
  now rewrite nth_column by lia.
Qed.

(** ** Facts about [getFaces] *)

Lemma countsOfShared_lengths (R : list (list (list Simplex))) (q : nat) :
  countsOfShared R q = map (@length nat) (sharedOf R q).
Proof.
  unfold countsOfShared, sharedOf. rewrite concat_map, map_map. f_equal.
  apply map_ext. intros p. now rewrite map_map.
Qed.

(** Values that are produced chunk by chunk stay aligned with the
    items of the chunks. *)
Lemma aligned_concat (A B : Type) (F : nat -> list A) (v : nat -> A -> B) (ps : list nat) :
  forall (j : nat) (f : A),
  nth_error (concat (map F ps)) j = Some f ->
  exists p, In p ps /\ In f (F p) /\
            nth_error (concat (map (fun p => map (v p) (F p)) ps)) j = Some (v p f).
Proof.
  induction ps as [|p ps IH]; intros j f Hj; simpl in *.
  - destruct j; discriminate.
  - destruct (Nat.lt_ge_cases j (length (F p))) as [Hlt|Hge].
    + rewrite nth_error_app1 in Hj by exact Hlt.
      exists p. split; [now left|]. split; [eapply nth_error_In; exact Hj|].
      rewrite nth_error_app1 by now rewrite length_map.
      now apply map_nth_error.
    + rewrite nth_error_app2 in Hj by exact Hge.
      destruct (IH _ _ Hj) as (p' & Hp' & Hf & Hv).
      exists p'. split; [now right|]. split; [exact Hf|].
      rewrite nth_error_app2 by now rewrite length_map.
      now rewrite length_map.
Qed.

Lemma aligned_pairs (A B : Type) (F : nat -> list A) (v : nat -> A -> B) (ps : list nat)
      (f : A) (g : B) :
  In (f, g) (combine (concat (map F ps)) (concat (map (fun p => map (v p) (F p)) ps))) ->
  exists p, In p ps /\ In f (F p) /\ g = v p f.
Proof.
  intros H. apply In_nth_error in H. destruct H as [j Hj].
  apply nth_error_combine in Hj. destruct Hj as [Hf Hg].
  destruct (aligned_concat F v ps _ Hf) as (p & Hp & Hin & Hv).
  exists p. split; [exact Hp|]. split; [exact Hin|]. congruence.
Qed.

Section FaceFacts.

Variable Row : Type.
Variable SimplexHash : Simplex -> N.

Local Abbreviation Mesh := (GlobalSimplexMesh Row).

(** The local view of dimension [DD] on rank [q], from the chunks. *)
Definition viewOf (DD : nat) (R : list (list (list Simplex))) (q : nat) : LocalFaces :=
  {| lf_faces := concat (map (fun p => nth p (nth q R []) []) (seq 0 (length R)));
     lf_contiguousGIDs :=
       concat (map (fun p => map (gidOf DD R p) (nth p (nth q R []) [])) (seq 0 (length R)));
     lf_sharedRanks := concat (sharedOf R q);
     lf_sharedRanksCounts := countsOfShared R q |}.

(** What the chunks are: row [q] holds the sets of rank [q]. *)
Definition chunksFor (DD : nat) (w : World Row) (elems : list (list Simplex))
           (R : list (list (list Simplex))) : Prop :=
  length R = length w /\
  forall q, q < length w ->
    exists m es, nth_error w q = Some m /\ nth_error elems q = Some es /\
                 requiredFaces SimplexHash DD (length w) m es = Some (nth q R []).

Lemma chunksFor_square (DD : nat) (w : World Row) (elems : list (list Simplex))
      (R : list (list (list Simplex))) :
  chunksFor DD w elems R -> square R.
Proof.
  intros [Hlen H]. unfold square. apply Forall_forall. intros row Hrow.
  apply In_nth with (d := []) in Hrow. destruct Hrow as (q & Hq & <-).
  destruct (H q) as (m & es & _ & _ & Hr); [lia|].
  apply requiredFaces_inv in Hr. destruct Hr as (L & _). lia.
Qed.

Lemma chunksFor_NoDup (DD : nat) (w : World Row) (elems : list (list Simplex))
      (R : list (list (list Simplex))) (q p : nat) :
  chunksFor DD w elems R -> NoDup (nth p (nth q R []) []).
Proof.
  intros [Hlen H]. destruct (Nat.lt_ge_cases q (length w)) as [Hq|Hq].
  - destruct (H q Hq) as (m & es & _ & _ & Hr).
    apply requiredFaces_inv in Hr. destruct Hr as (_ & S & _).
    apply strictly_sorted_NoDup, S.
  - rewrite (nth_overflow R) by lia. destruct p; constructor.
Qed.

(** [getFaces], chunk by chunk. *)
Lemma getFaces_inv (DD : nat) (w : World Row) (elems : list (list Simplex))
      (lfs : list LocalFaces) :
  length elems = length w ->
  getFaces SimplexHash DD w elems = Some lfs ->
  exists R, chunksFor DD w elems R /\ lfs = map (viewOf DD R) (seq 0 (length R)).
Proof.
  intros Hlen H. unfold getFaces in H.
  bind_inv H. rename l into R. rename E into HR.
  assert (HC : chunksFor DD w elems R).
  { split.
    - apply length_forRanks in HR. rewrite length_combine in HR. lia.
    - intros q Hq.
      destruct (nth_error R q) as [row|] eqn:Hrow.
      2:{ apply nth_error_None in Hrow. apply length_forRanks in HR.
          rewrite length_combine in HR. lia. }
      destruct (nth_error_forRanks _ _ _ HR Hrow) as ([m es] & Hc & Hr).
      apply nth_error_combine in Hc. destruct Hc as [Hm Hes].
      exists m, es. repeat split; auto.
      now rewrite (nth_error_nth _ _ [] Hrow). }
  exists R. split; [exact HC|].
  pose proof (chunksFor_square HC) as Sq.
  rewrite exchange_mk in H by exact Sq. simpl bind in H.
  rewrite getContiguousGIDs_chunks in H by exact Sq. simpl bind in H.
  bind_inv H. clear E.
  replace (length w) with (length R) in H by apply HC.
  rewrite getSharedRanks_chunks in H; [|exact Sq|intros q p; eapply chunksFor_NoDup; exact HC].
  simpl bind in H. injection H as <-.
  rewrite (map_seq_nth (@concat Simplex) R []).
  rewrite (map_seq_nth (fun row => concat (map (fun p => map (gidOf DD R p) (nth p row []))
                                              (seq 0 (length R)))) R []).
  rewrite !combine_map_map, map_map.
  apply map_ext_in. intros q Hq. apply in_seq in Hq.
  unfold viewOf. f_equal.
  assert (E : length (nth q R []) = length R) by (apply square_nth; [exact Sq|lia]).
  rewrite <- E. now rewrite map_nth_seq.
Qed.

Lemma In_infoOf (R : list (list (list Simplex))) (p q : nat) (f : Simplex) :
  In q (infoOf R p f) <-> q < length R /\ In f (nth p (nth q R []) []).
Proof.
  unfold infoOf. rewrite filter_In, in_seq, existsb_exists. split.
  - intros [Hq (x & Hx & E)]. apply simplex_eqb_eq in E. subst x. split; [lia|exact Hx].
  - intros [Hq Hf]. split; [lia|]. exists f. split; [exact Hf|apply simplex_eqb_refl].
Qed.

(** On one rank a face lies in the chunk of one owner only. *)
Lemma chunk_owner_unique (DD : nat) (w : World Row) (elems : list (list Simplex))
      (R : list (list (list Simplex))) (q p p' : nat) (f : Simplex) :
  chunksFor DD w elems R ->
  In f (nth p (nth q R []) []) -> In f (nth p' (nth q R []) []) -> p = p'.
Proof.
  intros [Hlen H] H1 H2. destruct (Nat.lt_ge_cases q (length w)) as [Hq|Hq].
  - destruct (H q Hq) as (m & es & _ & _ & Hr).
    apply requiredFaces_inv in Hr. destruct Hr as (_ & _ & M).
    apply M in H1, H2. destruct H1 as [_ <-], H2 as [_ <-]. reflexivity.
  - rewrite (nth_overflow R) in H1 by lia. destruct p; contradiction.
Qed.

(** The face at a position of a local view, the owner it was sent
    to, and what came back for it. *)
Lemma viewOf_face (DD : nat) (R : list (list (list Simplex))) (q j : nat) (f : Simplex) :
  nth_error (lf_faces (viewOf DD R q)) j = Some f ->
  exists p, p < length R /\ In f (nth p (nth q R []) []) /\
            sharedRanksAt (viewOf DD R q) j = infoOf R p f /\
            nth_error (lf_contiguousGIDs (viewOf DD R q)) j = Some (gidOf DD R p f).
Proof.
  simpl. intros Hj.
  destruct (aligned_concat (fun p => nth p (nth q R []) [])
                           (fun p f => (infoOf R p f, gidOf DD R p f))
                           (seq 0 (length R)) _ Hj) as (p & Hp & Hf & Hv).
  apply in_seq in Hp. exists p. split; [lia|]. split; [exact Hf|]. split.
  - unfold sharedRanksAt. simpl. rewrite countsOfShared_lengths, segment_chunks.
    apply nth_error_nth. unfold sharedOf.
    apply (f_equal (option_map fst)) in Hv. rewrite <- nth_error_map in Hv.
    rewrite concat_map, map_map in Hv. simpl in Hv.
    rewrite (map_ext _ (fun p => map (infoOf R p) (nth p (nth q R []) []))) in Hv
      by (intros p'; now rewrite map_map).
    exact Hv.
  - apply (f_equal (option_map snd)) in Hv. rewrite <- nth_error_map in Hv.
    rewrite concat_map, map_map in Hv. simpl in Hv.
    rewrite (map_ext _ (fun p => map (gidOf DD R p) (nth p (nth q R []) []))) in Hv
      by (intros p'; now rewrite map_map).
    exact Hv.
Qed.

Lemma nth_error_views (DD : nat) (R : list (list (list Simplex))) (q : nat)
      (lf : LocalFaces) :
  nth_error (map (viewOf DD R) (seq 0 (length R))) q = Some lf ->
  q < length R /\ lf = viewOf DD R q.
Proof.
  intros H. rewrite nth_error_map in H.
  destruct (nth_error (seq 0 (length R)) q) as [k|] eqn:Hk; [|discriminate].
  assert (Hq : q < length (seq 0 (length R))) by (apply nth_error_Some; congruence).
  rewrite length_seq in Hq.
  apply (nth_error_nth _ _ 0) in Hk. rewrite seq_nth in Hk by lia. simpl in Hk. subst k.
  simpl in H. injection H as <-. now split.
Qed.

Lemma In_view_faces (DD : nat) (R : list (list (list Simplex))) (q p : nat) (f : Simplex) :
  p < length R -> In f (nth p (nth q R []) []) -> In f (lf_faces (viewOf DD R q)).
Proof.
  intros Hp Hf. simpl. apply in_concat.
  exists (nth p (nth q R []) []). split; [|exact Hf].
  apply in_map_iff. exists p. split; [reflexivity|]. apply in_seq. lia.
Qed.

(** C8. The shared-ranks table is symmetric and holds the own rank:
    rank [p] stands in the list that rank [q] received for a face
    exactly when the face is in the local list of [p] and [q] stands
    in the list that [p] received for it, and [q] itself stands in
    every list it received. *)
Theorem sharedRanks_symmetric (DD : nat) (w : World Row) (elems : list (list Simplex))
        (lfs : list LocalFaces) (q j : nat) (lfq : LocalFaces) (f : Simplex) :
  length elems = length w ->
  getFaces SimplexHash DD w elems = Some lfs ->
  nth_error lfs q = Some lfq -> nth_error (lf_faces lfq) j = Some f ->
  In q (sharedRanksAt lfq j) /\
  forall p, In p (sharedRanksAt lfq j) <->
            exists lfp j', nth_error lfs p = Some lfp /\
                           nth_error (lf_faces lfp) j' = Some f /\
                           In q (sharedRanksAt lfp j').
Proof.
  intros Hlen H Hq Hj. apply getFaces_inv in H; [|exact Hlen].
  destruct H as (R & HC & ->).
  apply nth_error_views in Hq. destruct Hq as [Hq ->].
  destruct (viewOf_face _ _ _ _ Hj) as (p0 & Hp0 & Hf & Hs & _).
  rewrite Hs. split; [now apply In_infoOf|].
  intros p. rewrite In_infoOf. split.
  - intros [Hp Hfp].
    pose proof (@In_view_faces DD R p p0 f Hp0 Hfp) as Hin.
    apply In_nth_error in Hin. destruct Hin as [j' Hj'].
    exists (viewOf DD R p), j'. split; [|split; [exact Hj'|]].
    + rewrite nth_error_map.
      rewrite (nth_error_nth' _ 0) by now rewrite length_seq.
      now rewrite seq_nth.
    + destruct (viewOf_face _ _ _ _ Hj') as (p1 & _ & Hf1 & Hs1 & _).
      rewrite Hs1, (@chunk_owner_unique _ _ _ _ _ _ _ _ HC Hf1 Hfp). now apply In_infoOf.
  - intros (lfp & j' & Hp & Hj' & Hin).
    apply nth_error_views in Hp. destruct Hp as [Hp ->]. split; [exact Hp|].
    destruct (viewOf_face _ _ _ _ Hj') as (p1 & _ & Hf1 & Hs1 & _).
    rewrite Hs1 in Hin. apply In_infoOf in Hin. destruct Hin as [_ Hfq].
    now rewrite (@chunk_owner_unique _ _ _ _ _ _ _ _ HC Hf Hfq).
Qed.

(** *** Contiguous ids of the faces *)

(** Every face of every local list with the id that stands beside it. *)
Definition gidPairs (lfs : list LocalFaces) : list (Simplex * N) :=
  concat (map (fun lf => combine (lf_faces lf) (lf_contiguousGIDs lf)) lfs).





Lemma gidPairs_views (DD : nat) (R : list (list (list Simplex))) (f : Simplex) (g : N) :
  In (f, g) (gidPairs (map (viewOf DD R) (seq 0 (length R)))) ->
  exists q p, q < length R /\ p < length R /\
              In f (nth p (nth q R []) []) /\ g = gidOf DD R p f.
Proof.
  unfold gidPairs. rewrite map_map. intros H. apply in_concat in H.
  destruct H as (l & Hl & Hfg). apply in_map_iff in Hl. destruct Hl as (q & <- & Hq).
  apply in_seq in Hq. simpl in Hfg. apply aligned_pairs in Hfg.
  destruct Hfg as (p & Hp & Hf & Hg). apply in_seq in Hp.
  exists q, p. repeat split; auto; lia.
Qed.

Lemma In_gidPairs_views (DD : nat) (R : list (list (list Simplex))) (q p : nat)
      (f : Simplex) :
  q < length R -> p < length R -> In f (nth p (nth q R []) []) ->
  exists g, In (f, g) (gidPairs (map (viewOf DD R) (seq 0 (length R)))).
Proof.
  intros Hq Hp Hf.
  pose proof (@In_view_faces DD R q p f Hp Hf) as Hin.
  apply In_nth_error in Hin. destruct Hin as [j Hj].
  destruct (viewOf_face _ _ _ _ Hj) as (p1 & _ & _ & _ & Hg).
  exists (gidOf DD R p1 f). unfold gidPairs. apply in_concat.
  exists (combine (lf_faces (viewOf DD R q)) (lf_contiguousGIDs (viewOf DD R q))).
  split.
  - apply in_map_iff. exists (viewOf DD R q). split; [reflexivity|].
    apply in_map_iff. exists q. split; [reflexivity|]. apply in_seq. lia.
  - apply (nth_error_In _ j).
    clear -Hj Hg. revert Hj Hg.
    generalize (lf_faces (viewOf DD R q)) (lf_contiguousGIDs (viewOf DD R q)).
    intros l l'. revert l l'. induction j as [|j IH]; intros [|x l] [|y l'] H1 H2;
      simpl in *; try discriminate.
    + now injection H1 as ->; injection H2 as ->.
    + now apply IH.
Qed.

Lemma In_requestedOf (R : list (list (list Simplex))) (p : nat) (f : Simplex) :
  In f (requestedOf R p) <-> exists q, q < length R /\ In f (nth p (nth q R []) []).
Proof.
  unfold requestedOf, column. rewrite in_concat. split.
  - intros (l & Hl & Hf). apply in_map_iff in Hl. destruct Hl as (row & <- & Hrow).
    apply In_nth with (d := []) in Hrow. destruct Hrow as (q & Hq & <-).
    now exists q.
  - intros (q & Hq & Hf). exists (nth p (nth q R []) []). split; [|exact Hf].
    apply in_map_iff. exists (nth q R []). split; [reflexivity|]. now apply nth_In.
Qed.

(** Above dimension 0, the id of a face is its owner's offset plus its
    position among the owner's distinct faces. *)
Lemma gidOf_index (d : nat) (R : list (list (list Simplex))) (q p : nat) (f : Simplex) :
  q < length R -> In f (nth p (nth q R []) []) ->
  exists i, nth_error (ownedOf R p) i = Some f /\
            gidOf (S d) R p f = N.of_nat (exscan (ownedSizes R) p + i).
Proof.
  intros Hq Hf.
  assert (Hin : In f (ownedOf R p)).
  { apply ownedFaces_In, In_requestedOf. now exists q. }
  apply In_nth_error in Hin. destruct Hin as [i Hi]. exists i. split; [exact Hi|].
  unfold gidOf. f_equal. apply lookupCGID_nth; [|exact Hi].
  apply strictly_sorted_NoDup, ownedFaces_sorted.
Qed.

Lemma nth_ownedSizes (R : list (list (list Simplex))) (p : nat) :
  p < length R -> nth p (ownedSizes R) 0 = length (ownedOf R p).
Proof. intros Hp. unfold ownedSizes. now rewrite nth_map_seq. Qed.

Lemma chunk_faces (DD : nat) (w : World Row) (elems : list (list Simplex))
      (R : list (list (list Simplex))) (q p : nat) (f : Simplex) :
  chunksFor DD w elems R -> q < length R ->
  In f (nth p (nth q R []) []) ->
  exists m es, nth_error w q = Some m /\ nth_error elems q = Some es /\
               In f (concat (map (downward DD) es)) /\
               getPlex2Rank SimplexHash DD (length w) m f = p.
Proof.
  intros [Hlen H] Hq Hf. destruct (H q) as (m & es & Hm & Hes & Hr); [lia|].
  apply requiredFaces_inv in Hr. destruct Hr as (_ & _ & M).
  apply M in Hf. destruct Hf as [Hf Hp]. now exists m, es.
Qed.

Lemma length_aligned (A B : Type) (F : nat -> list A) (v : nat -> A -> B) (ps : list nat) :
  length (concat (map (fun p => map (v p) (F p)) ps)) = length (concat (map F ps)).
Proof.
  induction ps as [|p ps IH]; simpl; [reflexivity|].
  now rewrite !length_app, length_map, IH.
Qed.


End FaceFacts.

(** ** Concrete runs *)

(** A hash for the examples: the sum of the vertex ids. *)
Definition sumHash (s : Simplex) : N := fold_right N.add 0%N s.

Definition mesh0 (es : list Simplex) : GlobalSimplexMesh nat :=
  {| elems_ := es; elementData := Some (map (fun e => N.to_nat (sumHash e)) es);
     isPartitionedByHash := false; vtxdist := [] |}.

(** Two triangles that share the edge (0,1), one on each of two ranks. *)
Definition tri2 : World nat := [mesh0 [[0; 1; 2]%N]; mesh0 [[0; 1; 3]%N]].

(** The surface of a tetrahedron, two triangles on each of two ranks:
    every edge has two witnesses and there is no domain boundary. *)
Definition tetra : World nat :=
  [mesh0 [[0; 1; 2]; [0; 1; 3]]%N; mesh0 [[0; 2; 3]; [1; 2; 3]]%N].

(** Five triangles on two ranks. *)
Definition five : World nat :=
  [mesh0 [[0; 1; 2]; [0; 1; 3]; [1; 2; 3]]%N; mesh0 [[0; 2; 3]; [2; 3; 4]]%N].

Definition tri2_view : list LocalFaces :=
  [{| lf_faces := [[0; 1; 2]; [0; 1; 3]]%N; lf_contiguousGIDs := [0%N];
      lf_sharedRanks := []; lf_sharedRanksCounts := [] |};
   {| lf_faces := [[0; 1; 3]; [0; 1; 2]]%N; lf_contiguousGIDs := [1%N];
      lf_sharedRanks := []; lf_sharedRanksCounts := [] |}].

Lemma tri2_view_run : getElementFaces sumHash stl_stable 2 tri2 1 = Some tri2_view.
Proof. vm_compute. reflexivity. Qed.

(** C1 at a concrete input: with two layers on the tetrahedron surface
    both turns of the loop go on the round trip. *)
Lemma ghostFiltering_always_round_trip_witness :
  tetra <> [] /\
  ghostFiltering sumHash stl_stable 2 tetra 2 = Some [CountRoundTrip; CountRoundTrip] /\
  [CountRoundTrip; CountRoundTrip] = repeat CountRoundTrip 2.
Proof.
  assert (H1 : tetra <> []) by discriminate.
  assert (H2 : ghostFiltering sumHash stl_stable 2 tetra 2
               = Some [CountRoundTrip; CountRoundTrip]) by (vm_compute; reflexivity).
  split; [exact H1|]. split; [exact H2|].
  exact (@ghostFiltering_always_round_trip nat sumHash stl_stable 2 tetra 2 _ H1 H2).
Defined.



(** C3 at a concrete input. *)
Lemma repartitionByHash_owner_witness :
  0 < 2 /\ reachable 0 stl_stable sumHash 2 five /\
  exists w', repartitionByHash 0 sumHash stl_stable 2 five = Some w' /\
             hash_partitioned sumHash w'.
Proof.
  assert (H0 : 0 < 2) by lia.
  assert (H1 : reachable 0 stl_stable sumHash 2 five).
  { apply reach_constructed; [repeat constructor|discriminate]. }
  split; [exact H0|]. split; [exact H1|].
  exact (@repartitionByHash_owner nat 0 stl_stable sumHash 2 five H0 H1).
Defined.

(** C5 at a concrete input. *)
Definition metis_ex (r : nat) : list Z :=
  match r with 0 => [1; 0; 1]%Z | _ => [0; 0]%Z end.

Lemma repartition_preserves_rows_witness :
  partitioner_ok metis_ex five /\ data_uniform five /\
  exists w', repartition 0 stl_stable metis_ex five = Some w' /\
             Permutation (allRows 0 w') (allRows 0 five).
Proof.
  assert (H1 : partitioner_ok metis_ex five).
  { intros r m Hr. destruct r as [|[|r]]; simpl in Hr.
    - inversion Hr; subst m. split; [reflexivity|]. simpl. repeat constructor; lia.
    - inversion Hr; subst m. split; [reflexivity|]. simpl. repeat constructor; lia.
    - destruct r; discriminate. }
  assert (H2 : data_uniform five) by discriminate.
  split; [exact H1|]. split; [exact H2|].
  exact (@repartition_preserves_rows nat 0 stl_stable metis_ex five H1 H2).
Defined.




(** C9 on the two triangles, a manifold mesh: one layer is grown, and
    with two layers the run aborts in the second turn (the match of
    line 273 finds no other element). *)
Theorem ghost_growth_aborts_on_manifold :
  manifoldb 2 tri2 = true /\
  getGhostElements sumHash stl_stable 2 tri2 1
  = Some [[[0; 1; 2]; [0; 1; 3]]; [[0; 1; 3]; [0; 1; 2]]]%N /\
  getGhostElements sumHash stl_stable 2 tri2 2 = None.
Proof. repeat split; vm_compute; reflexivity. Qed.

(** C10 at a concrete input. *)
Lemma getElementFaces_owned_first_witness :
  getElementFaces sumHash stl_stable 2 tri2 1 = Some tri2_view /\
  length tri2_view = length tri2 /\
  forall r m lf, nth_error tri2 r = Some m -> nth_error tri2_view r = Some lf ->
    (exists batches, length batches = 1 /\
                     lf_faces lf = elems_ m ++ concat batches /\
                     Forall strictly_sorted batches) /\
    firstn (numElements m) (lf_faces lf) = elems_ m /\
    (forall i e, nth_error (elems_ m) i = Some e ->
       nth_error (lf_faces lf) i = Some e /\
       nth_error (lf_contiguousGIDs lf) i = Some (N.of_nat (gidOffsetOf tri2 r + i))).
Proof.
  split; [exact tri2_view_run|].
  exact (proj1 (@getElementFaces_owned_first nat sumHash stl_stable 2 tri2)
               1 tri2_view tri2_view_run).
Defined.




Definition tri2_edges : list LocalFaces :=
  [{| lf_faces := [[0; 2]; [0; 1]; [1; 2]]%N; lf_contiguousGIDs := [0; 2; 4]%N;
      lf_sharedRanks := [0; 0; 1; 0]; lf_sharedRanksCounts := [1; 2; 1] |};
   {| lf_faces := [[1; 3]; [0; 1]; [0; 3]]%N; lf_contiguousGIDs := [1; 2; 3]%N;
      lf_sharedRanks := [1; 0; 1; 1]; lf_sharedRanksCounts := [1; 2; 1] |}].

Lemma tri2_edges_run :
  getFaces sumHash 1 tri2 (map (@elems_ nat) tri2) = Some tri2_edges.
Proof. vm_compute. reflexivity. Qed.


(** C8 at a concrete input: the edge (0,1) on rank 0. *)
Lemma sharedRanks_symmetric_witness :
  length (map (@elems_ nat) tri2) = length tri2 /\
  getFaces sumHash 1 tri2 (map (@elems_ nat) tri2) = Some tri2_edges /\
  nth_error tri2_edges 0 =
    Some {| lf_faces := [[0; 2]; [0; 1]; [1; 2]]%N; lf_contiguousGIDs := [0; 2; 4]%N;
            lf_sharedRanks := [0; 0; 1; 0]; lf_sharedRanksCounts := [1; 2; 1] |} /\
  nth_error [[0; 2]; [0; 1]; [1; 2]]%N 1 = Some [0; 1]%N /\
  (In 0 [0; 1] /\
   forall p, In p [0; 1] <->
             exists lfp j', nth_error tri2_edges p = Some lfp /\
                            nth_error (lf_faces lfp) j' = Some [0; 1]%N /\
                            In 0 (sharedRanksAt lfp j')).
Proof.
  split; [reflexivity|]. split; [exact tri2_edges_run|]. split; [reflexivity|].
  split; [reflexivity|].
  exact (@sharedRanks_symmetric nat sumHash 1 tri2 (map (@elems_ nat) tri2) tri2_edges
           0 1 _ [0; 1]%N eq_refl tri2_edges_run eq_refl eq_refl).
Defined.

(** * Further facts about the code *)

(** ** [doPartition]: when it returns and where the elements go *)

Lemma sendRest_nil_inv (partition : list Z) (ps : list nat) :
  forall eIt : list nat,
  sendRest partition ps eIt = [] ->
  forall e, In e eIt -> exists p, In p ps /\ (nth e partition 0 <= Z.of_nat p)%Z.
Proof.
  induction ps as [|p ps IH]; intros eIt H e He; simpl in H.
  - subst eIt. contradiction.
  - rewrite <- (takeWhile_dropWhile (fun e => (nth e partition 0 <=? Z.of_nat p)%Z) eIt) in He.
    apply in_app_or in He. destruct He as [He|He].
    + apply takeWhile_In in He. destruct He as [He _]. exists p. split; [now left|lia].
    + destruct (IH _ H e He) as (p' & Hp' & Hle). exists p'. split; [now right|exact Hle].
Qed.

(** The chunk an index of a sorted enumeration lands in: chunk 0 takes
    every target up to the first rank, a later chunk its own target. *)
Lemma sendChunks_dest (partition : list Z) (k p0 : nat) (eIt : list nat) (j i : nat) :
  sorted_by (partition_lt partition) eIt ->
  In i (nth j (sendChunks partition (seq p0 k) eIt) []) ->
  match j with
  | 0 => (nth i partition 0 <= Z.of_nat p0)%Z
  | S _ => nth i partition 0%Z = Z.of_nat (p0 + j)
  end.
Proof.
  intros Hs Hi. destruct k as [|k]; simpl in Hi.
  - destruct j; contradiction.
  - destruct j as [|j].
    + apply takeWhile_In in Hi. destruct Hi as [Hi _]. lia.
    + replace (p0 + S j) with (S p0 + j) by lia.
      eapply sendChunks_target; [| |exact Hi].
      * now apply dropWhile_sorted.
      * intros e He. apply dropWhile_sorted_above in He; [lia|exact Hs].
Qed.

Section PartitionMore.

Variable Row : Type.
Variable unsetRow : Row.
Variable stl : StdLib.

Local Abbreviation Mesh := (GlobalSimplexMesh Row).

Lemma sendable_targets (procs : nat) (arg : Mesh * list Z) :
  sendable stl procs arg ->
  forall t, In t (snd arg) -> (t < Z.of_nat procs)%Z.
Proof.
  intros [_ Hrest] t Ht.
  apply In_nth with (d := 0%Z) in Ht. destruct Ht as (i & Hi & <-).
  assert (Hin : In i (enumerationOf stl (snd arg))).
  { eapply Permutation_in; [symmetry; apply enumerationOf_perm|]. apply in_seq. lia. }
  destruct (sendRest_nil_inv _ _ _ Hrest i Hin) as (p & Hp & Hle).
  apply in_seq in Hp. lia.
Qed.

Lemma targets_sendable (procs : nat) (arg : Mesh * list Z) :
  0 < procs ->
  length (snd arg) = numElements (fst arg) ->
  (forall t, In t (snd arg) -> (t < Z.of_nat procs)%Z) ->
  sendable stl procs arg.
Proof.
  intros Hp E V. split; [exact E|].
  destruct procs as [|k]; [lia|].
  apply sendRest_nil. intros e _. simpl.
  destruct (nth_in_or_default e (snd arg) 0%Z) as [Hin|Hd].
  - specialize (V _ Hin). lia.
  - rewrite Hd. lia.
Qed.

Lemma doPartition_sendable (args : list (Mesh * list Z)) :
  Forall (sendable stl (length args)) args ->
  agreed (map (@hasElementData Row) (map fst args)) <> None ->
  exists w', doPartition unsetRow stl args = Some w'.
Proof.
  intros Hsend Hag. unfold doPartition.
  rewrite (forRanks_map _ (outgoingOf stl (length args))).
  2:{ intros arg Hin. rewrite Forall_forall in Hsend.
      now apply doPartition_local_sendable, Hsend. }
  simpl. rewrite !map_map. simpl.
  rewrite (exchange_outgoing (fun arg i => nth i (elems_ (fst arg)) []) Hsend). simpl.
  destruct (agreed (map (fun x => hasElementData (fst x)) args)) as [hd|] eqn:E.
  2:{ exfalso. apply Hag. now rewrite map_map. }
  simpl. destruct hd; simpl; [|eexists; reflexivity].
  unfold redistributed.
  rewrite (map_combine_maps (fun x : Mesh * list Z => enumerationOf stl (snd x))
                            (fun x : Mesh * list Z => theElementData (fst x))
                            (fun lids dat => map (fun i => nth i dat unsetRow) lids)).
  rewrite (exchange_outgoing (fun arg i => nth i (theElementData (fst arg)) unsetRow) Hsend).
  simpl. eexists. reflexivity.
Qed.

Lemma agreed_cases (bs : list bool) :
  agreed bs <> None <-> (forall x, In x bs -> x = true) \/ (forall x, In x bs -> x = false).
Proof.
  split.
  - destruct (agreed bs) as [b|] eqn:E; [|congruence]. intros _.
    destruct b; [left|right]; exact (agreed_all _ E).
  - intros [H|H]; eapply agreed_const; exact H.
Qed.

(** [doPartition] (lines 157-190) returns exactly when on every rank
    the partition vector has one entry per element (line 161), no
    entry names a rank past the last one (line 181), and the ranks
    agree on having element data (line 187, a collective).  An entry
    below zero is no error. *)
Theorem doPartition_returns_iff (args : list (Mesh * list Z)) :
  (exists w', doPartition unsetRow stl args = Some w') <->
  (forall m partition, In (m, partition) args ->
     length partition = numElements m /\
     forall t, In t partition -> (t < Z.of_nat (length args))%Z) /\
  ((forall m partition, In (m, partition) args -> hasElementData m = true) \/
   (forall m partition, In (m, partition) args -> hasElementData m = false)).
Proof.
  split.
  - intros [w' H]. apply doPartition_inv in H.
    destruct H as (X & hd & Hsend & _ & Hag & _). split.
    + intros m partition Hin. rewrite Forall_forall in Hsend.
      pose proof (Hsend _ Hin) as Hs. split; [apply Hs|].
      exact (sendable_targets Hs).
    + assert (Hne : agreed (map (@hasElementData Row) (map fst args)) <> None) by congruence.
      apply agreed_cases in Hne.
      destruct Hne as [Hc|Hc]; [left|right]; intros m partition Hin; apply Hc;
        apply in_map, (in_map fst _ _ Hin).
  - intros [Hv Hd]. apply doPartition_sendable.
    + apply Forall_forall. intros [m partition] Hin.
      destruct (Hv _ _ Hin) as [E V].
      apply targets_sendable; [|exact E|exact V].
      destruct args; [contradiction|simpl; lia].
    + apply agreed_cases.
      destruct Hd as [Hc|Hc]; [left|right]; intros x Hx;
        apply in_map_iff in Hx; destruct Hx as (m & <- & Hm);
        apply in_map_iff in Hm; destruct Hm as ([m0 partition] & <- & Hin);
        exact (Hc _ _ Hin).
Qed.

Lemma nth_error_map_Some (A B : Type) (f : A -> B) (l : list A) (r : nat) (a : A) :
  nth_error l r = Some a -> nth_error (map f l) r = Some (f a).
Proof. intros H. now rewrite nth_error_map, H. Qed.

Lemma nth_error_combine_Some (A B : Type) (l : list A) (l' : list B) (r : nat) (a : A) (b : B) :
  nth_error l r = Some a -> nth_error l' r = Some b ->
  nth_error (combine l l') r = Some (a, b).
Proof.
  revert l l'. induction r as [|r IH]; intros [|x l] [|y l'] H1 H2; simpl in *;
    try discriminate.
  - congruence.
  - now apply IH.
Qed.

(** Where [doPartition] sends an element: element [i] of a rank, with
    the row attached to it, is afterwards on the rank that its
    partition entry names; an entry below zero counts as rank 0
    (line 175 compares with [<=]). *)
Theorem doPartition_delivers (args : list (Mesh * list Z)) (w' : World Row)
        (q : nat) (m : Mesh) (partition : list Z) (i : nat) :
  doPartition unsetRow stl args = Some w' ->
  nth_error args q = Some (m, partition) -> i < numElements m ->
  exists m', nth_error w' (Z.to_nat (nth i partition 0%Z)) = Some m' /\
             In (rowAt unsetRow m i) (rows unsetRow m').
Proof.
  intros H Hq Hi. apply doPartition_inv in H.
  destruct H as (X & hd & Hsend & HX & Hag & ->).
  assert (Hin : In (m, partition) args) by (eapply nth_error_In; exact Hq).
  assert (Hs : sendable stl (length args) (m, partition)).
  { rewrite Forall_forall in Hsend. exact (Hsend _ Hin). }
  (* the chunk of [i] *)
  assert (Hen : In i (enumerationOf stl partition)).
  { eapply Permutation_in; [symmetry; apply enumerationOf_perm|].
    apply in_seq. destruct Hs as [E _]. simpl in E. lia. }
  change partition with (snd (m, partition)) in Hen.
  rewrite <- (chunksOf_concat Hs) in Hen. apply in_concat in Hen.
  destruct Hen as (ch & Hch & Hich).
  apply In_nth with (d := []) in Hch. destruct Hch as (j & Hj & <-).
  assert (Hjp : j < length args).
  { unfold chunksOf in Hj. now rewrite length_sendChunks, length_seq in Hj. }
  assert (Hr : Z.to_nat (nth i partition 0%Z) = j).
  { pose proof (@sendChunks_dest partition (length args) 0 (enumerationOf stl partition) j i
                  (enumerationOf_sorted stl partition) Hich) as Hd.
    destruct j; simpl in Hd; lia. }
  rewrite Hr.
  (* what rank [j] obtains *)
  pose proof (exchange_outgoing (fun arg : Mesh * list Z => rowAt unsetRow (fst arg)) Hsend)
    as HX'.
  cbv beta in HX'. unfold packed in HX. rewrite HX in HX'. injection HX' as ->.
  set (M := map (fun arg : Mesh * list Z =>
                   map (map (rowAt unsetRow (fst arg)))
                       (chunksOf stl (length args) arg)) args).
  assert (HlM : length M = length args) by (unfold M; apply length_map).
  destruct (nth_error args j) as [[mj pj]|] eqn:Hargj.
  2:{ apply nth_error_None in Hargj. lia. }
  eexists. split.
  - apply nth_error_map_Some. apply nth_error_combine_Some.
    + apply nth_error_map_Some. exact Hargj.
    + apply nth_error_map_Some. unfold transpose.
      rewrite nth_error_map, HlM.
      rewrite (nth_error_nth' _ 0) by now rewrite length_seq.
      rewrite seq_nth by exact Hjp. reflexivity.
  - simpl. rewrite rows_with_elems. apply in_map_iff.
    exists (rowAt unsetRow m i). split.
    + rewrite <- (agreed_all _ Hag (hasElementData m)); [apply retag_rowAt|].
      apply in_map, (in_map fst _ _ Hin).
    + apply in_concat. exists (map (rowAt unsetRow m) (nth j (chunksOf stl (length args) (m, partition)) [])).
      split; [|now apply in_map].
      unfold column. apply in_map_iff.
      exists (map (map (rowAt unsetRow m)) (chunksOf stl (length args) (m, partition))).
      split.
      * change (@nil (Simplex * option Row)) with (map (rowAt unsetRow m) (@nil nat)).
        now rewrite map_nth.
      * unfold M. apply in_map_iff. exists (m, partition). split; [reflexivity|exact Hin].
Qed.

(** *** repartitionByHash moves elements and rows, and keeps them all *)

Variable SimplexHash : Simplex -> N.
Variable D : nat.

Lemma length_repartitionByHash (w w' : World Row) :
  repartitionByHash unsetRow SimplexHash stl D w = Some w' -> length w' = length w.
Proof.
  unfold repartitionByHash.
  destruct (agreed (map (@isPartitionedByHash Row) w)) as [[|]|]; simpl; try discriminate.
  - now intros [= <-].
  - destruct (doPartition _ _ _) as [w''|] eqn:E; simpl; [|discriminate].
    intros [= <-]. rewrite length_map, (@length_doPartition Row unsetRow stl _ _ E).
    apply length_map.
Qed.

Lemma repartitionByHash_rows (w : World Row) :
  0 < D -> data_uniform w -> agreed (map (@isPartitionedByHash Row) w) <> None ->
  exists w', repartitionByHash unsetRow SimplexHash stl D w = Some w' /\
             Permutation (allRows unsetRow w') (allRows unsetRow w).
Proof.
  intros HD Hdu Hfl. unfold repartitionByHash.
  destruct (agreed (map (@isPartitionedByHash Row) w)) as [[|]|] eqn:Hag; [| |congruence]; simpl.
  - exists w. split; [reflexivity|apply Permutation_refl].
  - fold (@hashTargets Row SimplexHash D (length w)).
    destruct (@doPartition_returns Row unsetRow stl (map (@hashTargets Row SimplexHash D (length w)) w))
      as [w'' Hw''].
    + rewrite length_map. apply Forall_map, Forall_forall. intros m Hm.
      apply hashTargets_valid; [exact HD|]. destruct w; [contradiction|simpl; lia].
    + rewrite !map_map. simpl. exact Hdu.
    + rewrite Hw''. simpl. eexists. split; [reflexivity|].
      unfold allRows. rewrite map_map.
      rewrite (map_ext _ (rows unsetRow)) by (intros m; apply rows_set_flag).
      pose proof (@doPartition_rows Row unsetRow stl _ _ Hw'') as Hp.
      replace (map fst (map (@hashTargets Row SimplexHash D (length w)) w)) with w in Hp;
        [exact Hp|].
      rewrite map_map. simpl. now rewrite map_id.
Qed.

(** [repartitionByHash()] (lines 117-130) returns and neither loses
    nor repeats an element or its row: the elements of all ranks,
    each paired with its row, are afterwards a permutation of what
    they were. *)
Theorem repartitionByHash_preserves_rows (w : World Row) :
  0 < D -> data_uniform w -> agreed (map (@isPartitionedByHash Row) w) <> None ->
  exists w', repartitionByHash unsetRow SimplexHash stl D w = Some w' /\
             Permutation (allRows unsetRow w') (allRows unsetRow w).
Proof. apply repartitionByHash_rows. Qed.

End PartitionMore.

(** ** [getFaces]: it returns, and what the local view holds *)

Lemma forRanks_exists (A B : Type) (f : A -> option B) (l : list A) :
  (forall x, In x l -> exists y, f x = Some y) -> exists r, forRanks f l = Some r.
Proof.
  induction l as [|x l IH]; intros H.
  - exists []. reflexivity.
  - destruct (H x) as [y Hy]; [now left|].
    destruct IH as [r Hr]; [intros x' Hx'; apply H; now right|].
    exists (y :: r). unfold forRanks in *. simpl. rewrite Hy. simpl. now rewrite Hr.
Qed.

Lemma insertAt_Some (p : nat) (s : Simplex) (sets : list (list Simplex)) :
  p < length sets -> exists sets', insertAt p s sets = Some sets'.
Proof.
  revert p. induction sets as [|x sets IH]; intros p Hp; simpl in Hp; [lia|].
  destruct p as [|p]; simpl.
  - eexists. reflexivity.
  - destruct (IH p) as [r Hr]; [lia|]. rewrite Hr. simpl. eexists. reflexivity.
Qed.

Lemma StronglySorted_app (A : Type) (R : A -> A -> Prop) (l1 l2 : list A) :
  StronglySorted R l1 -> StronglySorted R l2 ->
  (forall x y, In x l1 -> In y l2 -> R x y) ->
  StronglySorted R (l1 ++ l2).
Proof.
  intros H1 H2 H. induction H1 as [|x l1 Hs IH Hx]; simpl; [exact H2|].
  constructor.
  - apply IH. intros a b Ha Hb. apply H; [now right|exact Hb].
  - apply Forall_app. split; [exact Hx|].
    apply Forall_forall. intros y Hy. apply H; [now left|exact Hy].
Qed.

Lemma StronglySorted_nth_error (A : Type) (R : A -> A -> Prop) (l : list A) :
  StronglySorted R l ->
  forall i j x y, i < j -> nth_error l i = Some x -> nth_error l j = Some y -> R x y.
Proof.
  induction 1 as [|a l Hs IH Ha]; intros i j x y Hij Hi Hj.
  - destruct i; discriminate.
  - destruct j as [|j]; [lia|]. simpl in Hj. destruct i as [|i]; simpl in Hi.
    + injection Hi as <-. rewrite Forall_forall in Ha. apply Ha.
      eapply nth_error_In. exact Hj.
    + apply (IH i j); [lia|exact Hi|exact Hj].
Qed.

Lemma StronglySorted_impl (A : Type) (R R' : A -> A -> Prop) (l : list A) :
  (forall x y, In x l -> In y l -> R x y -> R' x y) ->
  StronglySorted R l -> StronglySorted R' l.
Proof.
  intros H Hs. induction Hs as [|a l Hs IH Ha]; constructor.
  - apply IH. intros x y Hx Hy. apply H; now right.
  - rewrite Forall_forall in *. intros y Hy. apply H; [now left|now right|now apply Ha].
Qed.

(** Chunks laid out one after the other, each sorted and each with a
    key of its own. *)
Lemma concat_chunks_sorted (A : Type) (key : A -> nat) (lt : A -> A -> Prop)
      (F : nat -> list A) (n : nat) :
  (forall p, StronglySorted lt (F p)) ->
  (forall p x, In x (F p) -> key x = p) ->
  forall a,
  StronglySorted (fun x y => key x < key y \/ (key x = key y /\ lt x y))
                 (concat (map F (seq a n))).
Proof.
  intros Hs Hk. induction n as [|n IH]; intros a; simpl; [constructor|].
  apply StronglySorted_app.
  - eapply StronglySorted_impl; [|apply Hs]. intros x y Hx Hy Hlt.
    right. split; [|exact Hlt]. now rewrite (Hk _ _ Hx), (Hk _ _ Hy).
  - apply IH.
  - intros x y Hx Hy. left. apply in_concat in Hy. destruct Hy as (l & Hl & Hy).
    apply in_map_iff in Hl. destruct Hl as (p & <- & Hp). apply in_seq in Hp.
    rewrite (Hk _ _ Hx), (Hk _ _ Hy). lia.
Qed.

Lemma exscan_S (sizes : list nat) (p : nat) :
  exscan sizes (S p) = exscan sizes p + nth p sizes 0.
Proof. apply list_sum_firstn_S. Qed.

Lemma exscan_total (sizes : list nat) (p : nat) :
  length sizes <= p -> exscan sizes p = list_sum sizes.
Proof. intros H. unfold exscan. now rewrite firstn_all2. Qed.

Lemma exscan_below (sizes : list nat) (p i : nat) :
  i < nth p sizes 0 -> exscan sizes p + i < list_sum sizes.
Proof.
  intros Hi.
  assert (H : exscan sizes (S p) <= list_sum sizes).
  { rewrite <- (exscan_total sizes (p := S p + length sizes)) by lia.
    apply exscan_le. lia. }
  rewrite exscan_S in H. lia.
Qed.

Lemma exscan_split (sizes : list nat) (k : nat) :
  k < list_sum sizes ->
  exists p i, p < length sizes /\ i < nth p sizes 0 /\ k = exscan sizes p + i.
Proof.
  revert k. induction sizes as [|s sizes IH]; intros k Hk; simpl in Hk; [lia|].
  destruct (Nat.lt_ge_cases k s) as [Hlt|Hge].
  - exists 0, k. simpl. repeat split; [lia|exact Hlt].
  - destruct (IH (k - s)) as (p & i & Hp & Hi & E); [lia|].
    exists (S p), i. simpl. split; [lia|]. split; [exact Hi|].
    unfold exscan in *. simpl. lia.
Qed.

Lemma NoDup_concat_chunks (A : Type) (key : A -> nat) (F : nat -> list A) (n : nat) :
  (forall p, NoDup (F p)) ->
  (forall p x, In x (F p) -> key x = p) ->
  forall a, NoDup (concat (map F (seq a n))).
Proof.
  intros Hnd Hk. induction n as [|n IH]; intros a; simpl; [constructor|].
  apply NoDup_app; [apply Hnd|apply IH|].
  intros x Hx Hy. apply in_concat in Hy. destruct Hy as (l & Hl & Hy).
  apply in_map_iff in Hl. destruct Hl as (p & <- & Hp). apply in_seq in Hp.
  pose proof (Hk _ _ Hx). pose proof (Hk _ _ Hy). lia.
Qed.

Section FacesMore.

Variable Row : Type.
Variable SimplexHash : Simplex -> N.

Local Abbreviation Mesh := (GlobalSimplexMesh Row).

(** [getPlex2Rank] (lines 384-397) names a rank of the communicator
    whenever it hashes (line 395) or takes the id modulo the number of
    ranks (line 393). *)
Lemma getPlex2Rank_lt (DD procs : nat) (m : Mesh) (plex : Simplex) :
  0 < procs -> 0 < DD \/ vtxdist m = [] ->
  getPlex2Rank SimplexHash DD procs m plex < procs.
Proof.
  intros Hp H. unfold getPlex2Rank.
  assert (Hmod : forall x : N, N.to_nat (x mod N.of_nat procs) < procs).
  { intros x. assert (Hlt : (x mod N.of_nat procs < N.of_nat procs)%N) by (apply N.mod_lt; lia).
    revert Hlt. generalize (x mod N.of_nat procs)%N. intros y Hlt. lia. }
  destruct DD as [|d]; [|apply Hmod].
  destruct H as [H|H]; [lia|]. rewrite H. simpl. apply Hmod.
Qed.

Lemma requiredFaces_fold_Some (DD procs : nat) (m : Mesh) (todo : list Simplex) :
  forall acc : list (list Simplex),
  length acc = procs ->
  (forall f, In f todo -> getPlex2Rank SimplexHash DD procs m f < procs) ->
  exists R,
    fold_left (fun acc s => sets <- acc ;;
                            insertAt (getPlex2Rank SimplexHash DD procs m s) s sets)
              todo (Some acc) = Some R.
Proof.
  induction todo as [|s todo IH]; intros acc Hlen H; simpl.
  - now exists acc.
  - destruct (@insertAt_Some (getPlex2Rank SimplexHash DD procs m s) s acc) as [acc' Ha].
    + rewrite Hlen. apply H. now left.
    + rewrite Ha. apply IH.
      * apply insertAt_inv in Ha. destruct Ha as (_ & L & _). lia.
      * intros f Hf. apply H. now right.
Qed.

Lemma requiredFaces_returns (DD procs : nat) (m : Mesh) (es : list Simplex) :
  0 < procs -> 0 < DD \/ vtxdist m = [] ->
  exists R, requiredFaces SimplexHash DD procs m es = Some R.
Proof.
  intros Hp H. unfold requiredFaces. apply requiredFaces_fold_Some.
  - apply repeat_length.
  - intros f _. now apply getPlex2Rank_lt.
Qed.

Lemma chunksFor_of_forRanks (DD : nat) (w : World Row) (elems : list (list Simplex))
      (R : list (list (list Simplex))) :
  length elems = length w ->
  forRanks (fun '(m, es) => requiredFaces SimplexHash DD (length w) m es) (combine w elems)
  = Some R ->
  chunksFor SimplexHash DD w elems R.
Proof.
  intros Hlen HR. split.
  - apply length_forRanks in HR. rewrite length_combine in HR. lia.
  - intros q Hq.
    destruct (nth_error R q) as [row|] eqn:Hrow.
    2:{ apply nth_error_None in Hrow. apply length_forRanks in HR.
        rewrite length_combine in HR. lia. }
    destruct (nth_error_forRanks _ _ _ HR Hrow) as ([m es] & Hc & Hr).
    apply nth_error_combine in Hc. destruct Hc as [Hm Hes].
    exists m, es. repeat split; auto.
    now rewrite (nth_error_nth _ _ [] Hrow).
Qed.


(** The chunks of one rank. *)
Lemma chunk_spec (DD : nat) (w : World Row) (elems : list (list Simplex))
      (R : list (list (list Simplex))) (q : nat) (m : Mesh) (es : list Simplex) :
  chunksFor SimplexHash DD w elems R ->
  nth_error w q = Some m -> nth_error elems q = Some es ->
  (forall p, strictly_sorted (nth p (nth q R []) [])) /\
  (forall p f, In f (nth p (nth q R []) []) <->
               In f (concat (map (downward DD) es)) /\
               getPlex2Rank SimplexHash DD (length w) m f = p).
Proof.
  intros [Hlen H] Hm Hes.
  destruct (H q) as (m' & es' & Hm' & Hes' & Hr).
  { apply nth_error_Some. congruence. }
  assert (m' = m) by congruence. assert (es' = es) by congruence. subst m' es'.
  apply requiredFaces_inv in Hr. destruct Hr as (_ & S1 & S2). now split.
Qed.

Lemma view_faces_of_chunks (DD : nat) (w : World Row) (elems : list (list Simplex))
      (R : list (list (list Simplex))) (q : nat) (m : Mesh) (es : list Simplex) (f : Simplex) :
  chunksFor SimplexHash DD w elems R ->
  nth_error w q = Some m -> nth_error elems q = Some es ->
  In f (lf_faces (viewOf DD R q)) <-> In f (concat (map (downward DD) es)).
Proof.
  intros HC Hm Hes. destruct (@chunk_spec DD w elems R q m es HC Hm Hes) as [_ M].
  assert (Hq : q < length R).
  { destruct HC as [-> _]. apply nth_error_Some. congruence. }
  simpl. rewrite in_concat. split.
  - intros (l & Hl & Hf). apply in_map_iff in Hl. destruct Hl as (p & <- & _).
    now apply M in Hf.
  - intros Hf. exists (nth (getPlex2Rank SimplexHash DD (length w) m f) (nth q R []) []).
    split.
    + apply in_map_iff. exists (getPlex2Rank SimplexHash DD (length w) m f).
      split; [reflexivity|]. apply in_seq. split; [lia|]. simpl.
      assert (Hin : In f (nth (getPlex2Rank SimplexHash DD (length w) m f) (nth q R []) []))
        by now apply M.
      destruct (Nat.lt_ge_cases (getPlex2Rank SimplexHash DD (length w) m f) (length R))
        as [Hlt|Hge]; [exact Hlt|].
      rewrite (nth_overflow (nth q R [])) in Hin; [contradiction|].
      rewrite (square_nth (chunksFor_square HC) Hq). exact Hge.
    + now apply M.
Qed.

(** The face list of a local view (lines 412-431): it holds the
    [DD]-faces of the rank's elements, each once, in the order of
    their owners and, for one owner, in ascending order. *)
Theorem getFaces_lists_each_face_once (DD : nat) (w : World Row) (elems : list (list Simplex))
        (lfs : list LocalFaces) (q : nat) (m : Mesh) (es : list Simplex) (lf : LocalFaces) :
  length elems = length w ->
  getFaces SimplexHash DD w elems = Some lfs ->
  nth_error w q = Some m -> nth_error elems q = Some es -> nth_error lfs q = Some lf ->
  (forall f, In f (lf_faces lf) <-> exists e, In e es /\ In f (downward DD e)) /\
  NoDup (lf_faces lf) /\
  (forall i j fi fj,
     i < j -> nth_error (lf_faces lf) i = Some fi -> nth_error (lf_faces lf) j = Some fj ->
     getPlex2Rank SimplexHash DD (length w) m fi < getPlex2Rank SimplexHash DD (length w) m fj \/
     (getPlex2Rank SimplexHash DD (length w) m fi = getPlex2Rank SimplexHash DD (length w) m fj /\
      simplex_ltb fi fj = true)).
Proof.
  intros Hlen H Hm Hes Hlf. apply getFaces_inv in H; [|exact Hlen].
  destruct H as (R & HC & ->).
  apply nth_error_views in Hlf. destruct Hlf as [Hq ->].
  destruct (@chunk_spec DD w elems R q m es HC Hm Hes) as [S1 M].
  assert (Hsorted : StronglySorted
            (fun x y => getPlex2Rank SimplexHash DD (length w) m x
                        < getPlex2Rank SimplexHash DD (length w) m y \/
                        (getPlex2Rank SimplexHash DD (length w) m x
                         = getPlex2Rank SimplexHash DD (length w) m y /\
                         simplex_ltb x y = true))
            (lf_faces (viewOf DD R q))).
  { simpl. apply (@concat_chunks_sorted _ (getPlex2Rank SimplexHash DD (length w) m)
                    (fun x y => simplex_ltb x y = true)
                    (fun p => nth p (nth q R []) [])).
    - exact S1.
    - intros p x Hx. now apply M in Hx. }
  split; [|split].
  - intros f. rewrite (@view_faces_of_chunks DD w elems R q m es f HC Hm Hes), in_concat. split.
    + intros (l & Hl & Hf). apply in_map_iff in Hl. destruct Hl as (e & <- & He).
      now exists e.
    + intros (e & He & Hf). exists (downward DD e). split; [now apply in_map|exact Hf].
  - apply NoDup_nth_error. intros i j Hi E.
    destruct (nth_error (lf_faces (viewOf DD R q)) i) as [fi|] eqn:Ei.
    2:{ apply nth_error_None in Ei. lia. }
    symmetry in E.
    destruct (Nat.lt_trichotomy i j) as [Hlt|[Heq|Hgt]]; [|exact Heq|]; exfalso.
    + pose proof (StronglySorted_nth_error Hsorted Hlt Ei E) as [Hr|[_ Hr]]; [lia|].
      now rewrite simplex_ltb_irrefl in Hr.
    + pose proof (StronglySorted_nth_error Hsorted Hgt E Ei) as [Hr|[_ Hr]]; [lia|].
      now rewrite simplex_ltb_irrefl in Hr.
  - intros i j fi fj Hij Hi Hj. exact (StronglySorted_nth_error Hsorted Hij Hi Hj).
Qed.

(** *** The shared-ranks table *)

Lemma In_sharedOf (R : list (list (list Simplex))) (q : nat) (x : list nat) :
  In x (sharedOf R q) ->
  exists p f, In f (nth p (nth q R []) []) /\ x = infoOf R p f.
Proof.
  unfold sharedOf. intros H. apply in_concat in H. destruct H as (l & Hl & Hx).
  apply in_map_iff in Hl. destruct Hl as (p & <- & _).
  apply in_map_iff in Hx. destruct Hx as (f & <- & Hf). now exists p, f.
Qed.

(** The table that [setSharedRanks] receives (lines 528-549) is well
    formed: one count per face of the local list, every count at
    least one, and the counts add up to the length of the flat list
    of ranks. *)
Theorem sharedRanks_table_shape (DD : nat) (w : World Row) (elems : list (list Simplex))
        (lfs : list LocalFaces) (lf : LocalFaces) :
  length elems = length w ->
  getFaces SimplexHash DD w elems = Some lfs -> In lf lfs ->
  length (lf_sharedRanksCounts lf) = length (lf_faces lf) /\
  list_sum (lf_sharedRanksCounts lf) = length (lf_sharedRanks lf) /\
  Forall (fun c => 1 <= c) (lf_sharedRanksCounts lf).
Proof.
  intros Hlen H Hlf. apply getFaces_inv in H; [|exact Hlen].
  destruct H as (R & HC & ->).
  apply in_map_iff in Hlf. destruct Hlf as (q & <- & Hq). apply in_seq in Hq.
  simpl. rewrite countsOfShared_lengths. split; [|split].
  - rewrite length_map. unfold sharedOf. apply length_aligned.
  - now rewrite length_concat.
  - apply Forall_map, Forall_forall. intros x Hx.
    apply In_sharedOf in Hx. destruct Hx as (p & f & Hf & ->).
    assert (Hin : In q (infoOf R p f)) by (apply In_infoOf; split; [lia|exact Hf]).
    destruct (infoOf R p f); [contradiction|simpl; lia].
Qed.

Lemma getPlex2Rank_vtxdist (DD procs : nat) (m m' : Mesh) (f : Simplex) :
  vtxdist m = vtxdist m' ->
  getPlex2Rank SimplexHash DD procs m f = getPlex2Rank SimplexHash DD procs m' f.
Proof. intros E. unfold getPlex2Rank. now rewrite E. Qed.

(** What [getSharedRanks] (lines 509-550) stores for a face: the
    ranks, in ascending order and each once, whose elements have the
    face; nothing more and nothing less.  (All ranks hold the same
    vertex distribution, as the constructor leaves it.) *)
Theorem sharedRanks_exact (DD : nat) (w : World Row) (elems : list (list Simplex))
        (lfs : list LocalFaces) (q j : nat) (lfq : LocalFaces) (f : Simplex) :
  length elems = length w ->
  (forall m m', In m w -> In m' w -> vtxdist m = vtxdist m') ->
  getFaces SimplexHash DD w elems = Some lfs ->
  nth_error lfs q = Some lfq -> nth_error (lf_faces lfq) j = Some f ->
  sharedRanksAt lfq j =
  filter (fun p => existsb (simplex_eqb f) (concat (map (downward DD) (nth p elems []))))
         (seq 0 (length w)).
Proof.
  intros Hlen Hv H Hq Hj. apply getFaces_inv in H; [|exact Hlen].
  destruct H as (R & HC & ->).
  apply nth_error_views in Hq. destruct Hq as [Hq ->].
  destruct (viewOf_face _ _ _ _ Hj) as (p0 & Hp0 & Hf & Hs & _).
  rewrite Hs. unfold infoOf.
  assert (HlR : length R = length w) by apply HC. rewrite HlR.
  destruct (proj2 HC q) as (m & es & Hm & Hes & _); [lia|].
  destruct (@chunk_spec DD w elems R q m es HC Hm Hes) as [_ M].
  apply M in Hf. destruct Hf as [_ Hown].
  apply filter_ext_in. intros q' Hq'. apply in_seq in Hq'.
  destruct (proj2 HC q') as (m' & es' & Hm' & Hes' & _); [lia|].
  destruct (@chunk_spec DD w elems R q' m' es' HC Hm' Hes') as [_ M'].
  rewrite (nth_error_nth _ _ [] Hes').
  apply Bool.eq_iff_eq_true. rewrite !existsb_exists. split.
  - intros (x & Hx & E). exists x. split; [|exact E]. now apply M' in Hx.
  - intros (x & Hx & E). exists x. split; [|exact E].
    apply simplex_eqb_eq in E. subst x. apply M'. split; [exact Hx|].
    rewrite <- Hown. apply getPlex2Rank_vtxdist.
    apply Hv; eapply nth_error_In; eassumption.
Qed.

(** *** The ids of the faces are contiguous *)

Lemma owned_owner (d : nat) (w : World Row) (elems : list (list Simplex))
      (R : list (list (list Simplex))) (p : nat) (f : Simplex) :
  chunksFor SimplexHash (S d) w elems R -> In f (ownedOf R p) ->
  N.to_nat (SimplexHash f mod N.of_nat (length w)) = p.
Proof.
  intros HC Hf. apply ownedFaces_In, In_requestedOf in Hf. destruct Hf as (q & Hq & Hf).
  destruct (@chunk_faces Row SimplexHash (S d) w elems R q p f HC Hq Hf)
    as (m & es & _ & _ & _ & Ho).
  exact Ho.
Qed.

Lemma In_owned_lt (d : nat) (w : World Row) (elems : list (list Simplex))
      (R : list (list (list Simplex))) (p : nat) (f : Simplex) :
  chunksFor SimplexHash (S d) w elems R -> In f (ownedOf R p) -> p < length R.
Proof.
  intros HC Hf. apply ownedFaces_In, In_requestedOf in Hf. destruct Hf as (q & Hq & Hf).
  destruct (Nat.lt_ge_cases p (length R)) as [Hlt|Hge]; [exact Hlt|].
  rewrite (nth_overflow (nth q R [])) in Hf; [contradiction|].
  now rewrite (square_nth (chunksFor_square HC) Hq).
Qed.

Lemma distinct_faces_count (d : nat) (w : World Row) (elems : list (list Simplex))
      (R : list (list (list Simplex))) :
  chunksFor SimplexHash (S d) w elems R ->
  length (nodup (list_eq_dec N.eq_dec)
                (map fst (gidPairs (map (viewOf (S d) R) (seq 0 (length R))))))
  = list_sum (ownedSizes R).
Proof.
  intros HC.
  transitivity (length (concat (map (ownedOf R) (seq 0 (length R))))).
  2:{ rewrite length_concat, map_map. reflexivity. }
  apply Permutation_length, NoDup_Permutation.
  - apply NoDup_nodup.
  - apply (@NoDup_concat_chunks _ (fun f => N.to_nat (SimplexHash f mod N.of_nat (length w)))).
    + intros p. apply strictly_sorted_NoDup, ownedFaces_sorted.
    + intros p x Hx. eapply owned_owner; eassumption.
  - intros f. rewrite nodup_In, in_map_iff, in_concat. split.
    + intros ([f' g] & E & Hfg). simpl in E. subst f'.
      apply gidPairs_views in Hfg. destruct Hfg as (q & p & Hq & Hp & Hf & _).
      exists (ownedOf R p). split.
      * apply in_map_iff. exists p. split; [reflexivity|]. apply in_seq. lia.
      * apply ownedFaces_In, In_requestedOf. now exists q.
    + intros (l & Hl & Hf). apply in_map_iff in Hl. destruct Hl as (p & <- & Hp).
      apply in_seq in Hp.
      apply ownedFaces_In, In_requestedOf in Hf. destruct Hf as (q & Hq & Hf).
      destruct (@In_gidPairs_views (S d) R q p f Hq) as [g Hg]; [lia|exact Hf|].
      now exists (f, g).
Qed.

(** Above dimension 0 the ids that [getContiguousGIDs] (lines 481-502)
    hands out are the numbers from 0 up to the number of distinct
    faces of all ranks: every id is below that number, and every
    number below it is the id of a face. *)
Theorem contiguousGIDs_dense (d : nat) (w : World Row) (elems : list (list Simplex))
        (lfs : list LocalFaces) :
  length elems = length w ->
  getFaces SimplexHash (S d) w elems = Some lfs ->
  (forall f g, In (f, g) (gidPairs lfs) ->
     (g < N.of_nat (length (nodup (list_eq_dec N.eq_dec) (map fst (gidPairs lfs)))))%N) /\
  (forall k, k < length (nodup (list_eq_dec N.eq_dec) (map fst (gidPairs lfs))) ->
     exists f, In (f, N.of_nat k) (gidPairs lfs)).
Proof.
  intros Hlen H. apply getFaces_inv in H; [|exact Hlen].
  destruct H as (R & HC & ->).
  rewrite (distinct_faces_count HC). split.
  - intros f g Hfg. apply gidPairs_views in Hfg.
    destruct Hfg as (q & p & Hq & Hp & Hf & ->).
    destruct (@gidOf_index d R q p f Hq Hf) as (i & Hi & ->).
    assert (Hlt : exscan (ownedSizes R) p + i < list_sum (ownedSizes R)).
    { apply exscan_below. rewrite nth_ownedSizes by exact Hp.
      apply nth_error_Some. congruence. }
    lia.
  - intros k Hk. apply exscan_split in Hk. destruct Hk as (p & i & Hp & Hi & ->).
    unfold ownedSizes in Hp. rewrite length_map, length_seq in Hp.
    rewrite nth_ownedSizes in Hi by exact Hp.
    destruct (nth_error (ownedOf R p) i) as [f|] eqn:Ef.
    2:{ apply nth_error_None in Ef. lia. }
    exists f.
    assert (Hin : In f (ownedOf R p)) by (eapply nth_error_In; exact Ef).
    pose proof (@owned_owner d w elems R p f HC Hin) as Hown.
    apply ownedFaces_In, In_requestedOf in Hin. destruct Hin as (q & Hq & Hf).
    destruct (@In_gidPairs_views (S d) R q p f Hq Hp Hf) as [g Hg].
    pose proof Hg as Hg'. apply gidPairs_views in Hg'.
    destruct Hg' as (q' & p' & Hq' & Hp' & Hf' & ->).
    destruct (@chunk_faces Row SimplexHash (S d) w elems R q' p' f HC Hq' Hf')
      as (m' & es' & _ & _ & _ & Ho').
    simpl in Ho'. assert (p' = p) by congruence. subst p'.
    destruct (@gidOf_index d R q p f Hq Hf) as (i' & Hi' & E).
    assert (i' = i).
    { assert (Hnd : NoDup (ownedOf R p)) by apply strictly_sorted_NoDup, ownedFaces_sorted.
      rewrite NoDup_nth_error in Hnd. apply Hnd; [|congruence].
      apply nth_error_Some. congruence. }
    subst i'. rewrite Hown in Hg. rewrite <- E. exact Hg.
Qed.

End FacesMore.

(** ** [getBoundaryFaces]: the faces with one local witness *)

(** Lines 291-297: what is emplaced into the upward map, the faces
    of every local element with the number of the element. *)
Definition upwardEntries (D : nat) (elems : list Simplex) : list (Simplex * nat) :=
  concat (map (fun '(elNo, e) => map (fun s => (s, elNo)) (downward (D - 1) e))
              (combine (seq 0 (length elems)) elems)).

Lemma filter_perm (A : Type) (P : A -> bool) (l l' : list A) :
  Permutation l l' -> Permutation (filter P l) (filter P l').
Proof.
  induction 1 as [|x l l' H IH|x y l|l l' l'' H1 IH1 H2 IH2]; simpl.
  - constructor.
  - destruct (P x); [now constructor|exact IH].
  - destruct (P x), (P y); try apply Permutation_refl. apply perm_swap.
  - eapply Permutation_trans; eassumption.
Qed.

Lemma countKey_perm (A : Type) (k : Simplex) (l l' : list (Simplex * A)) :
  Permutation l l' -> countKey k l = countKey k l'.
Proof. intros H. unfold countKey. apply Permutation_length. now apply filter_perm. Qed.

Lemma countKey_cons (A : Type) (k : Simplex) (u : Simplex * A) (l : list (Simplex * A)) :
  countKey k (u :: l) = (if simplex_eqb (fst u) k then 1 else 0) + countKey k l.
Proof. unfold countKey. simpl. now destruct (simplex_eqb (fst u) k). Qed.

Lemma countKey_app (A : Type) (k : Simplex) (l l' : list (Simplex * A)) :
  countKey k (l ++ l') = countKey k l + countKey k l'.
Proof. unfold countKey. now rewrite filter_app, length_app. Qed.

Lemma simplex_eqb_neq (a b : Simplex) : simplex_eqb a b = false <-> a <> b.
Proof.
  split.
  - intros H E. apply simplex_eqb_eq in E. congruence.
  - intros H. destruct (simplex_eqb a b) eqn:E; [|reflexivity].
    apply simplex_eqb_eq in E. contradiction.
Qed.

Lemma simplex_eqb_sym (a b : Simplex) : simplex_eqb a b = simplex_eqb b a.
Proof.
  destruct (simplex_eqb a b) eqn:E.
  - apply simplex_eqb_eq in E. subst. symmetry. apply simplex_eqb_refl.
  - symmetry. apply simplex_eqb_neq. apply simplex_eqb_neq in E. congruence.
Qed.

Lemma countKey_eraseKey (A : Type) (k k' : Simplex) (l : list (Simplex * A)) :
  countKey k (eraseKey k' l) = if simplex_eqb k' k then 0 else countKey k l.
Proof.
  induction l as [|u l IH]; simpl.
  - now destruct (simplex_eqb k' k).
  - unfold eraseKey in *. simpl. destruct (simplex_eqb (fst u) k') eqn:E; simpl.
    + rewrite IH. apply simplex_eqb_eq in E. subst k'.
      rewrite countKey_cons. now destruct (simplex_eqb (fst u) k).
    + rewrite !countKey_cons, IH.
      destruct (simplex_eqb k' k) eqn:E'; [|reflexivity].
      apply simplex_eqb_eq in E'. subst k'. now rewrite E.
Qed.

Lemma length_eraseKey (A : Type) (k : Simplex) (l : list (Simplex * A)) :
  length (eraseKey k l) + countKey k l = length l.
Proof.
  unfold eraseKey, countKey. rewrite Nat.add_comm. apply filter_length.
Qed.

Lemma countKey_In (A : Type) (k : Simplex) (l : list (Simplex * A)) :
  0 < countKey k l <-> In k (map fst l).
Proof.
  induction l as [|u l IH]; simpl; [unfold countKey; simpl; lia|].
  rewrite countKey_cons. destruct (simplex_eqb (fst u) k) eqn:E.
  - apply simplex_eqb_eq in E. split; [now left|lia].
  - apply simplex_eqb_neq in E. rewrite IH. simpl. tauto.
Qed.

Lemma filter_filter_and (A : Type) (P Q : A -> bool) (l : list A) :
  filter P (filter Q l) = filter (fun x => Q x && P x) l.
Proof.
  induction l as [|x l IH]; simpl; [reflexivity|].
  destruct (Q x); simpl; [destruct (P x)|]; now rewrite IH.
Qed.

Lemma deleteInternalFaces_step (fuel : nat) (u : Simplex * nat) (rest : list (Simplex * nat)) :
  deleteInternalFaces (S fuel) (u :: rest) =
  (_ <- assert (countKey (fst u) (u :: rest) <=? 2) ;;
   if 1 <? countKey (fst u) (u :: rest)
   then deleteInternalFaces fuel (eraseKey (fst u) (u :: rest))
   else r <- deleteInternalFaces fuel rest ;; Some (u :: r)).
Proof. reflexivity. Qed.

Lemma countKey_head (u : Simplex * nat) (rest : list (Simplex * nat)) :
  countKey (fst u) (u :: rest) = S (countKey (fst u) rest).
Proof. now rewrite countKey_cons, simplex_eqb_refl. Qed.

(** [deleteInternalFaces] (lines 299-310) keeps the entries whose key
    stands once in the map. *)
Lemma deleteInternalFaces_ok (fuel : nat) :
  forall it : list (Simplex * nat),
  length it <= fuel -> (forall k, countKey k it <= 2) ->
  deleteInternalFaces fuel it = Some (filter (fun u => countKey (fst u) it =? 1) it).
Proof.
  induction fuel as [|fuel IH]; intros it Hlen Hc.
  - destruct it; [reflexivity|simpl in Hlen; lia].
  - destruct it as [|u rest]; [reflexivity|].
    rewrite deleteInternalFaces_step.
    pose proof (Hc (fst u)) as Hu. rewrite countKey_head in Hu.
    rewrite countKey_head.
    replace (S (countKey (fst u) rest) <=? 2) with true by (symmetry; apply Nat.leb_le; lia).
    cbn [bind assert].
    destruct (1 <? S (countKey (fst u) rest)) eqn:E.
    + apply Nat.ltb_lt in E.
      rewrite IH.
      * f_equal. unfold eraseKey. rewrite filter_filter_and.
        apply filter_ext. intros v.
        fold (eraseKey (fst u) (u :: rest)). rewrite countKey_eraseKey.
        rewrite (simplex_eqb_sym (fst u) (fst v)).
        destruct (simplex_eqb (fst v) (fst u)) eqn:Ev; simpl; [|reflexivity].
        apply simplex_eqb_eq in Ev. rewrite Ev, countKey_head.
        symmetry. apply Nat.eqb_neq. lia.
      * pose proof (length_eraseKey (fst u) (u :: rest)) as L.
        rewrite countKey_head in L.
        change (length (u :: rest)) with (S (length rest)) in *. lia.
      * intros k. rewrite countKey_eraseKey.
        destruct (simplex_eqb (fst u) k); [lia|apply Hc].
    + apply Nat.ltb_ge in E.
      assert (H0 : countKey (fst u) rest = 0) by lia.
      rewrite IH.
      * cbn [bind assert]. cbn [filter]. rewrite countKey_head, H0. simpl. do 2 f_equal.
        apply filter_ext_in. intros v Hv. rewrite countKey_cons.
        destruct (simplex_eqb (fst u) (fst v)) eqn:Ev; [|reflexivity].
        apply simplex_eqb_eq in Ev. exfalso.
        assert (0 < countKey (fst u) rest); [|lia].
        apply countKey_In. rewrite Ev. now apply in_map.
      * simpl in Hlen. lia.
      * intros k. specialize (Hc k). rewrite countKey_cons in Hc. lia.
Qed.

(** A key that stands more than twice makes the assertion of line 302
    fire. *)
Lemma deleteInternalFaces_abort (fuel : nat) :
  forall it : list (Simplex * nat),
  (exists k, 2 < countKey k it) -> deleteInternalFaces fuel it = None.
Proof.
  induction fuel as [|fuel IH]; intros it [k Hk].
  - destruct it; [|reflexivity]. unfold countKey in Hk. simpl in Hk. lia.
  - destruct it as [|u rest]; [unfold countKey in Hk; simpl in Hk; lia|].
    rewrite deleteInternalFaces_step.
    destruct (countKey (fst u) (u :: rest) <=? 2) eqn:E2; [|reflexivity].
    apply Nat.leb_le in E2. cbn [bind assert].
    assert (Hne : simplex_eqb (fst u) k = false).
    { apply simplex_eqb_neq. intros <-. lia. }
    destruct (1 <? countKey (fst u) (u :: rest)).
    + apply IH. exists k. now rewrite countKey_eraseKey, Hne.
    + rewrite IH; [reflexivity|]. exists k. rewrite countKey_cons, Hne in Hk. exact Hk.
Qed.

Lemma keys_NoDup (A : Type) (l : list (Simplex * A)) :
  (forall k, countKey k l <= 1) -> NoDup (map fst l).
Proof.
  induction l as [|u l IH]; intros H; simpl; constructor.
  - intros Hin. apply countKey_In in Hin.
    specialize (H (fst u)). rewrite countKey_cons, simplex_eqb_refl in H. lia.
  - apply IH. intros k. specialize (H k). rewrite countKey_cons in H. lia.
Qed.

Lemma countKey_filter_le (A : Type) (P : Simplex * A -> bool) (k : Simplex)
      (l : list (Simplex * A)) :
  countKey k (filter P l) <= countKey k l.
Proof.
  induction l as [|x l IH]; simpl; [lia|].
  destruct (P x); rewrite !countKey_cons; lia.
Qed.

Section BoundaryFaces.

Variable stl : StdLib.
Variable D : nat.

(** How many local elements have the face (an element that holds a
    face twice counts twice). *)
Definition localWitnesses (elems : list Simplex) (f : Simplex) : nat :=
  countKey f (upwardEntries D elems).

Lemma localWitnesses_uorder (elems : list Simplex) (k : Simplex) :
  countKey k (uorder stl (upwardEntries D elems)) = localWitnesses elems k.
Proof. apply countKey_perm, uorder_perm. Qed.

(** The entries that [getBoundaryFaces] returns. *)
Definition boundaryEntries (elems : list Simplex) : list (Simplex * nat) :=
  filter (fun u => localWitnesses elems (fst u) =? 1) (uorder stl (upwardEntries D elems)).

Lemma getBoundaryFaces_ok (elems : list Simplex) :
  (forall f, localWitnesses elems f <= 2) ->
  getBoundaryFaces stl D elems = Some (boundaryEntries elems).
Proof.
  intros Hall. unfold getBoundaryFaces. fold (upwardEntries D elems).
  rewrite deleteInternalFaces_ok.
  - f_equal. apply filter_ext. intros u. now rewrite localWitnesses_uorder.
  - lia.
  - intros k. rewrite localWitnesses_uorder. apply Hall.
Qed.

Lemma getBoundaryFaces_None (elems : list Simplex) :
  (exists f, 2 < localWitnesses elems f) -> getBoundaryFaces stl D elems = None.
Proof.
  intros [f Hf]. unfold getBoundaryFaces. fold (upwardEntries D elems).
  apply deleteInternalFaces_abort. exists f. now rewrite localWitnesses_uorder.
Qed.

Lemma boundaryEntries_keys (elems : list Simplex) (k : Simplex) :
  countKey k (boundaryEntries elems) <= 1.
Proof.
  unfold boundaryEntries.
  set (F := filter (fun u => localWitnesses elems (fst u) =? 1)
                   (uorder stl (upwardEntries D elems))).
  destruct (Nat.eq_dec (countKey k F) 0) as [E0|E0]; [lia|].
  assert (Hin : In k (map fst F)) by (apply countKey_In; lia).
  apply in_map_iff in Hin. destruct Hin as (u & <- & Hu).
  apply filter_In in Hu. destruct Hu as [_ Hu]. apply Nat.eqb_eq in Hu.
  rewrite <- localWitnesses_uorder in Hu. rewrite <- Hu. apply countKey_filter_le.
Qed.

Lemma witnesses_dec (elems : list Simplex) :
  (exists f, 2 < localWitnesses elems f) \/ (forall f, localWitnesses elems f <= 2).
Proof.
  set (up0 := upwardEntries D elems).
  destruct (Forall_Exists_dec (fun u : Simplex * nat => countKey (fst u) up0 <= 2)
              (fun u => le_dec (countKey (fst u) up0) 2) up0) as [Hall|Hex].
  - right. intros k. unfold localWitnesses. fold up0.
    destruct (Nat.eq_dec (countKey k up0) 0) as [E|E]; [lia|].
    assert (Hin : In k (map fst up0)) by (apply countKey_In; lia).
    apply in_map_iff in Hin. destruct Hin as (u & <- & Hu).
    rewrite Forall_forall in Hall. now apply Hall.
  - left. apply Exists_exists in Hex. destruct Hex as (u & _ & Hu).
    exists (fst u). unfold localWitnesses. fold up0. lia.
Qed.

(** [getBoundaryFaces] (lines 289-331) aborts exactly when a face has
    more than two local witnesses (line 302); otherwise it returns,
    in the order of the map, the entries of the faces with exactly
    one local witness, so that no face stands twice in the result. *)
Theorem getBoundaryFaces_spec (elems : list Simplex) :
  (getBoundaryFaces stl D elems = None <-> exists f, 2 < localWitnesses elems f) /\
  (forall up, getBoundaryFaces stl D elems = Some up ->
     up = filter (fun u => localWitnesses elems (fst u) =? 1)
                 (uorder stl (upwardEntries D elems)) /\
     NoDup (map fst up)).
Proof.
  split.
  - split; [|apply getBoundaryFaces_None].
    intros HN. destruct (witnesses_dec elems) as [Hex|Hall]; [exact Hex|].
    rewrite getBoundaryFaces_ok in HN by exact Hall. discriminate.
  - intros up Hup. destruct (witnesses_dec elems) as [Hex|Hall].
    + rewrite getBoundaryFaces_None in Hup by exact Hex. discriminate.
    + rewrite getBoundaryFaces_ok in Hup by exact Hall. injection Hup as <-.
      split; [reflexivity|]. apply keys_NoDup, boundaryEntries_keys.
Qed.

End BoundaryFaces.

(** ** [deleteDomainBoundaryFaces]: the faces that only one rank holds *)

(** The counting sort of lines 341-353 (and 236-252). *)
Lemma bucket_Some (A : Type) (procs : nat) (rankOf : A -> nat) (items : list A) :
  (forall u, In u items -> rankOf u < procs) ->
  bucket procs rankOf items
  = Some (map (fun p => filter (fun u => rankOf u =? p) items) (seq 0 procs)).
Proof.
  intros H. unfold bucket.
  replace (forallb (fun u => rankOf u <? procs) items) with true; [reflexivity|].
  symmetry. apply forallb_forall. intros u Hu. apply Nat.ltb_lt. now apply H.
Qed.

Lemma concat_singleton_at (A : Type) (x : A) (r n : nat) :
  r < n -> concat (map (fun p => if r =? p then [x] else []) (seq 0 n)) = [x].
Proof.
  intros Hr. replace n with (r + (1 + (n - r - 1))) by lia.
  rewrite !seq_app, !map_app, !concat_app. simpl.
  rewrite Nat.eqb_refl.
  rewrite (proj2 (concat_nil_Forall _)), (proj2 (concat_nil_Forall _)); [reflexivity| |].
  - apply Forall_map, Forall_forall. intros p Hp. apply in_seq in Hp.
    destruct (Nat.eqb_spec r p); [lia|reflexivity].
  - apply Forall_map, Forall_forall. intros p Hp. apply in_seq in Hp.
    destruct (Nat.eqb_spec r p); [lia|reflexivity].
Qed.

Lemma bucket_perm (A : Type) (procs : nat) (rankOf : A -> nat) (items : list A) :
  (forall u, In u items -> rankOf u < procs) ->
  Permutation (concat (map (fun p => filter (fun u => rankOf u =? p) items) (seq 0 procs)))
              items.
Proof.
  induction items as [|x l IH]; intros H.
  - simpl. apply perm_eq. apply concat_nil_Forall, Forall_map, Forall_forall. reflexivity.
  - simpl.
    rewrite (map_ext _ (fun p => (if rankOf x =? p then [x] else [])
                                 ++ filter (fun u => rankOf u =? p) l))
      by (intros p; now destruct (rankOf x =? p)).
    eapply Permutation_trans; [apply concat_map_app|].
    rewrite concat_singleton_at by (apply H; now left).
    simpl. constructor. apply IH. intros u Hu. apply H. now right.
Qed.

Lemma combine_self_maps (A B C : Type) (f : A -> B) (g : A -> C) (l : list A) :
  combine l (combine (map f l) (map g l)) = map (fun x => (x, (f x, g x))) l.
Proof. induction l as [|x l IH]; simpl; [reflexivity|now rewrite IH]. Qed.

Lemma aligned_combine (A B : Type) (F : nat -> list A) (v : nat -> A -> B) (c : A -> B)
      (ps : list nat) :
  (forall p f, In p ps -> In f (F p) -> v p f = c f) ->
  combine (concat (map F ps)) (concat (map (fun p => map (v p) (F p)) ps))
  = map (fun f => (f, c f)) (concat (map F ps)).
Proof.
  induction ps as [|p ps IH]; intros H; simpl; [reflexivity|].
  rewrite map_app, <- IH by (intros p' f Hp Hf; apply H; [now right|exact Hf]).
  assert (E : map (v p) (F p) = map c (F p)).
  { apply map_ext_in. intros f Hf. apply H; [now left|exact Hf]. }
  rewrite E. clear E H IH.
  generalize (concat (map F ps)) (concat (map (fun p0 => map (v p0) (F p0)) ps)).
  intros l1 l2. induction (F p) as [|f l IHl]; simpl; [reflexivity|now rewrite IHl].
Qed.

Lemma set_insert_In (f x : Simplex) (s : list Simplex) :
  In x (set_insert f s) <-> x = f \/ In x s.
Proof.
  unfold set_insert. destruct (existsb (simplex_eqb f) s) eqn:E; simpl.
  - apply existsb_exists in E. destruct E as (y & Hy & E). apply simplex_eqb_eq in E.
    subst y. split; [now right|]. intros [->|H]; assumption.
  - split; intros [H|H]; auto.
Qed.

Lemma set_insert_NoDup (f : Simplex) (s : list Simplex) :
  NoDup s -> NoDup (set_insert f s).
Proof.
  intros H. unfold set_insert. destruct (existsb (simplex_eqb f) s) eqn:E; [exact H|].
  constructor; [|exact H]. intros Hin.
  assert (existsb (simplex_eqb f) s = true); [|congruence].
  apply existsb_exists. exists f. split; [exact Hin|apply simplex_eqb_refl].
Qed.

Section EraseDomainBoundary.

(** The count that stands beside a face. *)
Variable cnt : Simplex -> nat.

(** The set that lines 371-380 build. *)
Definition domainBoundarySet (fs : list Simplex) (dbf : list Simplex) : list Simplex :=
  fold_left (fun s f => if cnt f =? 1 then set_insert f s else s) fs dbf.

Lemma domainBoundarySet_spec (fs : list Simplex) :
  forall dbf,
  (NoDup dbf -> NoDup (domainBoundarySet fs dbf)) /\
  (forall x, In x (domainBoundarySet fs dbf) <-> In x dbf \/ (In x fs /\ cnt x = 1)).
Proof.
  induction fs as [|f fs IH]; intros dbf; simpl.
  - split; [auto|]. intros x. tauto.
  - destruct (IH (if cnt f =? 1 then set_insert f dbf else dbf)) as [IH1 IH2].
    split.
    + intros H. apply IH1. destruct (cnt f =? 1); [now apply set_insert_NoDup|exact H].
    + intros x. rewrite IH2. destruct (Nat.eqb_spec (cnt f) 1) as [E|E].
      * rewrite set_insert_In. split.
        -- intros [[->|H]|[H1 H2]]; auto.
        -- intros [H|[[<-|H1] H2]]; auto.
      * split.
        -- intros [H|[H1 H2]]; auto.
        -- intros [H|[[<-|H1] H2]]; auto. contradiction.
Qed.

Lemma eraseDomainBoundary_cons (f : Simplex) (c : nat) (fc : list (Simplex * nat))
      (up : list (Simplex * nat)) (dbf : list Simplex) :
  eraseDomainBoundary ((f, c) :: fc) up dbf =
  (_ <- assert ((1 <=? c) && (c <=? 2)) ;;
   if c =? 1
   then _ <- assert (0 <? countKey f up) ;;
        eraseDomainBoundary fc (eraseKey f up) (set_insert f dbf)
   else eraseDomainBoundary fc up dbf).
Proof. reflexivity. Qed.

Lemma eraseDomainBoundary_ok (fs : list Simplex) :
  forall (up : list (Simplex * nat)) (dbf : list Simplex),
  (forall f, In f fs -> 1 <= cnt f <= 2) ->
  (forall f, In f fs -> cnt f = 1 ->
             0 < countKey f up /\ length (filter (simplex_eqb f) fs) <= 1) ->
  eraseDomainBoundary (map (fun f => (f, cnt f)) fs) up dbf
  = Some (filter (fun u => negb ((cnt (fst u) =? 1) && existsb (simplex_eqb (fst u)) fs)) up,
          domainBoundarySet fs dbf).
Proof.
  induction fs as [|f fs IH]; intros up dbf Hc Hin.
  - simpl. f_equal. f_equal. rewrite <- (filter_ext (fun _ => true)).
    + clear. induction up as [|u up IH]; simpl; congruence.
    + intros u. now rewrite andb_false_r.
  - cbn [map existsb]. rewrite eraseDomainBoundary_cons.
    change (domainBoundarySet (f :: fs) dbf)
      with (domainBoundarySet fs (if cnt f =? 1 then set_insert f dbf else dbf)).
    destruct (Hc f) as [H1 H2]; [now left|].
    replace ((1 <=? cnt f) && (cnt f <=? 2)) with true.
    2:{ symmetry. apply andb_true_iff. split; apply Nat.leb_le; lia. }
    cbn [assert bind].
    destruct (Nat.eqb_spec (cnt f) 1) as [E|E].
    + destruct (Hin f) as [Hpos Honce]; [now left|exact E|].
      replace (0 <? countKey f up) with true by (symmetry; now apply Nat.ltb_lt).
      cbn [assert bind].
      simpl in Honce. rewrite simplex_eqb_refl in Honce. simpl in Honce.
      assert (Hnot : ~ In f fs).
      { intros Hf. assert (0 < length (filter (simplex_eqb f) fs)); [|lia].
        assert (Hff : In f (filter (simplex_eqb f) fs))
          by (apply filter_In; split; [exact Hf|apply simplex_eqb_refl]).
        destruct (filter (simplex_eqb f) fs); [contradiction|simpl; lia]. }
      rewrite IH.
      * f_equal. f_equal. unfold eraseKey. rewrite filter_filter_and.
        apply filter_ext. intros u.
        destruct (simplex_eqb (fst u) f) eqn:Eu; simpl.
        -- apply simplex_eqb_eq in Eu. rewrite Eu, E. reflexivity.
        -- reflexivity.
      * intros f' Hf'. apply Hc. now right.
      * intros f' Hf' E'. destruct (Hin f') as [Hp Ho]; [now right|exact E'|].
        assert (Hne : f' <> f) by (intros ->; contradiction).
        split.
        -- rewrite countKey_eraseKey.
           replace (simplex_eqb f f') with false; [exact Hp|].
           symmetry. apply simplex_eqb_neq. congruence.
        -- simpl in Ho. destruct (simplex_eqb f' f); simpl in Ho; lia.
    + rewrite IH.
      * f_equal. f_equal. apply filter_ext. intros u.
        destruct (simplex_eqb (fst u) f) eqn:Eu; simpl; [|reflexivity].
        apply simplex_eqb_eq in Eu. rewrite Eu.
        destruct (Nat.eqb_spec (cnt f) 1); [contradiction|reflexivity].
      * intros f' Hf'. apply Hc. now right.
      * intros f' Hf' E'. destruct (Hin f') as [Hp Ho]; [now right|exact E'|].
        split; [exact Hp|]. simpl in Ho. destruct (simplex_eqb f' f); simpl in Ho; lia.
Qed.

(** A count above two makes the assertion of line 374 fire. *)
Lemma eraseDomainBoundary_abort (fs : list Simplex) :
  forall (up : list (Simplex * nat)) (dbf : list Simplex),
  (exists f, In f fs /\ 2 < cnt f) ->
  eraseDomainBoundary (map (fun f => (f, cnt f)) fs) up dbf = None.
Proof.
  induction fs as [|f fs IH]; intros up dbf [x [Hx Hc]]; [contradiction|].
  cbn [map]. rewrite eraseDomainBoundary_cons.
  destruct ((1 <=? cnt f) && (cnt f <=? 2)) eqn:E; [|reflexivity].
  apply andb_true_iff in E. destruct E as [E1 E2].
  apply Nat.leb_le in E1, E2. cbn [assert bind].
  assert (Hx' : exists f0, In f0 fs /\ 2 < cnt f0).
  { destruct Hx as [->|Hx]; [lia|]. now exists x. }
  destruct (cnt f =? 1); [|now apply IH].
  destruct (0 <? countKey f up); [|reflexivity].
  cbn [assert bind]. now apply IH.
Qed.

End EraseDomainBoundary.

Lemma forRanks_ext_in (A B : Type) (f g : A -> option B) (l : list A) :
  (forall x, In x l -> f x = g x) -> forRanks f l = forRanks g l.
Proof. intros H. unfold forRanks. f_equal. now apply map_ext_in. Qed.

Lemma forRanks_None (A B : Type) (f : A -> option B) (l : list A) :
  (exists x, In x l /\ f x = None) -> forRanks f l = None.
Proof.
  unfold forRanks. induction l as [|a l IH]; intros (x & Hx & E); [contradiction|].
  simpl. destruct Hx as [->|Hx].
  - now rewrite E.
  - destruct (f a); [|reflexivity]. simpl. rewrite IH; [reflexivity|]. now exists x.
Qed.

Lemma countKey_concat_ge (A : Type) (f : Simplex) (up : list (Simplex * A))
      (ups : list (list (Simplex * A))) :
  In up ups -> countKey f up <= countKey f (concat ups).
Proof.
  induction ups as [|x ups IH]; intros H; [contradiction|].
  simpl. rewrite countKey_app. destruct H as [->|H]; [lia|].
  specialize (IH H). lia.
Qed.

Lemma countKey_keys (A : Type) (f : Simplex) (up : list (Simplex * A)) :
  length (filter (simplex_eqb f) (map fst up)) = countKey f up.
Proof.
  rewrite filter_map_swap, length_map. unfold countKey. f_equal.
  apply filter_ext. intros u. apply simplex_eqb_sym.
Qed.

Section DomainBoundary.

Variable Row : Type.
Variable SimplexHash : Simplex -> N.

Local Abbreviation Mesh := (GlobalSimplexMesh Row).

(** The owner of a face above dimension 0 (line 395). *)
Definition hashOwner (procs : nat) (f : Simplex) : nat :=
  N.to_nat (SimplexHash f mod N.of_nat procs).

Lemma hashOwner_lt (procs : nat) (f : Simplex) : 0 < procs -> hashOwner procs f < procs.
Proof.
  intros Hp. unfold hashOwner.
  assert (Hlt : (SimplexHash f mod N.of_nat procs < N.of_nat procs)%N) by (apply N.mod_lt; lia).
  revert Hlt. generalize (SimplexHash f mod N.of_nat procs)%N. intros y Hlt. lia.
Qed.

(** How many entries of the maps of all ranks have the face: what the
    owner of the face counts (lines 357-363). *)
Definition heldBy (ups : list (list (Simplex * nat))) (f : Simplex) : nat :=
  countKey f (concat ups).

Definition keyChunks (procs : nat) (up : list (Simplex * nat)) : list (list Simplex) :=
  map (fun p => filter (fun f => hashOwner procs f =? p) (map fst up)) (seq 0 procs).

Lemma keyChunks_perm (procs : nat) (up : list (Simplex * nat)) :
  0 < procs -> Permutation (concat (keyChunks procs up)) (map fst up).
Proof. intros Hp. apply bucket_perm. intros f _. now apply hashOwner_lt. Qed.

Lemma count_at_owner (procs : nat) (ups : list (list (Simplex * nat))) (p : nat) (f : Simplex) :
  p < procs -> hashOwner procs f = p ->
  length (filter (simplex_eqb f) (concat (column [] p (map (keyChunks procs) ups))))
  = heldBy ups f.
Proof.
  intros Hp Ho. unfold column. rewrite map_map.
  rewrite (map_ext _ (fun up => filter (fun f => hashOwner procs f =? p) (map fst up))).
  2:{ intros up. unfold keyChunks. now rewrite nth_map_seq. }
  rewrite <- (map_map (map fst) (filter (fun f0 => hashOwner procs f0 =? p))).
  rewrite <- filter_concat, <- concat_map, filter_filter_and.
  rewrite (filter_ext _ (simplex_eqb f)).
  - apply countKey_keys.
  - intros x. destruct (simplex_eqb f x) eqn:E; [|apply andb_false_r].
    apply simplex_eqb_eq in E. subst x. rewrite Ho, Nat.eqb_refl. reflexivity.
Qed.

(** The call, rank by rank: every rank learns for each of its faces
    how many entries of all ranks have it. *)
Lemma deleteDomainBoundaryFaces_eval (d : nat) (w : World Row)
      (ups : list (list (Simplex * nat))) :
  length ups = length w ->
  deleteDomainBoundaryFaces SimplexHash (S (S d)) w ups =
  forRanks (fun up => eraseDomainBoundary
                        (map (fun f => (f, heldBy ups f)) (concat (keyChunks (length w) up)))
                        up [])
           ups.
Proof.
  intros Hlen. unfold deleteDomainBoundaryFaces.
  change (S (S d) - 1) with (S d).
  set (procs := length w).
  set (S0 := map (keyChunks procs) ups).
  assert (Hbucket : forRanks (fun '(m, up) =>
                       bucket procs (getPlex2Rank SimplexHash (S d) procs m) (map fst up))
                      (combine w ups) = Some S0).
  { rewrite (forRanks_map _ (fun mu : Mesh * list (Simplex * nat) => keyChunks procs (snd mu))).
    - f_equal. unfold S0.
      apply (@combine_snd_map _ _ _ (fun mu : Mesh * list (Simplex * nat) =>
                                       keyChunks procs (snd mu))
                              (keyChunks procs) w ups Hlen).
      reflexivity.
    - intros [m up] Hin. simpl. apply bucket_Some. intros f _.
      apply hashOwner_lt. apply in_combine_l in Hin. unfold procs.
      destruct w; [contradiction|simpl; lia]. }
  rewrite Hbucket. cbn [bind].
  assert (HlS : length S0 = procs) by (unfold S0; now rewrite length_map).
  assert (Sq : square S0).
  { unfold square. rewrite HlS. unfold S0. apply Forall_map, Forall_forall. intros up _.
    unfold keyChunks. now rewrite length_map, length_seq. }
  rewrite exchange_mk by exact Sq. cbn [bind].
  set (g := fun p f => length (filter (simplex_eqb f) (concat (column [] p S0)))).
  replace (map (fun rf => map (fun f => length (filter (simplex_eqb f) rf)) rf)
               (map (@concat Simplex) (transpose [] S0)))
    with (map (fun p => map (g p) (concat (column [] p S0))) (seq 0 (length S0)))
    by (unfold transpose; now rewrite !map_map).
  rewrite exchange_reply by exact Sq. cbn [bind].
  rewrite HlS. unfold S0. rewrite !map_map, combine_self_maps.
  unfold forRanks. rewrite map_map. f_equal.
  apply map_ext_in. intros up Hup.
  assert (Hp : 0 < procs).
  { unfold procs. rewrite <- Hlen. destruct ups; [contradiction|simpl; lia]. }
  assert (Hown : forall p f, p < procs -> In f (nth p (keyChunks procs up) []) ->
                             hashOwner procs f = p).
  { intros p f Hlt Hf. unfold keyChunks in Hf.
    rewrite nth_map_seq in Hf by lia. apply filter_In in Hf. destruct Hf as [_ Ho].
    now apply Nat.eqb_eq in Ho. }
  assert (HlK : length (keyChunks procs up) = procs)
    by (unfold keyChunks; now rewrite length_map, length_seq).
  revert Hown HlK. generalize (keyChunks procs up). intros K Hown HlK.
  replace (concat K) with (concat (map (fun p => nth p K []) (seq 0 procs)))
    by (rewrite <- HlK; now rewrite map_nth_seq).
  rewrite length_aligned, Nat.eqb_refl. cbn [assert bind].
  rewrite (@aligned_combine _ _ (fun p => nth p K []) g (heldBy ups)); [reflexivity|].
  intros p f Hpin Hf. apply in_seq in Hpin.
  unfold g. apply count_at_owner; [lia|]. apply Hown; [lia|exact Hf].
Qed.

(** What the call leaves on a rank: its [up], and the set it returns. *)
Definition domainBoundaryResult (procs : nat) (ups : list (list (Simplex * nat)))
           (up : list (Simplex * nat)) : list (Simplex * nat) * list Simplex :=
  (filter (fun u => heldBy ups (fst u) =? 2) up,
   domainBoundarySet (heldBy ups) (concat (keyChunks procs up)) []).

Lemma deleteDomainBoundaryFaces_ok (d : nat) (w : World Row)
      (ups : list (list (Simplex * nat))) :
  length ups = length w -> (forall f, heldBy ups f <= 2) ->
  deleteDomainBoundaryFaces SimplexHash (S (S d)) w ups
  = Some (map (domainBoundaryResult (length w) ups) ups).
Proof.
  intros Hlen Hc. rewrite deleteDomainBoundaryFaces_eval by exact Hlen.
  apply forRanks_map. intros up Hup.
  assert (Hp : 0 < length w).
  { rewrite <- Hlen. destruct ups; [contradiction|simpl; lia]. }
  pose proof (keyChunks_perm up Hp) as Hperm.
  assert (Hge : forall f, In f (concat (keyChunks (length w) up)) -> 1 <= heldBy ups f).
  { intros f Hf. eapply Permutation_in in Hf; [|exact Hperm].
    apply countKey_In in Hf. pose proof (countKey_concat_ge f _ _ Hup).
    unfold heldBy. lia. }
  rewrite eraseDomainBoundary_ok.
  - unfold domainBoundaryResult. f_equal. f_equal. apply filter_ext_in. intros u Hu.
    replace (existsb (simplex_eqb (fst u)) (concat (keyChunks (length w) up))) with true.
    2:{ symmetry. apply existsb_exists. exists (fst u). split; [|apply simplex_eqb_refl].
        eapply Permutation_in; [symmetry; exact Hperm|]. now apply in_map. }
    rewrite andb_true_r.
    assert (H1 : 1 <= heldBy ups (fst u)).
    { apply Hge. eapply Permutation_in; [symmetry; exact Hperm|]. now apply in_map. }
    specialize (Hc (fst u)).
    destruct (Nat.eqb_spec (heldBy ups (fst u)) 1), (Nat.eqb_spec (heldBy ups (fst u)) 2);
      simpl; try reflexivity; lia.
  - intros f Hf. split; [now apply Hge|apply Hc].
  - intros f Hf E.
    assert (Hcount : length (filter (simplex_eqb f) (concat (keyChunks (length w) up)))
                     = countKey f up).
    { rewrite <- countKey_keys. apply Permutation_length, filter_perm, Hperm. }
    pose proof (countKey_concat_ge f _ _ Hup) as Hle. unfold heldBy in E.
    split; [|lia].
    apply countKey_In. eapply Permutation_in; [exact Hperm|exact Hf].
Qed.

Lemma domainBoundaryResult_set (procs : nat) (ups : list (list (Simplex * nat)))
      (up : list (Simplex * nat)) :
  0 < procs ->
  NoDup (snd (domainBoundaryResult procs ups up)) /\
  forall f, In f (snd (domainBoundaryResult procs ups up)) <->
            In f (map fst up) /\ heldBy ups f = 1.
Proof.
  intros Hp. pose proof (keyChunks_perm up Hp) as Hperm.
  unfold domainBoundaryResult. simpl. split.
  - apply domainBoundarySet_spec. constructor.
  - intros f. rewrite (proj2 (domainBoundarySet_spec (heldBy ups) _ [])). simpl. split.
    + intros [[]|[Hf E]]. split; [|exact E].
      eapply Permutation_in; [exact Hperm|exact Hf].
    + intros [Hf E]. right. split; [|exact E].
      eapply Permutation_in; [symmetry; exact Hperm|exact Hf].
Qed.

(** [deleteDomainBoundaryFaces] (lines 333-382), for faces above
    dimension 0: when no face stands in more than two entries of all
    ranks, the call returns; it leaves in [up] the entries of the
    faces that stand in two, and the set it returns holds, each once,
    the faces of [up] that stand in one.  A face in more than two
    entries makes the assertion of line 374 fire. *)
Theorem deleteDomainBoundaryFaces_spec (D : nat) (w : World Row)
        (ups : list (list (Simplex * nat))) :
  1 < D -> length ups = length w ->
  ((forall f, heldBy ups f <= 2) ->
   exists res,
     deleteDomainBoundaryFaces SimplexHash D w ups = Some res /\
     length res = length ups /\
     forall r up, nth_error ups r = Some up ->
       exists dbf,
         nth_error res r = Some (filter (fun u => heldBy ups (fst u) =? 2) up, dbf) /\
         NoDup dbf /\
         forall f, In f dbf <-> In f (map fst up) /\ heldBy ups f = 1) /\
  ((exists f, 2 < heldBy ups f) ->
   deleteDomainBoundaryFaces SimplexHash D w ups = None).
Proof.
  intros HD Hlen. destruct D as [|[|d]]; try lia.
  assert (Hp : forall up, In up ups -> 0 < length w).
  { intros up Hup. rewrite <- Hlen. destruct ups; [contradiction|simpl; lia]. }
  split.
  - intros Hc. rewrite deleteDomainBoundaryFaces_ok by assumption.
    eexists. split; [reflexivity|]. split; [apply length_map|].
    intros r up Hr.
    assert (Hup : In up ups) by (eapply nth_error_In; exact Hr).
    exists (snd (domainBoundaryResult (length w) ups up)).
    split; [|apply domainBoundaryResult_set, (Hp _ Hup)].
    rewrite (nth_error_map_Some (domainBoundaryResult (length w) ups) _ _ Hr). reflexivity.
  - intros [f Hf]. rewrite deleteDomainBoundaryFaces_eval by exact Hlen.
    apply forRanks_None.
    assert (Hin : In f (map fst (concat ups))) by (apply countKey_In; unfold heldBy in Hf; lia).
    rewrite concat_map in Hin. apply in_concat in Hin. destruct Hin as (l & Hl & Hfl).
    apply in_map_iff in Hl. destruct Hl as (up & <- & Hup).
    exists up. split; [exact Hup|].
    apply eraseDomainBoundary_abort. exists f. split; [|exact Hf].
    eapply Permutation_in; [symmetry; apply keyChunks_perm, (Hp _ Hup)|exact Hfl].
Qed.

End DomainBoundary.

(** ** Ghost growth: the first layer *)

Lemma combine_fst_snd (A B : Type) (l : list (A * B)) :
  combine (map fst l) (map snd l) = l.
Proof. induction l as [|[a b] l IH]; simpl; [reflexivity|now rewrite IH]. Qed.

Lemma map_combine_both (A A' B B' C : Type) (a : A -> A') (b : B -> B') (F : A' * B' -> C)
      (l : list A) (l' : list B) :
  map F (combine (map a l) (map b l')) = map (fun xy => F (a (fst xy), b (snd xy))) (combine l l').
Proof.
  revert l'. induction l as [|x l IH]; intros [|y l']; simpl; try reflexivity.
  now rewrite IH.
Qed.

Lemma map_combine_cross (A A' B B' C : Type) (a : A -> A') (b : B -> B')
      (F : A * B' -> C) (G : A' * B -> C) (l : list A) (l' : list B) :
  (forall x y, F (x, b y) = G (a x, y)) ->
  map F (combine l (map b l')) = map G (combine (map a l) l').
Proof.
  intros H. revert l'. induction l as [|x l IH]; intros [|y l']; simpl; try reflexivity.
  now rewrite H, IH.
Qed.

Lemma map_combine_ext (A B C : Type) (F G : A * B -> C) (l : list A) (l' : list B) :
  (forall x y, F (x, y) = G (x, y)) -> map F (combine l l') = map G (combine l l').
Proof. intros H. apply map_ext. intros [x y]. apply H. Qed.

Lemma dropWhile_head (A : Type) (f : A -> bool) (l : list A) (u : A) (t : list A) :
  dropWhile f l = u :: t -> In u l /\ f u = false.
Proof.
  induction l as [|x l IH]; simpl; [discriminate|].
  destruct (f x) eqn:E.
  - intros H. destruct (IH H) as [H1 H2]. split; [now right|exact H2].
  - intros H. injection H as -> _. split; [now left|exact E].
Qed.

Lemma dropWhile_nil_inv (A : Type) (f : A -> bool) (l : list A) :
  dropWhile f l = [] -> forall x, In x l -> f x = true.
Proof.
  induction l as [|x l IH]; simpl; [contradiction|].
  destruct (f x) eqn:E; [|discriminate].
  intros H y [<-|Hy]; [exact E|now apply IH].
Qed.

(** The match of lines 267-275 answers with an element that stands
    beside the same face and is not the sender's own. *)
Lemma opposite_Some_inv (rUp : list (Simplex * Simplex)) (fe : Simplex * Simplex)
      (e' : Simplex) :
  opposite rUp fe = Some e' -> In (fst fe, e') rUp /\ e' <> snd fe.
Proof.
  unfold opposite, equal_range.
  destruct (dropWhile _ _) as [|u t] eqn:E; [discriminate|].
  intros H. injection H as <-. apply dropWhile_head in E. destruct E as [Hin Hne].
  apply filter_In in Hin. destruct Hin as [Hin Hf]. apply simplex_eqb_eq in Hf.
  apply simplex_eqb_neq in Hne. split; [|exact Hne].
  rewrite <- Hf. now destruct u.
Qed.

Lemma opposite_exists (rUp : list (Simplex * Simplex)) (fe : Simplex * Simplex) :
  (exists u, In u rUp /\ fst u = fst fe /\ snd u <> snd fe) -> opposite rUp fe <> None.
Proof.
  intros (u & Hu & Hf & Hs). unfold opposite, equal_range.
  destruct (dropWhile _ _) as [|v t] eqn:E; [|discriminate]. exfalso.
  pose proof (dropWhile_nil_inv _ _ E u) as H.
  assert (Hin : In u (filter (fun u0 => simplex_eqb (fst u0) (fst fe)) rUp)).
  { apply filter_In. split; [exact Hu|]. now apply simplex_eqb_eq. }
  specialize (H Hin). apply simplex_eqb_eq in H. contradiction.
Qed.

Lemma unique_In (x : Simplex) (l : list Simplex) : In x (unique l) <-> In x l.
Proof.
  induction l as [|a l IH]; [reflexivity|].
  destruct l as [|b l].
  - reflexivity.
  - change (unique (a :: b :: l))
      with (if simplex_eqb a b then unique (b :: l) else a :: unique (b :: l)).
    destruct (simplex_eqb a b) eqn:E.
    + apply simplex_eqb_eq in E. subst b. rewrite IH. simpl. tauto.
    + simpl In at 1. rewrite IH. simpl. tauto.
Qed.

(** One list of a list of lists taken apart from the others. *)
Lemma countKey_split_off (A : Type) (f : Simplex) (L : list (list (Simplex * A)))
      (q : nat) (a : list (Simplex * A)) :
  nth_error L q = Some a ->
  exists L', countKey f (concat L) = countKey f a + countKey f (concat L') /\
             nth_error L' q = Some [] /\
             forall x, x <> q -> nth_error L' x = nth_error L x.
Proof.
  intros H. apply nth_error_split in H. destruct H as (l1 & l2 & -> & Hq).
  exists (l1 ++ [] :: l2). split; [|split].
  - rewrite !concat_app. simpl. rewrite !countKey_app. simpl. lia.
  - rewrite nth_error_app2 by lia. now rewrite Hq, Nat.sub_diag.
  - intros x Hx. destruct (Nat.lt_ge_cases x (length l1)) as [Hlt|Hge].
    + now rewrite !nth_error_app1 by exact Hlt.
    + rewrite !nth_error_app2 by exact Hge.
      destruct (x - length l1) as [|k] eqn:E; [lia|reflexivity].
Qed.

Lemma countKey_at_le (A : Type) (f : Simplex) (L : list (list (Simplex * A)))
      (q : nat) (a : list (Simplex * A)) :
  nth_error L q = Some a -> countKey f a <= countKey f (concat L).
Proof. intros H. apply countKey_concat_ge. eapply nth_error_In. exact H. Qed.

Lemma countKey_two_ranks (A : Type) (f : Simplex) (L : list (list (Simplex * A)))
      (q q' : nat) (a b : list (Simplex * A)) :
  q <> q' -> nth_error L q = Some a -> nth_error L q' = Some b ->
  countKey f a + countKey f b <= countKey f (concat L).
Proof.
  intros Hne Ha Hb. destruct (countKey_split_off f _ _ Ha) as (L' & E & _ & Hx).
  rewrite E. rewrite <- (Hx q') in Hb by congruence.
  pose proof (countKey_at_le f _ _ Hb). lia.
Qed.

Lemma countKey_three_ranks (A : Type) (f : Simplex) (L : list (list (Simplex * A)))
      (q q' q'' : nat) (a b c : list (Simplex * A)) :
  q <> q' -> q <> q'' -> q' <> q'' ->
  nth_error L q = Some a -> nth_error L q' = Some b -> nth_error L q'' = Some c ->
  countKey f a + countKey f b + countKey f c <= countKey f (concat L).
Proof.
  intros H1 H2 H3 Ha Hb Hc. destruct (countKey_split_off f _ _ Ha) as (L' & E & _ & Hx).
  rewrite E. rewrite <- (Hx q') in Hb by congruence. rewrite <- (Hx q'') in Hc by congruence.
  pose proof (@countKey_two_ranks A f L' q' q'' b c H3 Hb Hc). lia.
Qed.

Lemma countKey_other_rank (A : Type) (f : Simplex) (L : list (list (Simplex * A)))
      (q : nat) (a : list (Simplex * A)) :
  nth_error L q = Some a -> countKey f a < countKey f (concat L) ->
  exists q' b, q' <> q /\ nth_error L q' = Some b /\ 0 < countKey f b.
Proof.
  intros Ha Hlt. destruct (countKey_split_off f _ _ Ha) as (L' & E & Hq & Hx).
  assert (Hpos : 0 < countKey f (concat L')) by lia.
  apply countKey_In in Hpos. rewrite concat_map in Hpos. apply in_concat in Hpos.
  destruct Hpos as (l & Hl & Hf). apply in_map_iff in Hl. destruct Hl as (b & <- & Hb).
  apply In_nth_error in Hb. destruct Hb as [q' Hq'].
  assert (Hne : q' <> q).
  { intros ->. rewrite Hq in Hq'. injection Hq' as <-. contradiction. }
  exists q', b. split; [exact Hne|]. split; [now rewrite <- Hx|].
  now apply countKey_In.
Qed.

Lemma countKey_one_entry (A : Type) (k : Simplex) (l : list (Simplex * A)) (a b : A) :
  countKey k l <= 1 -> In (k, a) l -> In (k, b) l -> a = b.
Proof.
  induction l as [|u l IH]; intros Hc Ha Hb; [contradiction|].
  rewrite countKey_cons in Hc.
  assert (Hin : forall x, In (k, x) l -> 0 < countKey k l).
  { intros x Hx. apply countKey_In. change k with (fst (k, x)). now apply in_map. }
  destruct Ha as [->|Ha], Hb as [Eb|Hb].
  - congruence.
  - simpl in Hc. rewrite simplex_eqb_refl in Hc. specialize (Hin _ Hb). lia.
  - subst u. simpl in Hc. rewrite simplex_eqb_refl in Hc. specialize (Hin _ Ha). lia.
  - apply IH; auto. lia.
Qed.

Lemma NoDup_concat_ranks (A : Type) (L : list (list A)) (q q' : nat) (x : A) :
  NoDup (concat L) -> q <> q' -> In x (nth q L []) -> In x (nth q' L []) -> False.
Proof.
  revert q q'. induction L as [|l L IH]; intros q q' Hnd Hne Hx Hy.
  - destruct q; contradiction.
  - simpl in Hnd. apply NoDup_app_remove_l in Hnd as Hnd'.
    assert (Hdis : forall y, In y l -> In y (concat L) -> False).
    { intros y H1 H2. clear -Hnd H1 H2. induction l as [|z l IH]; [contradiction|].
      simpl in Hnd. inversion Hnd as [|? ? Hz Hr]; subst.
      destruct H1 as [->|H1]; [apply Hz, in_or_app; now right|now apply IH]. }
    assert (Hin : forall k y, In y (nth k L []) -> In y (concat L)).
    { intros k y Hk. apply in_concat. exists (nth k L []). split; [|exact Hk].
      apply nth_In. destruct (Nat.lt_ge_cases k (length L)) as [H|H]; [exact H|].
      rewrite nth_overflow in Hk by exact H. contradiction. }
    destruct q as [|q], q' as [|q']; simpl in Hx, Hy.
    + congruence.
    + apply (Hdis x Hx). eapply Hin. exact Hy.
    + apply (Hdis x Hy). eapply Hin. exact Hx.
    + apply (IH q q'); auto.
Qed.

Lemma In_combine_seq (A : Type) (l : list A) (i : nat) (x d : A) :
  In (i, x) (combine (seq 0 (length l)) l) <-> i < length l /\ nth i l d = x.
Proof.
  split.
  - intros H. apply (In_combine_nth _ _ _ _ 0 d) in H.
    destruct H as (r & Hr1 & Hr2 & E1 & E2). rewrite length_seq in Hr1.
    rewrite seq_nth in E1 by exact Hr1. simpl in E1. subst r. now split.
  - intros [Hi <-].
    assert (E : nth i (combine (seq 0 (length l)) l) (0, d) = (i, nth i l d)).
    { rewrite combine_nth by apply length_seq. now rewrite seq_nth. }
    rewrite <- E. apply nth_In. rewrite length_combine, length_seq. lia.
Qed.

Lemma In_upwardEntries (D : nat) (elems : list Simplex) (f : Simplex) (i : nat) :
  In (f, i) (upwardEntries D elems) <->
  i < length elems /\ In f (downward (D - 1) (nth i elems [])).
Proof.
  unfold upwardEntries. rewrite in_concat. split.
  - intros (l & Hl & Hf). apply in_map_iff in Hl. destruct Hl as ([elNo e] & <- & Hin).
    apply in_map_iff in Hf. destruct Hf as (s & E & Hs). injection E as -> ->.
    apply (In_combine_seq elems i e []) in Hin. destruct Hin as [Hi <-]. now split.
  - intros [Hi Hf].
    exists (map (fun s => (s, i)) (downward (D - 1) (nth i elems []))). split.
    + apply in_map_iff. exists (i, nth i elems []). split; [reflexivity|].
      now apply (In_combine_seq elems i (nth i elems []) []).
    + apply in_map_iff. now exists f.
Qed.

Section GhostLayer.

Variable Row : Type.
Variable SimplexHash : Simplex -> N.
Variable stl : StdLib.
Variable D : nat.

Local Abbreviation Mesh := (GlobalSimplexMesh Row).

(** Lines 236-284, the second half of a turn of the loop: the
    remaining entries go to the owners of their faces, the owners
    match them, and every rank appends what comes back. *)
Definition ghostExchange (w : World Row) (st : list GhostState)
           (ups : list (list (Simplex * nat))) (dbfs : list (list Simplex))
           (how : Filtering) : option (list GhostState * Filtering) :=
  let procs := length w in
  sends <- forRanks (fun '(m, up) =>
                       bucket procs (fun u => getPlex2Rank SimplexHash (D - 1) procs m (fst u)) up)
                    (combine w ups) ;;
  let a2a := mkAllToAllV (map (map (@length (Simplex * nat))) sends) in
  let boundaryFaces := map (fun sd => map fst (concat sd)) sends in
  let boundaryElems :=
    map (fun '(s, sd) => map (fun u => nth (snd u) (gs_elems s) []) (concat sd))
        (combine st sends) in
  requestedBoundaryFaces <- exchange a2a boundaryFaces ;;
  requestedBoundaryElems <- exchange a2a boundaryElems ;;
  replies <- forRanks (fun '(fs, es) =>
                         let requestedUp := uorder stl (combine fs es) in
                         forRanks (opposite requestedUp) (combine fs es))
                      (combine requestedBoundaryFaces requestedBoundaryElems) ;;
  received <- exchange (map swap a2a) replies ;;
  Some (map (fun '(s, (dbf, be)) =>
               {| gs_elems := gs_elems s ++ unique (std_sort stl simplex_ltb be);
                  gs_hasDomainBoundaryFaces := gs_hasDomainBoundaryFaces s;
                  gs_domainBoundaryFaces := dbf |})
            (combine st (combine dbfs received)),
        how).

Lemma ghostIteration_unfold (w : World Row) (st : list GhostState) :
  ghostIteration SimplexHash stl D w st =
  (ups0 <- forRanks (fun s => getBoundaryFaces stl D (gs_elems s)) st ;;
   known <- agreed (map gs_hasDomainBoundaryFaces st) ;;
   '(ups, dbfs, how) <-
     (if known : bool
      then Some (map (fun '(s, up) =>
                        fold_left (fun u f => eraseKey f u) (gs_domainBoundaryFaces s) up)
                     (combine st ups0),
                 map gs_domainBoundaryFaces st, LocalFilter)
      else r <- deleteDomainBoundaryFaces SimplexHash D w ups0 ;;
           Some (map fst r, map snd r, CountRoundTrip)) ;;
   ghostExchange w st ups dbfs how).
Proof. reflexivity. Qed.

(** The entries of a rank, sorted into one chunk per owner, and the
    pairs of face and element that are sent for them. *)
Definition entryChunks (procs : nat) (up : list (Simplex * nat)) : list (list (Simplex * nat)) :=
  map (fun p => filter (fun u => hashOwner SimplexHash procs (fst u) =? p) up) (seq 0 procs).

Definition pairOf (elems : list Simplex) (u : Simplex * nat) : Simplex * Simplex :=
  (fst u, nth (snd u) elems []).

Definition pairMatrix (procs : nat) (es : list (list Simplex)) (ups : list (list (Simplex * nat)))
  : list (list (list (Simplex * Simplex))) :=
  map (fun eu => map (map (pairOf (fst eu))) (entryChunks procs (snd eu))) (combine es ups).

(** What owner [p] receives, and what it answers for a pair. *)
Definition asked (TE : list (list (list (Simplex * Simplex)))) (p : nat)
  : list (Simplex * Simplex) :=
  concat (column [] p TE).

Definition oppOf (rUp : list (Simplex * Simplex)) (fe : Simplex * Simplex) : Simplex :=
  match opposite (uorder stl rUp) fe with Some e => e | None => [] end.

Definition receivedOf (TE : list (list (list (Simplex * Simplex))))
           (row : list (list (Simplex * Simplex))) : list Simplex :=
  concat (map (fun p => map (oppOf (asked TE p)) (nth p row [])) (seq 0 (length TE))).

Lemma pairMatrix_square (procs : nat) (es : list (list Simplex))
      (ups : list (list (Simplex * nat))) :
  length es = procs -> length ups = procs -> square (pairMatrix procs es ups).
Proof.
  intros H1 H2. unfold square, pairMatrix. rewrite length_map, length_combine, H1, H2, Nat.min_id.
  apply Forall_map, Forall_forall. intros eu _.
  unfold entryChunks. now rewrite !length_map, length_seq.
Qed.

Lemma ghostExchange_eval (d : nat) (w : World Row) (st : list GhostState)
      (ups : list (list (Simplex * nat))) (dbfs : list (list Simplex)) (how : Filtering) :
  D = S (S d) -> length st = length w -> length ups = length w ->
  (forall p fe, p < length w ->
     In fe (asked (pairMatrix (length w) (map gs_elems st) ups) p) ->
     opposite (uorder stl (asked (pairMatrix (length w) (map gs_elems st) ups) p)) fe <> None) ->
  ghostExchange w st ups dbfs how =
  Some (map (fun '(s, (dbf, be)) =>
               {| gs_elems := gs_elems s ++ unique (std_sort stl simplex_ltb be);
                  gs_hasDomainBoundaryFaces := gs_hasDomainBoundaryFaces s;
                  gs_domainBoundaryFaces := dbf |})
            (combine st (combine dbfs
               (map (receivedOf (pairMatrix (length w) (map gs_elems st) ups))
                    (pairMatrix (length w) (map gs_elems st) ups)))),
        how).
Proof.
  intros HD Hst Hups Hopp. unfold ghostExchange. subst D.
  change (S (S d) - 1) with (S d).
  set (procs := length w) in *.
  set (TE := pairMatrix procs (map gs_elems st) ups) in *.
  assert (Hbucket : forRanks (fun '(m, up) =>
                       bucket procs (fun u => getPlex2Rank SimplexHash (S d) procs m (fst u)) up)
                      (combine w ups) = Some (map (entryChunks procs) ups)).
  { rewrite (forRanks_map _ (fun mu : Mesh * list (Simplex * nat) => entryChunks procs (snd mu))).
    - f_equal.
      apply (@combine_snd_map _ _ _ (fun mu : Mesh * list (Simplex * nat) =>
                                       entryChunks procs (snd mu))
                              (entryChunks procs) w ups Hups).
      reflexivity.
    - intros [m up] Hin. simpl. apply bucket_Some. intros u _.
      apply hashOwner_lt. apply in_combine_l in Hin. unfold procs.
      destruct w; [contradiction|simpl; lia]. }
  rewrite Hbucket. cbn [bind].
  assert (Sq : square TE) by (apply pairMatrix_square; [now rewrite length_map|exact Hups]).
  assert (HlTE : length TE = procs).
  { unfold TE, pairMatrix. rewrite length_map, length_combine, length_map. lia. }
  (* the pattern and the two buffers, from the matrix of pairs *)
  assert (Hcounts : map (map (@length (Simplex * nat))) (map (entryChunks procs) ups)
                    = map (map (@length (Simplex * Simplex))) TE).
  { unfold TE, pairMatrix. rewrite !map_map.
    rewrite <- (@combine_snd_map _ _ _
                  (fun eu : list Simplex * list (Simplex * nat) =>
                     map (@length (Simplex * Simplex))
                         (map (map (pairOf (fst eu))) (entryChunks procs (snd eu))))
                  (fun up => map (@length (Simplex * nat)) (entryChunks procs up))
                  (map gs_elems st) ups).
    - reflexivity.
    - rewrite length_map. lia.
    - intros e up. simpl. rewrite map_map. apply map_ext. intros ch. now rewrite length_map. }
  assert (Hfaces : map (fun sd => map fst (concat sd)) (map (entryChunks procs) ups)
                   = map (map fst) (map (@concat (Simplex * Simplex)) TE)).
  { unfold TE, pairMatrix. rewrite !map_map.
    rewrite <- (@combine_snd_map _ _ _
                  (fun eu : list Simplex * list (Simplex * nat) =>
                     map fst (concat (map (map (pairOf (fst eu))) (entryChunks procs (snd eu)))))
                  (fun up => map fst (concat (entryChunks procs up)))
                  (map gs_elems st) ups).
    - reflexivity.
    - rewrite length_map. lia.
    - intros e up. simpl. rewrite <- concat_map, map_map. reflexivity. }
  assert (Helems : map (fun '(s, sd) => map (fun u => nth (snd u) (gs_elems s) []) (concat sd))
                       (combine st (map (entryChunks procs) ups))
                   = map (map snd) (map (@concat (Simplex * Simplex)) TE)).
  { unfold TE, pairMatrix. rewrite !map_map.
    apply map_combine_cross. intros s up. simpl.
    rewrite <- concat_map, map_map. reflexivity. }
  rewrite Hcounts, Hfaces, Helems, !exchange_map, exchange_mk by exact Sq.
  cbn [option_map2 bind].
  (* the owners match *)
  set (X := map (@concat (Simplex * Simplex)) (transpose [] TE)).
  assert (HX : X = map (asked TE) (seq 0 (length TE))).
  { unfold X, transpose, asked. now rewrite map_map. }
  assert (Hrep : forRanks (fun '(fs, es) =>
                    forRanks (opposite (uorder stl (combine fs es))) (combine fs es))
                   (combine (map (map fst) X) (map (map snd) X))
                 = Some (map (fun p => map (oppOf (asked TE p)) (asked TE p))
                             (seq 0 (length TE)))).
  { rewrite combine_map_map. unfold forRanks at 1. rewrite map_map.
    rewrite (map_ext _ (fun x => forRanks (opposite (uorder stl x)) x))
      by (intros x; simpl; now rewrite combine_fst_snd).
    rewrite HX, map_map.
    change (sequence (map (fun p => forRanks (opposite (uorder stl (asked TE p))) (asked TE p))
                          (seq 0 (length TE))))
      with (forRanks (fun p => forRanks (opposite (uorder stl (asked TE p))) (asked TE p))
                     (seq 0 (length TE))).
    apply forRanks_map. intros p Hp. apply in_seq in Hp.
    apply forRanks_map. intros fe Hfe. unfold oppOf.
    destruct (opposite (uorder stl (asked TE p)) fe) eqn:E; [reflexivity|].
    exfalso. apply (Hopp p fe); [lia|exact Hfe|exact E]. }
  rewrite Hrep. cbn [bind].
  change (map (fun p => map (oppOf (asked TE p)) (asked TE p)) (seq 0 (length TE)))
    with (map (fun p => map (oppOf (asked TE p)) (concat (column [] p TE)))
              (seq 0 (length TE))).
  rewrite (exchange_reply (fun p => oppOf (asked TE p)) Sq). cbn [bind].
  reflexivity.
Qed.

Lemma In_asked (TE : list (list (list (Simplex * Simplex)))) (p : nat)
      (fe : Simplex * Simplex) :
  In fe (asked TE p) <-> exists q, q < length TE /\ In fe (nth p (nth q TE []) []).
Proof.
  unfold asked, column. rewrite in_concat. split.
  - intros (l & Hl & Hf). apply in_map_iff in Hl. destruct Hl as (row & <- & Hrow).
    apply In_nth with (d := []) in Hrow. destruct Hrow as (q & Hq & <-).
    now exists q.
  - intros (q & Hq & Hf). exists (nth p (nth q TE []) []). split; [|exact Hf].
    apply in_map_iff. exists (nth q TE []). split; [reflexivity|]. now apply nth_In.
Qed.

Lemma nth_pairMatrix (procs : nat) (es : list (list Simplex))
      (ups : list (list (Simplex * nat))) (q : nat) :
  length es = length ups -> q < length ups ->
  nth q (pairMatrix procs es ups) []
  = map (map (pairOf (nth q es []))) (entryChunks procs (nth q ups [])).
Proof.
  intros Hlen Hq. unfold pairMatrix.
  rewrite nth_map_lt with (d' := (@nil Simplex, @nil (Simplex * nat)))
    by (rewrite length_combine; lia).
  now rewrite combine_nth by exact Hlen.
Qed.

Lemma In_pairChunk (procs : nat) (es : list Simplex) (up : list (Simplex * nat))
      (p : nat) (fe : Simplex * Simplex) :
  p < procs ->
  In fe (nth p (map (map (pairOf es)) (entryChunks procs up)) []) <->
  exists u, In u up /\ hashOwner SimplexHash procs (fst u) = p /\ fe = pairOf es u.
Proof.
  intros Hp.
  rewrite nth_map_lt with (d' := @nil (Simplex * nat))
    by (unfold entryChunks; now rewrite length_map, length_seq).
  unfold entryChunks. rewrite nth_map_seq by exact Hp. rewrite in_map_iff. split.
  - intros (u & <- & Hu). apply filter_In in Hu. destruct Hu as [Hu Ho].
    apply Nat.eqb_eq in Ho. now exists u.
  - intros (u & Hu & Ho & ->). exists u. split; [reflexivity|].
    apply filter_In. split; [exact Hu|]. now apply Nat.eqb_eq.
Qed.

Lemma In_receivedOf (TE : list (list (list (Simplex * Simplex))))
      (row : list (list (Simplex * Simplex))) (e' : Simplex) :
  In e' (receivedOf TE row) <->
  exists p fe, p < length TE /\ In fe (nth p row []) /\ e' = oppOf (asked TE p) fe.
Proof.
  unfold receivedOf. rewrite in_concat. split.
  - intros (l & Hl & He). apply in_map_iff in Hl. destruct Hl as (p & <- & Hp).
    apply in_seq in Hp. apply in_map_iff in He. destruct He as (fe & <- & Hfe).
    exists p, fe. repeat split; [lia|exact Hfe].
  - intros (p & fe & Hp & Hfe & ->).
    exists (map (oppOf (asked TE p)) (nth p row [])). split.
    + apply in_map_iff. exists p. split; [reflexivity|]. apply in_seq. lia.
    + now apply in_map.
Qed.

Lemma countKey_concat_map_le (A B : Type) (f : Simplex) (g h : A -> list (Simplex * B))
      (l : list A) :
  (forall x, In x l -> countKey f (g x) <= countKey f (h x)) ->
  countKey f (concat (map g l)) <= countKey f (concat (map h l)).
Proof.
  induction l as [|x l IH]; intros H; simpl; [lia|].
  rewrite !countKey_app.
  pose proof (H x (or_introl eq_refl)).
  assert (countKey f (concat (map g l)) <= countKey f (concat (map h l)))
    by (apply IH; intros y Hy; apply H; now right).
  lia.
Qed.

(** How many elements of all ranks have the face (an element that
    holds a face twice counts twice). *)
Definition globalWitnesses (w : World Row) (f : Simplex) : nat :=
  countKey f (concat (map (fun m => upwardEntries D (elems_ m)) w)).

(** The first turn of the loop on the object as it stands: what
    [getBoundaryFaces] gives on every rank, what is left of it when
    the domain boundary is taken out, and the pairs that are sent. *)
Definition layerUps0 (w : World Row) : list (list (Simplex * nat)) :=
  map (fun m => boundaryEntries stl D (elems_ m)) w.

Definition layerUps (w : World Row) : list (list (Simplex * nat)) :=
  map (fun up => filter (fun u => heldBy (layerUps0 w) (fst u) =? 2) up) (layerUps0 w).

Definition layerPairs (w : World Row) : list (list (list (Simplex * Simplex))) :=
  pairMatrix (length w) (map (@elems_ Row) w) (layerUps w).

Lemma In_boundaryEntries (elems : list Simplex) (f : Simplex) (i : nat) :
  In (f, i) (boundaryEntries stl D elems) <->
  In (f, i) (upwardEntries D elems) /\ localWitnesses D elems f = 1.
Proof.
  unfold boundaryEntries. rewrite filter_In. simpl. rewrite Nat.eqb_eq.
  split; intros [H1 H2]; (split; [|exact H2]).
  - eapply Permutation_in; [apply uorder_perm|exact H1].
  - eapply Permutation_in; [symmetry; apply uorder_perm|exact H1].
Qed.

Section FirstLayer.

Variable w : World Row.
Hypothesis Hman : forall f, globalWitnesses w f <= 2.
Hypothesis Hnd : NoDup (concat (map (@elems_ Row) w)).

Lemma local_le_global (m : Mesh) (f : Simplex) :
  In m w -> localWitnesses D (elems_ m) f <= globalWitnesses w f.
Proof.
  intros Hm. unfold localWitnesses, globalWitnesses. apply countKey_concat_ge.
  apply in_map_iff. now exists m.
Qed.

Lemma held_le_global (f : Simplex) : heldBy (layerUps0 w) f <= globalWitnesses w f.
Proof.
  unfold heldBy, layerUps0, globalWitnesses. apply countKey_concat_map_le.
  intros m _. unfold boundaryEntries.
  eapply Nat.le_trans; [apply countKey_filter_le|].
  rewrite localWitnesses_uorder. apply Nat.le_refl.
Qed.

Lemma nth_error_layerUps0 (q : nat) (m : Mesh) :
  nth_error w q = Some m ->
  nth_error (layerUps0 w) q = Some (boundaryEntries stl D (elems_ m)).
Proof.
  intros H. unfold layerUps0.
  exact (nth_error_map_Some (fun m => boundaryEntries stl D (elems_ m)) _ _ H).
Qed.

Lemma nth_layerUps (q : nat) (m : Mesh) :
  nth_error w q = Some m ->
  nth q (layerUps w) []
  = filter (fun u => heldBy (layerUps0 w) (fst u) =? 2) (boundaryEntries stl D (elems_ m)).
Proof.
  intros H. apply nth_error_nth. unfold layerUps.
  exact (nth_error_map_Some
           (fun up => filter (fun u => heldBy (layerUps0 w) (fst u) =? 2) up) _ _
           (@nth_error_layerUps0 q m H)).
Qed.

Lemma length_layerUps : length (layerUps w) = length w.
Proof. unfold layerUps, layerUps0. now rewrite !length_map. Qed.

Lemma nth_elems (q : nat) (m : Mesh) :
  nth_error w q = Some m -> nth q (map (@elems_ Row) w) [] = elems_ m.
Proof. intros H. apply nth_error_nth. exact (nth_error_map_Some (@elems_ Row) _ _ H). Qed.

(** The pairs that rank [q] sends to owner [p]. *)
Lemma In_layerPairs (q p : nat) (m : Mesh) (fe : Simplex * Simplex) :
  nth_error w q = Some m -> p < length w ->
  In fe (nth p (nth q (layerPairs w) []) []) <->
  exists f i, fe = (f, nth i (elems_ m) []) /\
              In (f, i) (boundaryEntries stl D (elems_ m)) /\
              heldBy (layerUps0 w) f = 2 /\
              hashOwner SimplexHash (length w) f = p.
Proof.
  intros Hq Hp.
  assert (Hlt : q < length w) by (apply nth_error_Some; congruence).
  unfold layerPairs. rewrite nth_pairMatrix.
  2:{ now rewrite length_map, length_layerUps. }
  2:{ now rewrite length_layerUps. }
  rewrite (@In_pairChunk (length w) _ _ p fe Hp), (@nth_elems q m Hq), (@nth_layerUps q m Hq). split.
  - intros ([f i] & Hu & Ho & ->). apply filter_In in Hu. destruct Hu as [Hu Hh].
    simpl in Hh. apply Nat.eqb_eq in Hh. exists f, i. now repeat split.
  - intros (f & i & -> & Hu & Hh & Ho). exists (f, i). split; [|split; [exact Ho|reflexivity]].
    apply filter_In. split; [exact Hu|]. simpl. now apply Nat.eqb_eq.
Qed.

Lemma length_layerPairs : length (layerPairs w) = length w.
Proof.
  unfold layerPairs, pairMatrix.
  rewrite length_map, length_combine, length_map, length_layerUps. apply Nat.min_id.
Qed.

Lemma In_layer_asked (p : nat) (fe : Simplex * Simplex) :
  p < length w ->
  In fe (asked (layerPairs w) p) <->
  exists q m f i, nth_error w q = Some m /\ fe = (f, nth i (elems_ m) []) /\
                  In (f, i) (boundaryEntries stl D (elems_ m)) /\
                  heldBy (layerUps0 w) f = 2 /\
                  hashOwner SimplexHash (length w) f = p.
Proof.
  intros Hp. rewrite In_asked, length_layerPairs. split.
  - intros (q & Hq & Hfe).
    destruct (nth_error w q) as [m|] eqn:Hm; [|apply nth_error_None in Hm; lia].
    apply (@In_layerPairs q p m fe Hm Hp) in Hfe. destruct Hfe as (f & i & H).
    now exists q, m, f, i.
  - intros (q & m & f & i & Hm & H).
    exists q. split; [apply nth_error_Some; congruence|].
    apply (@In_layerPairs q p m fe Hm Hp). now exists f, i.
Qed.

Lemma entry_element (m : Mesh) (f : Simplex) (i : nat) :
  In (f, i) (boundaryEntries stl D (elems_ m)) ->
  i < length (elems_ m) /\ In f (downward (D - 1) (nth i (elems_ m) [])) /\
  countKey f (boundaryEntries stl D (elems_ m)) = 1.
Proof.
  intros H. pose proof H as H'. apply In_boundaryEntries in H. destruct H as [H _].
  apply In_upwardEntries in H. destruct H as [Hi Hf]. split; [exact Hi|]. split; [exact Hf|].
  pose proof (boundaryEntries_keys stl D (elems_ m) f).
  assert (0 < countKey f (boundaryEntries stl D (elems_ m))); [|lia].
  apply countKey_In. change f with (fst (f, i)). now apply in_map.
Qed.

Lemma elements_distinct (q q' : nat) (m m' : Mesh) (i i' : nat) :
  q <> q' -> nth_error w q = Some m -> nth_error w q' = Some m' ->
  i < length (elems_ m) -> i' < length (elems_ m') ->
  nth i (elems_ m) [] <> nth i' (elems_ m') [].
Proof.
  intros Hne Hq Hq' Hi Hi' E.
  apply (@NoDup_concat_ranks _ (map (@elems_ Row) w) q q' (nth i (elems_ m) []) Hnd Hne).
  - rewrite (@nth_elems q m Hq). now apply nth_In.
  - rewrite (@nth_elems q' m' Hq'), E. now apply nth_In.
Qed.

(** Every pair that reaches an owner finds its opposite there. *)
Lemma layer_opposite (p : nat) (fe : Simplex * Simplex) :
  p < length w -> In fe (asked (layerPairs w) p) ->
  opposite (uorder stl (asked (layerPairs w) p)) fe <> None.
Proof.
  intros Hp Hfe. pose proof Hfe as Hfe0.
  apply (@In_layer_asked p fe Hp) in Hfe.
  destruct Hfe as (q & m & f & i & Hq & -> & Hu & Hh & Ho).
  destruct (@entry_element m f i Hu) as (Hi & _ & Hone).
  destruct (@countKey_other_rank _ f (layerUps0 w) q _ (@nth_error_layerUps0 q m Hq))
    as (q' & b & Hne & Hb & Hpos).
  { fold (heldBy (layerUps0 w) f). lia. }
  destruct (nth_error w q') as [m'|] eqn:Hq'.
  2:{ apply nth_error_None in Hq'. assert (q' < length (layerUps0 w))
        by (apply nth_error_Some; congruence).
      unfold layerUps0 in *. rewrite length_map in *. lia. }
  rewrite (@nth_error_layerUps0 q' m' Hq') in Hb. injection Hb as <-.
  apply countKey_In in Hpos. apply in_map_iff in Hpos. destruct Hpos as ([f' i'] & E & Hu').
  simpl in E. subst f'.
  destruct (@entry_element m' f i' Hu') as (Hi' & _ & _).
  apply opposite_exists. exists (f, nth i' (elems_ m') []). split; [|split].
  - eapply Permutation_in; [symmetry; apply uorder_perm|].
    apply (@In_layer_asked p _ Hp). now exists q', m', f, i'.
  - reflexivity.
  - simpl. apply (@elements_distinct q' q m' m i' i); auto.
Qed.

(** What comes back to a rank: the elements of other ranks that share
    a face with one of its own. *)
Lemma In_layer_received (r : nat) (m : Mesh) (e' : Simplex) :
  nth_error w r = Some m ->
  In e' (receivedOf (layerPairs w) (nth r (layerPairs w) [])) <->
  exists r' m' e f, r' <> r /\ nth_error w r' = Some m' /\ In e' (elems_ m') /\
                    In e (elems_ m) /\
                    In f (downward (D - 1) e) /\ In f (downward (D - 1) e').
Proof.
  intros Hr. rewrite In_receivedOf, length_layerPairs. split.
  - intros (p & fe & Hp & Hfe & ->).
    apply (@In_layerPairs r p m fe Hr Hp) in Hfe. destruct Hfe as (f & i & -> & Hu & Hh & Ho).
    assert (Hask : In (f, nth i (elems_ m) []) (asked (layerPairs w) p)).
    { apply (@In_layer_asked p _ Hp). now exists r, m, f, i. }
    pose proof (@layer_opposite p _ Hp Hask) as Hopp. unfold oppOf.
    destruct (opposite (uorder stl (asked (layerPairs w) p)) (f, nth i (elems_ m) []))
      as [e''|] eqn:E; [|congruence].
    apply opposite_Some_inv in E. simpl in E. destruct E as [Hin Hne].
    eapply Permutation_in in Hin; [|apply uorder_perm].
    apply (@In_layer_asked p _ Hp) in Hin.
    destruct Hin as (q' & m' & f' & i' & Hq' & E & Hu' & _ & _).
    injection E as <- ->.
    destruct (@entry_element m f i Hu) as (Hi & Hf & _).
    destruct (@entry_element m' f i' Hu') as (Hi' & Hf' & _).
    exists q', m', (nth i (elems_ m) []), f.
    split; [|split; [exact Hq'|split; [now apply nth_In|split; [now apply nth_In|now split]]]].
    intros ->. assert (m' = m) by congruence. subst m'.
    apply Hne. f_equal.
    apply (@countKey_one_entry _ f (boundaryEntries stl D (elems_ m)) i' i); auto.
    apply boundaryEntries_keys.
  - intros (r' & m' & e & f & Hne & Hr' & He' & He & Hf & Hf').
    apply In_nth with (d := []) in He. destruct He as (i & Hi & <-).
    apply In_nth with (d := []) in He'. destruct He' as (i' & Hi' & <-).
    assert (Hent : In (f, i) (upwardEntries D (elems_ m)))
      by (apply In_upwardEntries; now split).
    assert (Hent' : In (f, i') (upwardEntries D (elems_ m')))
      by (apply In_upwardEntries; now split).
    assert (Hloc : localWitnesses D (elems_ m) f = 1 /\ localWitnesses D (elems_ m') f = 1).
    { assert (H1 : 0 < localWitnesses D (elems_ m) f).
      { apply countKey_In. change f with (fst (f, i)). now apply in_map. }
      assert (H2 : 0 < localWitnesses D (elems_ m') f).
      { apply countKey_In. change f with (fst (f, i')). now apply in_map. }
      pose proof (@countKey_two_ranks _ f (map (fun m => upwardEntries D (elems_ m)) w)
                    r r' _ _ (not_eq_sym Hne)
                    (nth_error_map_Some (fun m => upwardEntries D (elems_ m)) _ _ Hr)
                    (nth_error_map_Some (fun m => upwardEntries D (elems_ m)) _ _ Hr')) as H3.
      pose proof (Hman f) as H4. unfold globalWitnesses in H4.
      unfold localWitnesses in *. lia. }
    destruct Hloc as [Hl Hl'].
    assert (Hu : In (f, i) (boundaryEntries stl D (elems_ m)))
      by (apply In_boundaryEntries; now split).
    assert (Hu' : In (f, i') (boundaryEntries stl D (elems_ m')))
      by (apply In_boundaryEntries; now split).
    assert (Hc : countKey f (boundaryEntries stl D (elems_ m)) = 1)
      by apply (@entry_element m f i Hu).
    assert (Hc' : countKey f (boundaryEntries stl D (elems_ m')) = 1)
      by apply (@entry_element m' f i' Hu').
    assert (Hh : heldBy (layerUps0 w) f = 2).
    { pose proof (@countKey_two_ranks _ f (layerUps0 w) r r' _ _ (not_eq_sym Hne)
                    (@nth_error_layerUps0 r m Hr) (@nth_error_layerUps0 r' m' Hr')) as H3.
      pose proof (held_le_global f). pose proof (Hman f). unfold heldBy in *. lia. }
    assert (Hp : hashOwner SimplexHash (length w) f < length w).
    { apply hashOwner_lt. assert (r < length w) by (apply nth_error_Some; congruence). lia. }
    set (p := hashOwner SimplexHash (length w) f) in *.
    exists p, (f, nth i (elems_ m) []). split; [exact Hp|]. split.
    { apply (@In_layerPairs r p m _ Hr Hp). now exists f, i. }
    assert (Hask : In (f, nth i (elems_ m) []) (asked (layerPairs w) p)).
    { apply (@In_layer_asked p _ Hp). now exists r, m, f, i. }
    pose proof (@layer_opposite p _ Hp Hask) as Hopp. unfold oppOf.
    destruct (opposite (uorder stl (asked (layerPairs w) p)) (f, nth i (elems_ m) []))
      as [e''|] eqn:E; [|congruence].
    apply opposite_Some_inv in E. simpl in E. destruct E as [Hin Hne''].
    eapply Permutation_in in Hin; [|apply uorder_perm].
    apply (@In_layer_asked p _ Hp) in Hin.
    destruct Hin as (q'' & m'' & f'' & i'' & Hq'' & E & Hu'' & _ & _).
    injection E as <- ->.
    assert (Hc'' : countKey f (boundaryEntries stl D (elems_ m'')) = 1)
      by apply (@entry_element m'' f i'' Hu'').
    destruct (Nat.eq_dec q'' r) as [->|Hqr].
    { exfalso. assert (m'' = m) by congruence. subst m''. apply Hne''. f_equal.
      apply (@countKey_one_entry _ f (boundaryEntries stl D (elems_ m)) i'' i); auto. lia. }
    destruct (Nat.eq_dec q'' r') as [->|Hqr'].
    { assert (m'' = m') by congruence. subst m''. f_equal.
      apply (@countKey_one_entry _ f (boundaryEntries stl D (elems_ m')) i' i''); auto. lia. }
    exfalso.
    pose proof (@countKey_three_ranks _ f (layerUps0 w) r r' q'' _ _ _
                  (not_eq_sym Hne) (not_eq_sym Hqr) (not_eq_sym Hqr')
                  (@nth_error_layerUps0 r m Hr) (@nth_error_layerUps0 r' m' Hr')
                  (@nth_error_layerUps0 q'' m'' Hq'')) as H3.
    unfold heldBy in Hh. lia.
Qed.

End FirstLayer.

Lemma forRanks_of_map (A B C : Type) (f : B -> option C) (g : A -> B) (l : list A) :
  forRanks f (map g l) = forRanks (fun x => f (g x)) l.
Proof. unfold forRanks. now rewrite map_map. Qed.

(** Ghost growth by one layer (lines 208-287 with [overlap] 1), on a
    mesh of dimension above 1 in which no face has more than two
    witnesses and no element stands twice: the call returns, and
    behind its own elements every rank holds, in ascending order and
    each once, the elements of the other ranks that share a face with
    one of its own. *)
Theorem ghost_layer_neighbours (w : World Row) :
  1 < D -> (forall f, globalWitnesses w f <= 2) -> NoDup (concat (map (@elems_ Row) w)) ->
  exists res,
    getGhostElements SimplexHash stl D w 1 = Some res /\ length res = length w /\
    forall r m, nth_error w r = Some m ->
      exists batch,
        nth_error res r = Some (elems_ m ++ batch) /\ strictly_sorted batch /\
        forall e', In e' batch <->
          exists r' m' e f, r' <> r /\ nth_error w r' = Some m' /\ In e' (elems_ m') /\
                            In e (elems_ m) /\
                            In f (downward (D - 1) e) /\ In f (downward (D - 1) e').
Proof.
  intros HD Hman Hnd.
  destruct w as [|m0 w0] eqn:Ew.
  { exists []. split; [reflexivity|]. split; [reflexivity|].
    intros r m H. destruct r; discriminate. }
  rewrite <- Ew in *. assert (Hne : w <> []) by (rewrite Ew; discriminate).
  clear Ew m0 w0.
  assert (Hd : D = S (S (D - 2))) by lia.
  set (st := map (fun m : Mesh => ghostStart (elems_ m)) w).
  assert (Hst : length st = length w) by (unfold st; apply length_map).
  assert (Hes : map gs_elems st = map (@elems_ Row) w).
  { unfold st. rewrite map_map. reflexivity. }
  assert (H1 : forRanks (fun s => getBoundaryFaces stl D (gs_elems s)) st
               = Some (layerUps0 w)).
  { unfold st. rewrite forRanks_of_map. apply forRanks_map. intros m Hm. simpl.
    apply getBoundaryFaces_ok. intros f.
    pose proof (@local_le_global w m f Hm). pose proof (Hman f). lia. }
  assert (H2 : agreed (map gs_hasDomainBoundaryFaces st) = Some false).
  { apply agreed_all_false.
    - unfold st. destruct w; [congruence|discriminate].
    - intros x Hx. unfold st in Hx. rewrite map_map in Hx. simpl in Hx.
      apply in_map_iff in Hx. now destruct Hx as (m & <- & _). }
  assert (H3 : deleteDomainBoundaryFaces SimplexHash D w (layerUps0 w)
               = Some (map (domainBoundaryResult SimplexHash (length w) (layerUps0 w))
                           (layerUps0 w))).
  { rewrite Hd. apply deleteDomainBoundaryFaces_ok.
    - unfold layerUps0. apply length_map.
    - intros f. pose proof (held_le_global w f). pose proof (Hman f). lia. }
  assert (H4 : map fst (map (domainBoundaryResult SimplexHash (length w) (layerUps0 w))
                            (layerUps0 w)) = layerUps w).
  { rewrite map_map. reflexivity. }
  unfold getGhostElements. fold st. cbn [ghostLoop].
  rewrite ghostIteration_unfold, H1. cbn [bind]. rewrite H2. cbn [bind].
  rewrite H3. cbn [bind]. rewrite H4.
  rewrite (@ghostExchange_eval (D - 2) w st (layerUps w) _ CountRoundTrip Hd Hst).
  2:{ unfold layerUps, layerUps0. now rewrite !length_map. }
  2:{ rewrite Hes. intros p fe Hp Hfe. exact (@layer_opposite w Hnd p fe Hp Hfe). }
  cbn [bind]. rewrite Hes. fold (layerPairs w).
  set (dbfs := map snd (map (domainBoundaryResult SimplexHash (length w) (layerUps0 w))
                            (layerUps0 w))).
  assert (Hdb : length dbfs = length w).
  { unfold dbfs, layerUps0. now rewrite !length_map. }
  assert (HTE : length (layerPairs w) = length w) by apply length_layerPairs.
  eexists. split; [reflexivity|]. split.
  { rewrite !length_map, !length_combine, length_map. lia. }
  intros r m Hr.
  assert (Hlt : r < length w) by (apply nth_error_Some; congruence).
  exists (unique (std_sort stl simplex_ltb
                           (receivedOf (layerPairs w) (nth r (layerPairs w) [])))).
  split; [|split].
  - destruct (nth_error dbfs r) as [dbf|] eqn:Edb.
    2:{ apply nth_error_None in Edb. lia. }
    assert (Hc : nth_error (combine st (combine dbfs
                              (map (receivedOf (layerPairs w)) (layerPairs w)))) r
                 = Some (ghostStart (elems_ m),
                         (dbf, receivedOf (layerPairs w) (nth r (layerPairs w) [])))).
    { apply nth_error_combine_Some.
      - unfold st. exact (nth_error_map_Some (fun m : Mesh => ghostStart (elems_ m)) _ _ Hr).
      - apply nth_error_combine_Some; [exact Edb|].
        apply nth_error_map_Some. apply nth_error_nth'. lia. }
    rewrite map_map. rewrite (nth_error_map_Some _ _ _ Hc). reflexivity.
  - apply unique_sorted, std_sort_sorted, simplex_ltb_swo.
  - intros e'. rewrite unique_In.
    rewrite <- (@In_layer_received w Hman Hnd r m e' Hr). split.
    + apply Permutation_in, std_sort_perm, simplex_ltb_swo.
    + apply Permutation_in. symmetry. apply std_sort_perm, simplex_ltb_swo.
Qed.

End GhostLayer.

(** ** [makeG2LMap]: from an element to its local index *)

(** An [unordered_map] from simplices: [operator[]] with assignment
    inserts the key or overwrites its value; [find] gives the value of
    a key that is there. *)
Definition map_assign (k : Simplex) (v : nat) (m : list (Simplex * nat))
  : list (Simplex * nat) :=
  (k, v) :: eraseKey k m.

Definition map_find (k : Simplex) (m : list (Simplex * nat)) : option nat :=
  option_map snd (find (fun kv => simplex_eqb (fst kv) k) m).

(** [makeG2LMap] (lines 148-155): [map[e] = local++] for every local
    element in turn. *)
Definition makeG2LMap (elems : list Simplex) : list (Simplex * nat) :=
  snd (fold_left (fun st e => (S (fst st), map_assign e (fst st) (snd st))) elems (0, [])).

Lemma find_eraseKey (k k' : Simplex) (m : list (Simplex * nat)) :
  k <> k' ->
  find (fun kv => simplex_eqb (fst kv) k) (eraseKey k' m)
  = find (fun kv => simplex_eqb (fst kv) k) m.
Proof.
  intros Hne. unfold eraseKey. induction m as [|u m IH]; simpl; [reflexivity|].
  destruct (simplex_eqb (fst u) k') eqn:E; simpl.
  - rewrite IH. apply simplex_eqb_eq in E.
    replace (simplex_eqb (fst u) k) with false; [reflexivity|].
    symmetry. apply simplex_eqb_neq. congruence.
  - destruct (simplex_eqb (fst u) k); [reflexivity|exact IH].
Qed.

Lemma map_find_assign (k k' : Simplex) (v : nat) (m : list (Simplex * nat)) :
  map_find k (map_assign k' v m) = if simplex_eqb k' k then Some v else map_find k m.
Proof.
  unfold map_find, map_assign. simpl. destruct (simplex_eqb k' k) eqn:E; [reflexivity|].
  rewrite find_eraseKey; [reflexivity|]. apply simplex_eqb_neq in E. congruence.
Qed.

Lemma makeG2LMap_fold (elems : list Simplex) :
  forall (n : nat) (m : list (Simplex * nat)),
  fst (fold_left (fun st e => (S (fst st), map_assign e (fst st) (snd st))) elems (n, m))
  = n + length elems.
Proof.
  induction elems as [|e elems IH]; intros n m; simpl; [lia|].
  rewrite IH. lia.
Qed.

Lemma makeG2LMap_snoc (elems : list Simplex) (x : Simplex) :
  makeG2LMap (elems ++ [x]) = map_assign x (length elems) (makeG2LMap elems).
Proof.
  unfold makeG2LMap. rewrite fold_left_app. simpl.
  now rewrite (makeG2LMap_fold elems 0 []).
Qed.

Lemma makeG2LMap_find_last (elems : list Simplex) (e : Simplex) (i : nat) :
  map_find e (makeG2LMap elems) = Some i ->
  nth_error elems i = Some e /\ forall j, i < j -> nth_error elems j <> Some e.
Proof.
  revert i. induction elems as [|x elems IH] using rev_ind; intros i H.
  - discriminate.
  - rewrite makeG2LMap_snoc, map_find_assign in H.
    destruct (simplex_eqb x e) eqn:E.
    + apply simplex_eqb_eq in E. subst x. injection H as <-. split.
      * now rewrite nth_error_app2, Nat.sub_diag by lia.
      * intros j Hj Hc.
        assert (j < length (elems ++ [e])) by (apply nth_error_Some; congruence).
        rewrite length_app in *. simpl in *. lia.
    + destruct (IH i H) as [Hi Hlast].
      assert (Hlt : i < length elems) by (apply nth_error_Some; congruence).
      split; [now rewrite nth_error_app1|].
      intros j Hj Hc. destruct (Nat.lt_ge_cases j (length elems)) as [Hjl|Hjl].
      * rewrite nth_error_app1 in Hc by exact Hjl. now apply (Hlast j).
      * rewrite nth_error_app2 in Hc by exact Hjl.
        destruct (j - length elems) as [|k]; simpl in Hc.
        -- injection Hc as ->. now rewrite simplex_eqb_refl in E.
        -- destruct k; discriminate.
Qed.

Lemma makeG2LMap_find_None (elems : list Simplex) (e : Simplex) :
  map_find e (makeG2LMap elems) = None <-> ~ In e elems.
Proof.
  induction elems as [|x elems IH] using rev_ind.
  - split; [auto|reflexivity].
  - rewrite makeG2LMap_snoc, map_find_assign, in_app_iff.
    destruct (simplex_eqb x e) eqn:E.
    + apply simplex_eqb_eq in E. subst x. split; [discriminate|].
      intros H. exfalso. apply H. right. now left.
    + apply simplex_eqb_neq in E. rewrite IH. simpl. tauto.
Qed.

(** The map of [makeG2LMap] (lines 148-155) finds an element exactly
    when it is a local element, and gives the index of its last
    occurrence; for elements that stand once, the index at which it
    stands. *)
Theorem makeG2LMap_lookup (elems : list Simplex) (e : Simplex) :
  (map_find e (makeG2LMap elems) = None <-> ~ In e elems) /\
  (forall i, map_find e (makeG2LMap elems) = Some i ->
     nth_error elems i = Some e /\ forall j, i < j -> nth_error elems j <> Some e) /\
  (NoDup elems -> forall i, nth_error elems i = Some e ->
     map_find e (makeG2LMap elems) = Some i).
Proof.
  split; [apply makeG2LMap_find_None|]. split; [apply makeG2LMap_find_last|].
  intros Hnd i Hi.
  destruct (map_find e (makeG2LMap elems)) as [k|] eqn:E.
  - apply makeG2LMap_find_last in E. destruct E as [Hk _]. f_equal.
    rewrite NoDup_nth_error in Hnd. apply Hnd; [|congruence].
    apply nth_error_Some. congruence.
  - apply makeG2LMap_find_None in E. exfalso. apply E. eapply nth_error_In. exact Hi.
Qed.

(** ** Vertex data on the local view *)

Lemma takeWhile_boundary (A : Type) (f : A -> bool) (l : list A) (d : A) :
  (forall i, i < length (takeWhile f l) -> f (nth i l d) = true) /\
  (length (takeWhile f l) < length l -> f (nth (length (takeWhile f l)) l d) = false).
Proof.
  induction l as [|x l [IH1 IH2]]; simpl.
  - split; intros; lia.
  - destruct (f x) eqn:E; simpl.
    + split.
      * intros [|i] Hi; [exact E|]. apply IH1. lia.
      * intros H. apply IH2. lia.
    + split; [intros; lia|]. intros _. exact E.
Qed.

(** Modelled from the spec: [makeSortedDistribution] of
    parallel/SortedDistribution.h, the prefix sums of the sizes that
    the ranks contribute, with a leading zero. *)
Definition makeSortedDistribution (sizes : list nat) : list N :=
  map (fun r => N.of_nat (exscan sizes r)) (seq 0 (S (length sizes))).

Lemma nth_makeSortedDistribution (sizes : list nat) (r : nat) :
  r <= length sizes -> nth r (makeSortedDistribution sizes) 0%N = N.of_nat (exscan sizes r).
Proof.
  intros H. unfold makeSortedDistribution.
  apply (nth_map_seq (fun r => N.of_nat (exscan sizes r))). lia.
Qed.

(** The rank that the distribution names for an id below the total
    holds the id in its range. *)
Lemma SortedDistributionToRank_range (sizes : list nat) (v : N) :
  (v < N.of_nat (list_sum sizes))%N ->
  SortedDistributionToRank (makeSortedDistribution sizes) v < length sizes /\
  (nth (SortedDistributionToRank (makeSortedDistribution sizes) v)
       (makeSortedDistribution sizes) 0 <= v)%N /\
  (v < nth (S (SortedDistributionToRank (makeSortedDistribution sizes) v))
           (makeSortedDistribution sizes) 0)%N.
Proof.
  intros Hv. unfold SortedDistributionToRank.
  set (dist := makeSortedDistribution sizes).
  set (k := length (takeWhile (fun d => (d <=? v)%N) dist)).
  destruct (takeWhile_boundary (fun d => (d <=? v)%N) dist 0%N) as [B1 B2]. fold k in B1, B2.
  assert (Hl : length dist = S (length sizes)).
  { unfold dist, makeSortedDistribution. now rewrite length_map, length_seq. }
  assert (Hk1 : 1 <= k).
  { destruct (Nat.eq_dec k 0) as [E|E]; [|lia]. exfalso.
    rewrite E in B2. specialize (B2 ltac:(lia)).
    unfold dist in B2. rewrite nth_makeSortedDistribution in B2 by lia.
    unfold exscan in B2. simpl in B2. apply N.leb_gt in B2. lia. }
  assert (Hk2 : k <= length sizes).
  { destruct (Nat.le_gt_cases k (length sizes)) as [H|H]; [exact H|]. exfalso.
    specialize (B1 (length sizes) H).
    unfold dist in B1. rewrite nth_makeSortedDistribution in B1 by lia.
    rewrite exscan_total in B1 by lia. apply N.leb_le in B1. lia. }
  split; [lia|]. split.
  - specialize (B1 (k - 1) ltac:(lia)). now apply N.leb_le in B1.
  - replace (S (k - 1)) with k by lia. specialize (B2 ltac:(lia)). now apply N.leb_gt in B2.
Qed.

Section VertexData.

Variable Row : Type.
Variable unsetRow : Row.
Variable SimplexHash : Simplex -> N.

Local Abbreviation Mesh := (GlobalSimplexMesh Row).

(** [getVertexLID] (lines 399-404). *)
Definition getVertexLID (vtxdist : list N) (rank : nat) (plex : Simplex) : option nat :=
  _ <- assert (vertexOwned vtxdist rank plex) ;;
  Some (N.to_nat (nth 0 plex 0 - nth rank vtxdist 0)%N).

Definition hasData (d : option (MeshData Row)) : bool :=
  match d with Some _ => true | None => false end.

Definition theData (d : option (MeshData Row)) : MeshData Row :=
  match d with Some x => x | None => [] end.

(** [getFaces<0>], the data of the local view (lines 407-448): what
    [setMeshData] receives on every rank when vertex data is attached,
    the rows of the requested vertices in the order of the face list. *)
Definition getVertexData (w : World Row) (vertexData : list (option (MeshData Row)))
           (elems : list (list Simplex)) : option (list (option (MeshData Row))) :=
  let procs := length w in
  required <- forRanks (fun '(m, es) => requiredFaces SimplexHash 0 procs m es)
                       (combine w elems) ;;
  let counts := map (map (@length Simplex)) required in
  let faces := map (@concat Simplex) required in
  let a2a := mkAllToAllV counts in
  requestedFaces <- exchange a2a faces ;;
  let a2a' := map swap a2a in
  has <- agreed (map hasData vertexData) ;;
  if has : bool
  then lids <- forRanks (fun '(rank, (m, rf)) => forRanks (getVertexLID (vtxdist m) rank) rf)
                        (combine (seq 0 procs) (combine w requestedFaces)) ;;
       d <- redistributed unsetRow a2a' (combine lids (map theData vertexData)) ;;
       Some (map (@Some (MeshData Row)) d)
  else Some (map (fun _ => None) w).

(** [getFaces] from the chunks, when no assertion fires. *)
Lemma getFaces_eval (DD : nat) (w : World Row) (elems : list (list Simplex))
      (R : list (list (list Simplex))) :
  forRanks (fun '(m, es) => requiredFaces SimplexHash DD (length w) m es) (combine w elems)
  = Some R ->
  chunksFor SimplexHash DD w elems R ->
  (forall rank m, nth_error w rank = Some m -> DD = 0 -> 0 < length (vtxdist m) ->
     forall f, In f (requestedOf R rank) -> vertexOwned (vtxdist m) rank f = true) ->
  getFaces SimplexHash DD w elems = Some (map (viewOf DD R) (seq 0 (length R))).
Proof.
  intros HR HC Hown.
  pose proof (chunksFor_square HC) as Sq.
  assert (HlR : length R = length w) by apply HC.
  unfold getFaces. rewrite HR. cbn [bind].
  rewrite exchange_mk by exact Sq. cbn [bind].
  rewrite getContiguousGIDs_chunks by exact Sq. cbn [bind].
  rewrite (forRanks_map _ (fun _ => tt)).
  2:{ intros [rank [m rf]] Hin.
      destruct DD as [|d]; [|reflexivity].
      destruct (0 <? length (vtxdist m)) eqn:E; [|reflexivity].
      apply Nat.ltb_lt in E.
      apply (In_combine_nth _ _ _ _ 0 (m, rf)) in Hin.
      destruct Hin as (r & Hr1 & Hr2 & E1 & E2).
      rewrite length_seq in Hr1. rewrite seq_nth in E1 by exact Hr1. simpl in E1. subst r.
      rewrite combine_nth in E2 by (unfold transpose; now rewrite !length_map, length_seq).
      injection E2 as Em Erf.
      replace (forallb (vertexOwned (vtxdist m) rank) rf) with true; [reflexivity|].
      symmetry. apply forallb_forall. intros f Hf.
      apply (Hown rank m); auto.
      - rewrite <- Em. apply nth_error_nth'. exact Hr1.
      - rewrite <- Erf in Hf. unfold transpose in Hf.
        rewrite (nth_map_lt _ _ _ [])
          in Hf by (rewrite length_map, length_seq; lia).
        rewrite nth_map_seq in Hf by lia. exact Hf. }
  cbn [bind]. rewrite <- HlR.
  rewrite getSharedRanks_chunks; [|exact Sq|intros q p; eapply chunksFor_NoDup; exact HC].
  cbn [bind]. f_equal.
  rewrite (map_seq_nth (@concat Simplex) R []).
  rewrite (map_seq_nth (fun row => concat (map (fun p => map (gidOf DD R p) (nth p row []))
                                              (seq 0 (length R)))) R []).
  rewrite !combine_map_map, map_map.
  apply map_ext_in. intros q Hq. apply in_seq in Hq.
  unfold viewOf. f_equal.
  assert (E : length (nth q R []) = length R) by (apply square_nth; [exact Sq|lia]).
  rewrite <- E. now rewrite map_nth_seq.
Qed.

Lemma sublists_0 (s : Simplex) : sublists 0 s = [[]].
Proof. now destruct s. Qed.

Lemma In_vertex_face (e f : Simplex) :
  In f (downward 0 e) -> exists v, f = [v] /\ In v e.
Proof.
  unfold downward. induction e as [|x e IH]; [contradiction|].
  change (sublists 1 (x :: e)) with (map (cons x) (sublists 0 e) ++ sublists 1 e).
  rewrite sublists_0. simpl. intros [<-|H].
  - exists x. split; [reflexivity|now left].
  - destruct (IH H) as (v & -> & Hv). exists v. split; [reflexivity|now right].
Qed.

Lemma combine_seq_map (A : Type) (h : nat -> A) (n : nat) :
  combine (seq 0 n) (map h (seq 0 n)) = map (fun p => (p, h p)) (seq 0 n).
Proof.
  rewrite <- (map_id (seq 0 n)) at 1. apply combine_map_map.
Qed.

(** The owner of a vertex under the distribution of the constructor. *)
Lemma vertex_owner (sizes : list nat) (procs : nat) (m : Mesh) (f : Simplex) :
  vtxdist m = makeSortedDistribution sizes -> length sizes = procs ->
  (nth 0 f 0 < N.of_nat (list_sum sizes))%N ->
  getPlex2Rank SimplexHash 0 procs m f < procs /\
  vertexOwned (vtxdist m) (getPlex2Rank SimplexHash 0 procs m f) f = true /\
  exscan sizes (getPlex2Rank SimplexHash 0 procs m f) <= N.to_nat (nth 0 f 0%N)
  < exscan sizes (S (getPlex2Rank SimplexHash 0 procs m f)).
Proof.
  intros Hd Hl Hv. unfold getPlex2Rank. rewrite Hd.
  replace (0 <? length (makeSortedDistribution sizes)) with true.
  2:{ symmetry. apply Nat.ltb_lt. unfold makeSortedDistribution.
      rewrite length_map, length_seq. lia. }
  destruct (@SortedDistributionToRank_range sizes _ Hv) as (H1 & H2 & H3).
  set (r := SortedDistributionToRank (makeSortedDistribution sizes) (nth 0 f 0%N)) in *.
  split; [lia|]. split.
  - unfold vertexOwned. apply andb_true_iff. split; [now apply N.leb_le|now apply N.ltb_lt].
  - rewrite nth_makeSortedDistribution in H2, H3 by lia. lia.
Qed.

(** The vertex data of the local view (lines 440-448), with the
    distribution that the constructor computes from the sizes of the
    vertex data (lines 57-59) and vertex ids below the number of
    vertices: [getFaces<0>] returns, and beside the vertex at every
    position of a local list stands the row that the vertex has in the
    vertex data of all ranks, taken in rank order. *)
Theorem vertexData_reaches_faces (w : World Row) (vdata : list (MeshData Row))
        (elems : list (list Simplex)) :
  length elems = length w -> length vdata = length w ->
  (forall m, In m w -> vtxdist m = makeSortedDistribution (map (@length Row) vdata)) ->
  (forall es e v, In es elems -> In e es -> In v e ->
                  (v < N.of_nat (length (concat vdata)))%N) ->
  exists lfs data,
    getFaces SimplexHash 0 w elems = Some lfs /\
    getVertexData w (map (@Some (MeshData Row)) vdata) elems = Some data /\
    forall q lf j f,
      nth_error lfs q = Some lf -> nth_error (lf_faces lf) j = Some f ->
      exists dat,
        nth_error data q = Some (Some dat) /\ length dat = length (lf_faces lf) /\
        nth_error dat j = Some (nth (N.to_nat (nth 0 f 0%N)) (concat vdata) unsetRow).
Proof.
  intros Hlen Hvl Hdist Hids.
  destruct w as [|m0 w0] eqn:Ew.
  { destruct elems; [|discriminate]. destruct vdata; [|discriminate].
    exists [], []. split; [reflexivity|]. split; [reflexivity|].
    intros q lf j f H. destruct q; discriminate. }
  rewrite <- Ew in *. assert (Hp : 0 < length w) by (rewrite Ew; simpl; lia).
  clear Ew w0.
  set (sizes := map (@length Row) vdata) in *.
  set (procs := length w) in *.
  assert (Hsz : length sizes = procs) by (unfold sizes; now rewrite length_map).
  assert (Htot : list_sum sizes = length (concat vdata)).
  { unfold sizes. now rewrite length_concat. }
  (* every vertex has an owner *)
  assert (Hface : forall es f, In es elems -> In f (concat (map (downward 0) es)) ->
                    (nth 0 f 0 < N.of_nat (list_sum sizes))%N).
  { intros es f Hes Hf. apply in_concat in Hf. destruct Hf as (l & Hl & Hf).
    apply in_map_iff in Hl. destruct Hl as (e & <- & He).
    apply In_vertex_face in Hf. destruct Hf as (v & -> & Hv). simpl.
    rewrite Htot. exact (Hids es e v Hes He Hv). }
  destruct (@forRanks_exists _ _
              (fun '(m, es) => requiredFaces SimplexHash 0 procs m es)
              (combine w elems)) as [R HR].
  { intros [m es] Hin. unfold requiredFaces. apply requiredFaces_fold_Some.
    - apply repeat_length.
    - intros f Hf. apply (vertex_owner (sizes := sizes)); auto.
      + apply Hdist. eapply in_combine_l. exact Hin.
      + apply (Hface es); auto. eapply in_combine_r. exact Hin. }
  pose proof (@chunksFor_of_forRanks Row SimplexHash 0 w elems R Hlen HR) as HC.
  pose proof (chunksFor_square HC) as Sq.
  assert (HlR : length R = procs) by apply HC.
  (* what an owner is asked for lies in its range *)
  assert (Hreq : forall p f, In f (requestedOf R p) ->
                   exists q m es, q < length R /\ nth_error w q = Some m /\
                                  nth_error elems q = Some es /\
                                  In f (nth p (nth q R []) []) /\
                                  In f (concat (map (downward 0) es)) /\
                                  getPlex2Rank SimplexHash 0 procs m f = p).
  { intros p f Hf. apply In_requestedOf in Hf. destruct Hf as (q & Hq & Hf).
    destruct (@chunk_faces Row SimplexHash 0 w elems R q p f HC Hq Hf)
      as (m & es & Hm & Hes & Hd & Ho).
    now exists q, m, es. }
  assert (Hrange : forall p f, In f (requestedOf R p) ->
                     p < procs /\
                     exscan sizes p <= N.to_nat (nth 0 f 0%N) < exscan sizes (S p) /\
                     forall m, In m w -> vertexOwned (vtxdist m) p f = true).
  { intros p f Hf. destruct (Hreq p f Hf) as (q & m & es & Hq & Hm & Hes & _ & Hd & Ho).
    destruct (@vertex_owner sizes procs m f) as (H1 & H2 & H3).
    - apply Hdist. eapply nth_error_In. exact Hm.
    - exact Hsz.
    - apply (Hface es); [eapply nth_error_In; exact Hes|exact Hd].
    - rewrite Ho in *. split; [exact H1|]. split; [exact H3|].
      intros m' Hm'. rewrite (Hdist m' Hm'), <- (Hdist m); [exact H2|].
      eapply nth_error_In. exact Hm. }
  exists (map (viewOf 0 R) (seq 0 (length R))).
  set (g := fun (p : nat) (f : Simplex) =>
              nth (N.to_nat (nth 0 f 0%N) - exscan sizes p) (nth p vdata []) unsetRow).
  exists (map (fun row => Some (concat (map (fun p => map (g p) (nth p row []))
                                            (seq 0 (length R))))) R).
  split; [|split].
  - apply getFaces_eval; [exact HR|exact HC|].
    intros rank m Hm _ _ f Hf. apply (Hrange rank f Hf). eapply nth_error_In. exact Hm.
  - unfold getVertexData. fold procs. rewrite HR. cbn [bind].
    rewrite exchange_mk by exact Sq. cbn [bind].
    rewrite agreed_all_true.
    2:{ intros x Hx. rewrite map_map in Hx. apply in_map_iff in Hx.
        now destruct Hx as (d & <- & _). }
    cbn [bind].
    assert (HRF : map (@concat Simplex) (transpose [] R)
                  = map (requestedOf R) (seq 0 procs)).
    { unfold transpose, requestedOf. now rewrite map_map, HlR. }
    rewrite HRF.
    assert (Hlids : forRanks (fun '(rank, (m, rf)) =>
                                forRanks (getVertexLID (vtxdist m) rank) rf)
                             (combine (seq 0 procs)
                                      (combine w (map (requestedOf R) (seq 0 procs))))
                    = Some (map (fun p => map (fun f => N.to_nat (nth 0 f 0%N) - exscan sizes p)
                                              (requestedOf R p))
                                (seq 0 procs))).
    { rewrite (@combine_nth_seq _ _ w (map (requestedOf R) (seq 0 procs)) m0 [])
        by now rewrite length_map, length_seq.
      fold procs. rewrite combine_seq_map.
      unfold forRanks at 1. rewrite map_map.
      change (sequence (map ?F (seq 0 procs))) with (forRanks F (seq 0 procs)).
      apply forRanks_map. intros p Hpin. apply in_seq in Hpin.
      rewrite nth_map_seq by lia.
      apply forRanks_map. intros f Hf.
      destruct (Hrange p f Hf) as (_ & Hr & Hv).
      assert (Hm : In (nth p w m0) w) by (apply nth_In; fold procs; lia).
      unfold getVertexLID. rewrite (Hv _ Hm). cbn [assert bind]. f_equal.
      rewrite (Hdist _ Hm). fold sizes. rewrite nth_makeSortedDistribution by lia.
      lia. }
    rewrite Hlids. cbn [bind]. unfold redistributed.
    rewrite map_map, (map_ext (fun x => theData (Some x)) (fun x => x)) by reflexivity.
    rewrite map_id.
    rewrite <- (map_nth_seq vdata []) at 1. rewrite Hvl. fold procs.
    rewrite combine_map_map, map_map.
    rewrite (map_ext _ (fun p => map (g p) (concat (column [] p R))))
      by (intros p; now rewrite map_map).
    rewrite <- HlR. rewrite exchange_reply by exact Sq. cbn [bind].
    now rewrite map_map.
  - intros q lf j f Hq Hj.
    apply nth_error_views in Hq. destruct Hq as [Hq ->].
    destruct (aligned_concat (fun p => nth p (nth q R []) []) g (seq 0 (length R)) _ Hj)
      as (p & Hpin & Hf & Hv).
    exists (concat (map (fun p => map (g p) (nth p (nth q R []) [])) (seq 0 (length R)))).
    split; [|split].
    + apply (nth_error_map_Some (fun row => Some (concat (map (fun p => map (g p) (nth p row []))
                                                          (seq 0 (length R)))))).
      apply nth_error_nth'. exact Hq.
    + simpl. apply length_aligned.
    + rewrite Hv. f_equal. unfold g.
      assert (Hfr : In f (requestedOf R p)) by (apply In_requestedOf; now exists q).
      destruct (Hrange p f Hfr) as (Hpl & Hr & _).
      rewrite exscan_S in Hr. unfold sizes in Hr at 3.
      assert (Hpv : p < length vdata) by (unfold MeshData in *; lia).
      rewrite nth_map_lt with (d' := @nil Row) in Hr by exact Hpv.
      rewrite <- (@nth_concat_displ _ vdata unsetRow p) by lia.
      f_equal. unfold displ. fold sizes. unfold exscan in *. lia.
Qed.

End VertexData.

(** ** Boundary-mesh data on the local view *)

Section BoundaryData.

Variable Row : Type.
Variable unsetRow : Row.
Variable SimplexHash : Simplex -> N.
Variable stl : StdLib.

Local Abbreviation Mesh := (GlobalSimplexMesh Row).

(** [std::numeric_limits<std::size_t>::max()] on a 64-bit target. *)
Definition size_t_max : nat := N.to_nat 18446744073709551615.

(** The lookups of lines 453-463: the local index of every requested
    face in the boundary mesh, [size_t_max] for a face it has not. *)
Definition boundaryLids (bm : Mesh) (requestedFaces : list Simplex) : list nat :=
  let map := makeG2LMap (elems_ bm) in
  List.map (fun face => match map_find face map with
                        | None => size_t_max
                        | Some i => i
                        end) requestedFaces.

(** [boundaryMesh && boundaryMesh->elementData] (line 451). *)
Definition hasBoundaryData (b : option Mesh) : bool :=
  match b with Some bm => hasElementData bm | None => false end.

Definition noMesh : Mesh :=
  {| elems_ := []; elementData := None; isPartitionedByHash := false; vtxdist := [] |}.

(** The object behind the pointer; [noMesh] is never read, the pointer
    is dereferenced where [hasBoundaryData] holds. *)
Definition theMesh (b : option Mesh) : Mesh :=
  match b with Some bm => bm | None => noMesh end.

(** [getFaces<DD>] for [0 < DD < D], the data of the local view (lines
    407-439 and 449-466): what [setMeshData] receives on every rank,
    and the boundary mesh of dimension [DD] after the call, which
    repartitions it.  The boundary mesh lives on the communicator of
    its parent; its collective call needs every rank to take the same
    branch. *)
Definition getBoundaryData (D DD : nat) (w : World Row) (boundaryMesh : list (option Mesh))
           (elems : list (list Simplex))
  : option (list (option (MeshData Row)) * list (option Mesh)) :=
  let procs := length w in
  required <- forRanks (fun '(m, es) => requiredFaces SimplexHash DD procs m es)
                       (combine w elems) ;;
  let counts := map (map (@length Simplex)) required in
  let faces := map (@concat Simplex) required in
  let a2a := mkAllToAllV counts in
  requestedFaces <- exchange a2a faces ;;
  let a2a' := map swap a2a in
  if (0 <? DD) && (DD <? D)
  then has <- agreed (map hasBoundaryData boundaryMesh) ;;
       if has : bool
       then wb <- repartitionByHash unsetRow SimplexHash stl DD (map theMesh boundaryMesh) ;;
            let lids := map (fun '(bm, rf) => boundaryLids bm rf) (combine wb requestedFaces) in
            d <- redistributed unsetRow a2a' (combine lids (map (@theElementData Row) wb)) ;;
            Some (map (@Some (MeshData Row)) d, map (@Some Mesh) wb)
       else Some (map (fun _ => None) w, boundaryMesh)
  else Some (map (fun _ => None) w, boundaryMesh).

(** A boundary mesh as constructed, with element data on every rank:
    the call of [repartitionByHash] returns, puts every element on the
    rank of its hash, loses no row, and leaves one row per element. *)
Lemma repartitionByHash_fresh (DD : nat) (wb : World Row) :
  0 < DD -> (forall m, In m wb -> isPartitionedByHash m = false) ->
  (forall m, In m wb -> hasElementData m = true) ->
  exists wb', repartitionByHash unsetRow SimplexHash stl DD wb = Some wb' /\
    length wb' = length wb /\ hash_partitioned SimplexHash wb' /\
    Permutation (allRows unsetRow wb') (allRows unsetRow wb) /\
    forall m', In m' wb' ->
      exists d, elementData m' = Some d /\ length d = numElements m'.
Proof.
  intros HD Hfl Hdat.
  assert (Hag : agreed (map (@hasElementData Row) wb) = Some true).
  { apply agreed_all_true. intros x Hx. apply in_map_iff in Hx.
    destruct Hx as (m & <- & Hm). now apply Hdat. }
  assert (Hdu : data_uniform wb) by (unfold data_uniform; congruence).
  destruct (@flags_cleared Row SimplexHash wb Hfl) as [Hf1 Hf2].
  destruct (@repartitionByHash_spec Row unsetRow stl SimplexHash DD wb HD Hdu Hf1 Hf2)
    as (wb' & Hwb' & Hhp & _ & _).
  destruct (@repartitionByHash_rows Row unsetRow stl SimplexHash DD wb HD Hdu Hf1)
    as (wb2 & Hwb2 & Hperm).
  rewrite Hwb' in Hwb2. injection Hwb2 as <-.
  exists wb'. split; [exact Hwb'|]. split.
  { exact (@length_repartitionByHash Row unsetRow stl SimplexHash DD wb wb' Hwb'). }
  split; [exact Hhp|]. split; [exact Hperm|].
  intros m' Hm'. unfold repartitionByHash in Hwb'.
  destruct (agreed (map (@isPartitionedByHash Row) wb)) as [[|]|] eqn:Hflag;
    cbn [bind] in Hwb'; [| |discriminate].
  - apply agreed_true_of_false in Hflag.
    + apply map_eq_nil in Hflag. subst wb. injection Hwb' as <-. contradiction.
    + intros x Hx. apply in_map_iff in Hx. destruct Hx as (m & <- & Hm). now apply Hfl.
  - destruct (doPartition unsetRow stl _) as [w''|] eqn:E; cbn [bind] in Hwb'; [|discriminate].
    injection Hwb' as <-.
    apply in_map_iff in Hm'. destruct Hm' as (m'' & <- & Hm'').
    apply doPartition_inv in E. destruct E as (X & hd & _ & _ & Hhd & ->).
    rewrite !map_map in Hhd.
    change (agreed (map (@hasElementData Row) wb) = Some hd) in Hhd.
    rewrite Hag in Hhd. injection Hhd as <-.
    apply in_map_iff in Hm''. destruct Hm'' as ([m x] & <- & _).
    exists (map (getRow unsetRow) x). split; [reflexivity|].
    unfold numElements. simpl. now rewrite !length_map.
Qed.

Lemma map_fst_rows (m : Mesh) : map fst (rows unsetRow m) = elems_ m.
Proof.
  unfold rows, numElements. rewrite map_map. simpl. apply map_nth_seq.
Qed.

Lemma map_fst_allRows (w : World Row) :
  map fst (allRows unsetRow w) = concat (map (@elems_ Row) w).
Proof.
  unfold allRows. rewrite concat_map, map_map. f_equal. apply map_ext. apply map_fst_rows.
Qed.

Lemma NoDup_concat_member (A : Type) (L : list (list A)) (l : list A) :
  NoDup (concat L) -> In l L -> NoDup l.
Proof.
  induction L as [|x L IH]; [contradiction|]. simpl. intros Hnd [->|Hin].
  - eapply NoDup_app_remove_r. exact Hnd.
  - apply IH; [|exact Hin]. eapply NoDup_app_remove_l. exact Hnd.
Qed.

Lemma length_concat_member (A : Type) (L : list (list A)) (l : list A) :
  In l L -> length l <= length (concat L).
Proof.
  induction L as [|x L IH]; [contradiction|]. simpl. rewrite length_app. intros [->|Hin].
  - lia.
  - specialize (IH Hin). lia.
Qed.

(** The row with which the owner answers a request for face [f]
    (lines 456-465, and the gather of [redistributed]). *)
Definition lookupRow (bm : Mesh) (f : Simplex) : Row :=
  nth (match map_find f (makeG2LMap (elems_ bm)) with
       | None => size_t_max
       | Some i => i
       end) (theElementData bm) unsetRow.

Lemma boundary_sends (wb : World Row) (rfs : list (list Simplex)) :
  length rfs = length wb ->
  map (fun '(lids, dat) => map (fun i => nth i dat unsetRow) lids)
      (combine (map (fun '(bm, rf) => boundaryLids bm rf) (combine wb rfs))
               (map (@theElementData Row) wb))
  = map (fun '(bm, rf) => map (lookupRow bm) rf) (combine wb rfs).
Proof.
  revert rfs. induction wb as [|bm wb IH]; intros [|rf rfs] H; try discriminate;
    [reflexivity|].
  simpl. f_equal.
  - unfold boundaryLids. rewrite map_map. reflexivity.
  - apply IH. simpl in H. lia.
Qed.

(** On a hash-partitioned boundary mesh that lists no face twice, the
    owner of a face answers with the row of the face, and with the
    [unset] row for a face that the boundary mesh has not. *)
Lemma boundary_row (wb wb' : World Row) (bm : Mesh) (f : Simplex) :
  hash_partitioned SimplexHash wb' ->
  Permutation (allRows unsetRow wb') (allRows unsetRow wb) ->
  (forall m', In m' wb' -> exists d, elementData m' = Some d /\ length d = numElements m') ->
  NoDup (concat (map (@elems_ Row) wb)) ->
  length (concat (map (@elems_ Row) wb)) <= size_t_max ->
  nth_error wb' (N.to_nat (SimplexHash f mod N.of_nat (length wb'))) = Some bm ->
  (forall row, In (f, Some row) (allRows unsetRow wb) -> lookupRow bm f = row) /\
  (~ In f (concat (map (@elems_ Row) wb)) -> lookupRow bm f = unsetRow).
Proof.
  intros Hhp Hperm Hdat Hnd Hmax Hbm.
  assert (Hel : Permutation (concat (map (@elems_ Row) wb')) (concat (map (@elems_ Row) wb))).
  { rewrite <- !map_fst_allRows. apply Permutation_map. exact Hperm. }
  assert (Hin : In bm wb') by (eapply nth_error_In; exact Hbm).
  assert (Hnd' : NoDup (elems_ bm)).
  { apply (@NoDup_concat_member _ (map (@elems_ Row) wb')).
    - eapply Permutation_NoDup; [apply Permutation_sym; exact Hel|exact Hnd].
    - now apply in_map. }
  split.
  - intros row Hrow.
    eapply Permutation_in in Hrow; [|apply Permutation_sym; exact Hperm].
    unfold allRows in Hrow. apply in_concat in Hrow. destruct Hrow as (l & Hl & Hrow).
    apply in_map_iff in Hl. destruct Hl as (m & <- & Hm).
    unfold rows in Hrow. apply in_map_iff in Hrow. destruct Hrow as (i & Hi & Hlt).
    apply in_seq in Hlt.
    assert (Ef : nth i (elems_ m) [] = f) by exact (f_equal fst Hi).
    apply In_nth_error in Hm. destruct Hm as [r Hr].
    assert (Er : N.to_nat (SimplexHash f mod N.of_nat (length wb')) = r).
    { apply (Hhp r m f Hr). rewrite <- Ef. apply nth_In. unfold numElements in Hlt. lia. }
    rewrite Er, Hr in Hbm. injection Hbm as <-.
    assert (Hnth : nth_error (elems_ m) i = Some f).
    { rewrite <- Ef. apply nth_error_nth'. unfold numElements in Hlt. lia. }
    unfold lookupRow.
    destruct (map_find f (makeG2LMap (elems_ m))) as [k|] eqn:E.
    + apply makeG2LMap_find_last in E. destruct E as [Hk _].
      assert (k = i).
      { rewrite NoDup_nth_error in Hnd'. apply Hnd'; [|congruence].
        apply nth_error_Some. congruence. }
      subst k. rewrite <- getRow_rowAt, Hi. reflexivity.
    + apply makeG2LMap_find_None in E. exfalso. apply E. eapply nth_error_In. exact Hnth.
  - intros Hno. unfold lookupRow.
    destruct (map_find f (makeG2LMap (elems_ bm))) as [k|] eqn:E.
    + apply makeG2LMap_find_last in E. destruct E as [Hk _]. exfalso. apply Hno.
      eapply Permutation_in; [exact Hel|]. apply in_concat. exists (elems_ bm).
      split; [now apply in_map|]. eapply nth_error_In. exact Hk.
    + apply nth_overflow.
      destruct (Hdat bm Hin) as (d & Hd & Hld).
      unfold theElementData. rewrite Hd, Hld. unfold numElements.
      assert (H1 : length (elems_ bm) <= length (concat (map (@elems_ Row) wb'))).
      { apply length_concat_member. now apply in_map. }
      rewrite (Permutation_length Hel) in H1. lia.
Qed.

(** The data of a boundary mesh on the local view (lines 449-466).
    The boundary mesh of dimension [0 < DD < D] is as constructed,
    has element data on every rank and lists no face twice:
    [getFaces<DD>] returns, and beside the face at every position of a
    local list stands the row that the boundary mesh attaches to the
    face, on whichever rank the face was given, and the [unset] row
    when the boundary mesh has not the face. *)
Theorem boundaryData_reaches_faces (D DD : nat) (w wb : World Row)
        (elems : list (list Simplex)) :
  0 < DD < D -> length elems = length w -> length wb = length w ->
  (forall bm, In bm wb -> isPartitionedByHash bm = false) ->
  (forall bm, In bm wb -> hasElementData bm = true) ->
  NoDup (concat (map (@elems_ Row) wb)) ->
  length (concat (map (@elems_ Row) wb)) <= size_t_max ->
  exists lfs data wb',
    getFaces SimplexHash DD w elems = Some lfs /\
    getBoundaryData D DD w (map (@Some Mesh) wb) elems
    = Some (data, map (@Some Mesh) wb') /\
    forall q lf j f,
      nth_error lfs q = Some lf -> nth_error (lf_faces lf) j = Some f ->
      exists dat,
        nth_error data q = Some (Some dat) /\ length dat = length (lf_faces lf) /\
        (forall row, In (f, Some row) (allRows unsetRow wb) -> nth_error dat j = Some row) /\
        (~ In f (concat (map (@elems_ Row) wb)) -> nth_error dat j = Some unsetRow).
Proof.
  intros HDD Hlen Hlb Hfl Hdata Hnd Hmax.
  set (procs := length w) in *.
  destruct (@forRanks_exists _ _
              (fun '(m, es) => requiredFaces SimplexHash DD procs m es)
              (combine w elems)) as [R HR].
  { intros [m es] Hin. apply requiredFaces_returns; [|left; lia].
    apply in_combine_l in Hin. unfold procs. destruct w; [contradiction|simpl; lia]. }
  pose proof (@chunksFor_of_forRanks Row SimplexHash DD w elems R Hlen HR) as HC.
  pose proof (chunksFor_square HC) as Sq.
  assert (HlR : length R = procs) by apply HC.
  destruct (@repartitionByHash_fresh DD wb ltac:(lia) Hfl Hdata)
    as (wb' & Hwb' & Hlen' & Hhp & Hperm & Hdat).
  set (g := fun (p : nat) (f : Simplex) => lookupRow (nth p wb' noMesh) f).
  exists (map (viewOf DD R) (seq 0 (length R))).
  exists (map (fun row => Some (concat (map (fun p => map (g p) (nth p row []))
                                            (seq 0 (length R))))) R).
  exists wb'.
  split; [|split].
  - apply getFaces_eval; [exact HR|exact HC|]. intros; lia.
  - unfold getBoundaryData. fold procs. rewrite HR. cbn [bind].
    rewrite exchange_mk by exact Sq. cbn [bind].
    replace ((0 <? DD) && (DD <? D)) with true.
    2:{ symmetry. apply andb_true_iff. split; apply Nat.ltb_lt; lia. }
    rewrite agreed_all_true.
    2:{ intros x Hx. rewrite map_map in Hx. apply in_map_iff in Hx.
        destruct Hx as (bm & <- & Hbm). simpl. now apply Hdata. }
    cbn [bind].
    rewrite map_map, (map_ext (fun x => theMesh (Some x)) (fun x => x)) by reflexivity.
    rewrite map_id, Hwb'. cbn [bind].
    assert (HRF : map (@concat Simplex) (transpose [] R)
                  = map (requestedOf R) (seq 0 procs)).
    { unfold transpose, requestedOf. now rewrite map_map, HlR. }
    rewrite HRF. unfold redistributed.
    rewrite boundary_sends by (rewrite length_map, length_seq; lia).
    rewrite (@combine_nth_seq _ _ wb' (map (requestedOf R) (seq 0 procs)) noMesh [])
      by (rewrite length_map, length_seq; lia).
    rewrite map_map, Hlen', Hlb.
    rewrite (map_ext_in _ (fun p => map (g p) (concat (column [] p R)))).
    2:{ intros p Hp. apply in_seq in Hp. rewrite nth_map_seq by lia. reflexivity. }
    rewrite <- HlR. rewrite exchange_reply by exact Sq. cbn [bind].
    now rewrite map_map.
  - intros q lf j f Hq Hj.
    apply nth_error_views in Hq. destruct Hq as [Hq ->].
    destruct (aligned_concat (fun p => nth p (nth q R []) []) g (seq 0 (length R)) _ Hj)
      as (p & Hpin & Hf & Hv).
    exists (concat (map (fun p => map (g p) (nth p (nth q R []) [])) (seq 0 (length R)))).
    split; [|split].
    + apply (nth_error_map_Some (fun row => Some (concat (map (fun p => map (g p) (nth p row []))
                                                          (seq 0 (length R)))))).
      apply nth_error_nth'. exact Hq.
    + simpl. apply length_aligned.
    + rewrite Hv. apply in_seq in Hpin.
      destruct (@chunk_faces Row SimplexHash DD w elems R q p f HC Hq Hf)
        as (m & es & _ & _ & _ & Ho).
      assert (Hbm : nth_error wb' (N.to_nat (SimplexHash f mod N.of_nat (length wb')))
                    = Some (nth p wb' noMesh)).
      { rewrite Hlen', Hlb. fold procs.
        unfold getPlex2Rank in Ho. destruct DD as [|d]; [lia|]. fold procs in Ho.
        rewrite Ho. apply nth_error_nth'. lia. }
      destruct (@boundary_row wb wb' (nth p wb' noMesh) f Hhp Hperm Hdat Hnd Hmax Hbm)
        as [H1 H2].
      unfold g. split.
      * intros row Hrow. f_equal. now apply H1.
      * intros Hno. f_equal. now apply H2.
Qed.

End BoundaryData.

(** ** The distributed CSR for the partitioner *)

Section CSR.

Variable Row : Type.

(** The template parameter of the mesh: elements are [D]-simplices. *)
Variable D : nat.

(** [OutIntT], a signed integer type as the [idx_t] of the
    partitioner: its largest value, beyond which [++] overflows, and
    the conversion from [uint64_t] and [std::size_t]. *)
Variable maxOut : Z.
Variable cast : N -> Z.

Local Abbreviation Mesh := (GlobalSimplexMesh Row).

Record DistributedCSR : Type := {
  dist : list Z;
  rowPtr : list Z;
  colInd : list Z
}.

(** [a[i] = v] on a vector of fixed size; a write outside the vector
    has no defined result. *)
Definition store (a : list Z) (i : Z) (v : Z) : option (list Z) :=
  if ((0 <=? i) && (i <? Z.of_nat (length a)))%Z
  then Some (firstn (Z.to_nat i) a ++ v :: skipn (S (Z.to_nat i)) a)
  else None.

(** [i++] on an [OutIntT]; beyond the largest value the signed
    counter overflows, which has no defined result. *)
Definition incr (i : Z) : option Z :=
  if (i <? maxOut)%Z then Some (i + 1)%Z else None.

(** The inner loop (lines 93-95). *)
Fixpoint writeCols (e : Simplex) (colInd : list Z) (ind : Z) : option (list Z * Z) :=
  match e with
  | [] => Some (colInd, ind)
  | p :: e' =>
      colInd' <- store colInd ind (cast p) ;;
      ind' <- incr ind ;;
      writeCols e' colInd' ind'
  end.

(** The outer loop (lines 91-96). *)
Fixpoint writeRows (es : list Simplex) (rowPtr colInd : list Z) (ind ptr : Z)
  : option (list Z * list Z * Z) :=
  match es with
  | [] => Some (rowPtr, colInd, ind)
  | e :: es' =>
      rowPtr' <- store rowPtr ptr ind ;;
      ptr' <- incr ptr ;;
      ' (colInd', ind') <- writeCols e colInd ind ;;
      writeRows es' rowPtr' colInd' ind' ptr'
  end.

(** [distributedCSR<OutIntT>()] on one rank (lines 77-99); [elmdist]
    is what [makeSortedDistribution] returns there. *)
Definition distributedCSR_local (elmdist : list N) (m : Mesh) : option DistributedCSR :=
  let numElems := numElements m in
  ' (rowPtr', colInd', ind) <- writeRows (elems_ m) (repeat 0%Z (numElems + 1))
                                          (repeat 0%Z (numElems * (D + 1))) 0 0 ;;
  rowPtr'' <- store rowPtr' (Z.of_nat (length rowPtr') - 1) ind ;;
  Some {| dist := map cast elmdist; rowPtr := rowPtr''; colInd := colInd' |}.

(** Every rank calls [distributedCSR]. *)
Definition distributedCSR (w : World Row) : option (list DistributedCSR) :=
  forRanks (distributedCSR_local (makeSortedDistribution (map (@numElements Row) w))) w.

Lemma firstn_skipn_at (pre post : list Z) (old : Z) :
  firstn (length pre) (pre ++ old :: post) = pre /\
  skipn (S (length pre)) (pre ++ old :: post) = post.
Proof.
  induction pre as [|x pre [IH1 IH2]]; [now split|]. split.
  - cbn [length app firstn]. now rewrite IH1.
  - exact IH2.
Qed.

Lemma store_at (pre post : list Z) (old v : Z) :
  store (pre ++ old :: post) (Z.of_nat (length pre)) v = Some (pre ++ v :: post).
Proof.
  unfold store. rewrite length_app. cbn [length].
  replace ((0 <=? Z.of_nat (length pre)) &&
           (Z.of_nat (length pre) <? Z.of_nat (length pre + S (length post))))%Z with true.
  2:{ symmetry. apply andb_true_iff. split; [apply Z.leb_le|apply Z.ltb_lt]; lia. }
  rewrite Nat2Z.id.
  destruct (firstn_skipn_at pre post old) as [E1 E2]. now rewrite E1, E2.
Qed.

Lemma writeCols_ok (e : Simplex) :
  forall (pre junk : list Z),
  length e <= length junk -> (Z.of_nat (length pre + length e) <= maxOut)%Z ->
  writeCols e (pre ++ junk) (Z.of_nat (length pre))
  = Some (pre ++ map cast e ++ skipn (length e) junk, Z.of_nat (length pre + length e)).
Proof.
  induction e as [|p e IH]; intros pre junk Hj Hm; simpl.
  - now rewrite Nat.add_0_r.
  - destruct junk as [|old junk]; [simpl in Hj; lia|].
    rewrite store_at. cbn [bind]. unfold incr.
    replace (Z.of_nat (length pre) <? maxOut)%Z with true
      by (symmetry; apply Z.ltb_lt; simpl in Hm; lia).
    cbn [bind].
    replace (Z.of_nat (length pre) + 1)%Z with (Z.of_nat (length (pre ++ [cast p])))
      by (rewrite length_app; simpl; lia).
    replace (pre ++ cast p :: junk) with ((pre ++ [cast p]) ++ junk)
      by (now rewrite <- app_assoc).
    rewrite IH.
    + rewrite <- app_assoc, length_app. simpl. do 2 f_equal. lia.
    + simpl in Hj. lia.
    + rewrite length_app. simpl in *. lia.
Qed.

Lemma writeCols_inv (e : Simplex) :
  forall (c c' : list Z) (ind ind' : Z),
  writeCols e c ind = Some (c', ind') ->
  ind' = (ind + Z.of_nat (length e))%Z /\ (e <> [] -> (ind' <= maxOut)%Z).
Proof.
  induction e as [|p e IH]; intros c c' ind ind' H; simpl in H.
  - injection H as <- <-. split; [simpl; lia|congruence].
  - destruct (store c ind (cast p)) as [c1|]; cbn [bind] in H; [|discriminate].
    unfold incr in H. destruct (ind <? maxOut)%Z eqn:E; cbn [bind] in H; [|discriminate].
    apply Z.ltb_lt in E. apply IH in H. destruct H as [-> Hle].
    split; [simpl length; lia|]. intros _.
    destruct e as [|x e]; [simpl; lia|]. apply Hle. discriminate.
Qed.

Lemma writeRows_ok (es : list Simplex) :
  forall (preR junkR preC junkC : list Z),
  (forall e, In e es -> length e = S D) ->
  length es <= length junkR -> length es * S D <= length junkC ->
  (Z.of_nat (length preC + length es * S D) <= maxOut)%Z ->
  (Z.of_nat (length preR + length es) <= maxOut)%Z ->
  writeRows es (preR ++ junkR) (preC ++ junkC) (Z.of_nat (length preC))
            (Z.of_nat (length preR))
  = Some (preR ++ map (fun k => Z.of_nat (length preC + k * S D)) (seq 0 (length es))
               ++ skipn (length es) junkR,
          preC ++ map cast (concat es) ++ skipn (length es * S D) junkC,
          Z.of_nat (length preC + length es * S D)).
Proof.
  induction es as [|e es IH]; intros preR junkR preC junkC Hd HjR HjC HmC HmR.
  - simpl. now rewrite Nat.add_0_r.
  - assert (He : length e = S D) by (apply Hd; now left).
    cbn [writeRows].
    destruct junkR as [|old junkR]; [simpl in HjR; lia|].
    rewrite store_at. cbn [bind]. unfold incr at 1.
    replace (Z.of_nat (length preR) <? maxOut)%Z with true
      by (symmetry; apply Z.ltb_lt; simpl in HmR; lia).
    cbn [bind].
    change (length (e :: es)) with (S (length es)) in *.
    rewrite writeCols_ok by (rewrite He; simpl in HjC; simpl in HmC; lia).
    cbn [bind].
    replace (Z.of_nat (length preR) + 1)%Z
      with (Z.of_nat (length (preR ++ [Z.of_nat (length preC)])))
      by (rewrite length_app; simpl; lia).
    replace (preR ++ Z.of_nat (length preC) :: junkR)
      with ((preR ++ [Z.of_nat (length preC)]) ++ junkR) by (now rewrite <- app_assoc).
    replace (preC ++ map cast e ++ skipn (length e) junkC)
      with ((preC ++ map cast e) ++ skipn (length e) junkC) by (now rewrite <- app_assoc).
    replace (Z.of_nat (length preC + length e))
      with (Z.of_nat (length (preC ++ map cast e)))
      by (now rewrite length_app, length_map).
    rewrite IH.
    + rewrite !length_app, length_map, He. cbn [length].
      f_equal. f_equal; [f_equal|].
      * rewrite <- app_assoc. f_equal. cbn [seq map app skipn]. f_equal.
        -- f_equal. lia.
        -- f_equal. rewrite <- seq_shift, map_map. apply map_ext. intros k.
           f_equal. simpl. lia.
      * rewrite <- app_assoc. f_equal. cbn [concat]. rewrite map_app, <- app_assoc.
        f_equal. f_equal. rewrite skipn_skipn. f_equal. simpl. lia.
      * f_equal. simpl. lia.
    + intros e' He'. apply Hd. now right.
    + simpl in HjR. lia.
    + rewrite length_skipn, He. simpl in HjC. lia.
    + rewrite length_app, length_map, He. simpl in HmC. lia.
    + rewrite length_app. simpl in *. lia.
Qed.

Lemma writeCols_overflow (e : Simplex) :
  forall (c : list Z) (ind : Z),
  (maxOut < ind + Z.of_nat (length e))%Z -> (ind <= maxOut)%Z -> writeCols e c ind = None.
Proof.
  induction e as [|p e IH]; intros c ind Hov Hle; simpl in *; [lia|].
  destruct (store c ind (cast p)) as [c1|]; cbn [bind]; [|reflexivity].
  unfold incr. destruct (ind <? maxOut)%Z eqn:E; cbn [bind]; [|reflexivity].
  apply Z.ltb_lt in E. apply IH; lia.
Qed.

Lemma writeRows_overflow (es : list Simplex) :
  forall (r c : list Z) (ind ptr : Z),
  (maxOut < ind + Z.of_nat (length (concat es)))%Z -> (ind <= maxOut)%Z ->
  writeRows es r c ind ptr = None.
Proof.
  induction es as [|e es IH]; intros r c ind ptr Hov Hle; [simpl in Hov; lia|].
  cbn [writeRows].
  destruct (store r ptr ind) as [r1|]; cbn [bind]; [|reflexivity].
  destruct (incr ptr) as [ptr1|]; cbn [bind]; [|reflexivity].
  destruct (writeCols e c ind) as [[c1 ind1]|] eqn:E; cbn [bind]; [|reflexivity].
  apply writeCols_inv in E. destruct E as [-> Hb].
  cbn [concat] in Hov. rewrite length_app in Hov.
  apply IH; [lia|].
  destruct e as [|x e]; [simpl; lia|]. apply Hb. discriminate.
Qed.

Lemma length_concat_simplices (es : list Simplex) :
  (forall e, In e es -> length e = S D) -> length (concat es) = length es * S D.
Proof.
  induction es as [|e es IH]; intros H; [reflexivity|].
  cbn [concat length]. rewrite length_app.
  rewrite IH by (intros e' He'; apply H; now right).
  rewrite (H e) by now left. simpl. lia.
Qed.

(** What one rank gets when nothing overflows. *)
Lemma distributedCSR_local_ok (elmdist : list N) (m : Mesh) :
  (forall e, In e (elems_ m) -> length e = S D) ->
  (Z.of_nat (numElements m * S D) <= maxOut)%Z ->
  distributedCSR_local elmdist m
  = Some {| dist := map cast elmdist;
            rowPtr := map (fun i => Z.of_nat (i * S D)) (seq 0 (S (numElements m)));
            colInd := map cast (concat (elems_ m)) |}.
Proof.
  intros Hd Hm. unfold distributedCSR_local, numElements in *.
  set (n := length (elems_ m)) in *.
  assert (Hn : n <= n * S D) by (rewrite Nat.mul_succ_r; lia).
  pose proof (@writeRows_ok (elems_ m) [] (repeat 0%Z (n + 1)) []
                            (repeat 0%Z (n * (D + 1))) Hd) as H.
  cbn [app length] in H. change (Z.of_nat 0) with 0%Z in H. fold n in H.
  rewrite H; clear H.
  - cbn [bind].
    rewrite repeat_app, skipn_app, repeat_length, Nat.sub_diag.
    rewrite (skipn_all2 (repeat 0%Z n)) by (rewrite repeat_length; lia).
    replace (skipn (n * S D) (repeat 0%Z (n * (D + 1)))) with (@nil Z)
      by (symmetry; apply skipn_all2; rewrite repeat_length; lia).
    cbn [repeat skipn app]. rewrite app_nil_r.
    set (pre := map (fun k => Z.of_nat (0 + k * S D)) (seq 0 n)).
    assert (Hp : length pre = n) by (unfold pre; now rewrite length_map, length_seq).
    replace (Z.of_nat (length (pre ++ [0%Z])) - 1)%Z with (Z.of_nat (length pre))
      by (rewrite length_app; simpl; lia).
    rewrite store_at. cbn [bind]. f_equal. f_equal.
    rewrite seq_S, map_app. reflexivity.
  - rewrite repeat_length. lia.
  - rewrite repeat_length. lia.
  - exact Hm.
  - lia.
Qed.

(** [distributedCSR] writes row [i] of the CSR at offset [i * (D+1)]
    and the vertex ids of the elements, in element order, into the
    column indices; it returns when the number of column indices of
    every rank fits [OutIntT], and the counter overflows when it does
    not. *)
Theorem distributedCSR_spec (w : World Row) :
  (0 <= maxOut)%Z ->
  (forall m e, In m w -> In e (elems_ m) -> length e = S D) ->
  ((forall m, In m w -> (Z.of_nat (numElements m * S D) <= maxOut)%Z) ->
   exists csrs,
     distributedCSR w = Some csrs /\ length csrs = length w /\
     forall r m, nth_error w r = Some m ->
       nth_error csrs r
       = Some {| dist := map cast (makeSortedDistribution (map (@numElements Row) w));
                 rowPtr := map (fun i => Z.of_nat (i * S D)) (seq 0 (S (numElements m)));
                 colInd := map cast (concat (elems_ m)) |}) /\
  ((exists m, In m w /\ (maxOut < Z.of_nat (numElements m * S D))%Z) ->
   distributedCSR w = None).
Proof.
  intros Hmax Hd. split.
  - intros Hfit.
    set (g := fun m : Mesh =>
                {| dist := map cast (makeSortedDistribution (map (@numElements Row) w));
                   rowPtr := map (fun i => Z.of_nat (i * S D)) (seq 0 (S (numElements m)));
                   colInd := map cast (concat (elems_ m)) |}).
    exists (map g w). split; [|split].
    + unfold distributedCSR. apply forRanks_map. intros m Hm.
      apply distributedCSR_local_ok; [intros e He; now apply (Hd m)|now apply Hfit].
    + apply length_map.
    + intros r m Hr. exact (nth_error_map_Some g _ _ Hr).
  - intros (m & Hm & Hov). unfold distributedCSR.
    apply forRanks_None. exists m. split; [exact Hm|].
    unfold distributedCSR_local.
    rewrite writeRows_overflow; [reflexivity| |exact Hmax].
    rewrite length_concat_simplices by (intros e He; now apply (Hd m)).
    unfold numElements in Hov. lia.
Qed.

End CSR.

(** ** More concrete runs *)

(** Two ranks; the first element of rank 0 has a target below zero. *)
Definition args_neg : list (GlobalSimplexMesh nat * list Z) :=
  [(mesh0 [[0; 1; 2]; [0; 1; 3]]%N, [-1; 1]%Z); (mesh0 [[0; 2; 3]]%N, [0]%Z)].

Definition delivered_neg : World nat :=
  Eval vm_compute in
    match doPartition 0 stl_stable args_neg with Some w => w | None => [] end.

Lemma doPartition_delivers_witness :
  doPartition 0 stl_stable args_neg = Some delivered_neg /\
  nth_error args_neg 0 = Some (mesh0 [[0; 1; 2]; [0; 1; 3]]%N, [-1; 1]%Z) /\
  0 < numElements (mesh0 [[0; 1; 2]; [0; 1; 3]]%N) /\
  exists m', nth_error delivered_neg (Z.to_nat (nth 0 [-1; 1]%Z 0%Z)) = Some m' /\
             In (rowAt 0 (mesh0 [[0; 1; 2]; [0; 1; 3]]%N) 0) (rows 0 m').
Proof.
  assert (H1 : doPartition 0 stl_stable args_neg = Some delivered_neg)
    by (vm_compute; reflexivity).
  assert (H3 : 0 < numElements (mesh0 [[0; 1; 2]; [0; 1; 3]]%N)) by (cbv; repeat constructor).
  split; [exact H1|]. split; [reflexivity|]. split; [exact H3|].
  exact (@doPartition_delivers nat 0 stl_stable args_neg delivered_neg 0
           (mesh0 [[0; 1; 2]; [0; 1; 3]]%N) [-1; 1]%Z 0 H1 eq_refl H3).
Defined.

Lemma five_flags : agreed (map (@isPartitionedByHash nat) five) <> None.
Proof. discriminate. Qed.

Lemma five_uniform : data_uniform five.
Proof. discriminate. Qed.

Lemma repartitionByHash_preserves_rows_witness :
  0 < 2 /\ data_uniform five /\ agreed (map (@isPartitionedByHash nat) five) <> None /\
  exists w', repartitionByHash 0 sumHash stl_stable 2 five = Some w' /\
             Permutation (allRows 0 w') (allRows 0 five).
Proof.
  assert (H0 : 0 < 2) by lia.
  split; [exact H0|]. split; [exact five_uniform|]. split; [exact five_flags|].
  exact (@repartitionByHash_preserves_rows nat 0 stl_stable sumHash 2 five
           H0 five_uniform five_flags).
Defined.


Lemma getFaces_lists_each_face_once_witness :
  length (map (@elems_ nat) tri2) = length tri2 /\
  getFaces sumHash 1 tri2 (map (@elems_ nat) tri2) = Some tri2_edges /\
  nth_error tri2 0 = Some (mesh0 [[0; 1; 2]%N]) /\
  nth_error (map (@elems_ nat) tri2) 0 = Some [[0; 1; 2]%N] /\
  nth_error tri2_edges 0 =
    Some {| lf_faces := [[0; 2]; [0; 1]; [1; 2]]%N; lf_contiguousGIDs := [0; 2; 4]%N;
            lf_sharedRanks := [0; 0; 1; 0]; lf_sharedRanksCounts := [1; 2; 1] |} /\
  ((forall f, In f [[0; 2]; [0; 1]; [1; 2]]%N <->
              exists e, In e [[0; 1; 2]%N] /\ In f (downward 1 e)) /\
   NoDup [[0; 2]; [0; 1]; [1; 2]]%N /\
   (forall i j fi fj,
      i < j -> nth_error [[0; 2]; [0; 1]; [1; 2]]%N i = Some fi ->
      nth_error [[0; 2]; [0; 1]; [1; 2]]%N j = Some fj ->
      getPlex2Rank sumHash 1 (length tri2) (mesh0 [[0; 1; 2]%N]) fi
      < getPlex2Rank sumHash 1 (length tri2) (mesh0 [[0; 1; 2]%N]) fj \/
      (getPlex2Rank sumHash 1 (length tri2) (mesh0 [[0; 1; 2]%N]) fi
       = getPlex2Rank sumHash 1 (length tri2) (mesh0 [[0; 1; 2]%N]) fj /\
       simplex_ltb fi fj = true))).
Proof.
  split; [reflexivity|]. split; [exact tri2_edges_run|]. split; [reflexivity|].
  split; [reflexivity|]. split; [reflexivity|].
  exact (@getFaces_lists_each_face_once nat sumHash 1 tri2 (map (@elems_ nat) tri2)
           tri2_edges 0 (mesh0 [[0; 1; 2]%N]) [[0; 1; 2]%N] _
           eq_refl tri2_edges_run eq_refl eq_refl eq_refl).
Defined.

Lemma sharedRanks_table_shape_witness :
  length (map (@elems_ nat) tri2) = length tri2 /\
  getFaces sumHash 1 tri2 (map (@elems_ nat) tri2) = Some tri2_edges /\
  In {| lf_faces := [[0; 2]; [0; 1]; [1; 2]]%N; lf_contiguousGIDs := [0; 2; 4]%N;
        lf_sharedRanks := [0; 0; 1; 0]; lf_sharedRanksCounts := [1; 2; 1] |} tri2_edges /\
  (length [1; 2; 1] = length [[0; 2]; [0; 1]; [1; 2]]%N /\
   list_sum [1; 2; 1] = length [0; 0; 1; 0] /\
   Forall (fun c => 1 <= c) [1; 2; 1]).
Proof.
  assert (H : In {| lf_faces := [[0; 2]; [0; 1]; [1; 2]]%N; lf_contiguousGIDs := [0; 2; 4]%N;
                    lf_sharedRanks := [0; 0; 1; 0]; lf_sharedRanksCounts := [1; 2; 1] |}
                 tri2_edges) by (left; reflexivity).
  split; [reflexivity|]. split; [exact tri2_edges_run|]. split; [exact H|].
  exact (@sharedRanks_table_shape nat sumHash 1 tri2 (map (@elems_ nat) tri2) tri2_edges _
           eq_refl tri2_edges_run H).
Defined.

Lemma tri2_vtxdist : forall m m', In m tri2 -> In m' tri2 -> vtxdist m = vtxdist m'.
Proof.
  intros m m' [<-|[<-|[]]] [<-|[<-|[]]]; reflexivity.
Qed.

Lemma sharedRanks_exact_witness :
  length (map (@elems_ nat) tri2) = length tri2 /\
  (forall m m', In m tri2 -> In m' tri2 -> vtxdist m = vtxdist m') /\
  getFaces sumHash 1 tri2 (map (@elems_ nat) tri2) = Some tri2_edges /\
  nth_error tri2_edges 0 =
    Some {| lf_faces := [[0; 2]; [0; 1]; [1; 2]]%N; lf_contiguousGIDs := [0; 2; 4]%N;
            lf_sharedRanks := [0; 0; 1; 0]; lf_sharedRanksCounts := [1; 2; 1] |} /\
  nth_error [[0; 2]; [0; 1]; [1; 2]]%N 1 = Some [0; 1]%N /\
  sharedRanksAt {| lf_faces := [[0; 2]; [0; 1]; [1; 2]]%N; lf_contiguousGIDs := [0; 2; 4]%N;
                   lf_sharedRanks := [0; 0; 1; 0]; lf_sharedRanksCounts := [1; 2; 1] |} 1 =
  filter (fun p => existsb (simplex_eqb [0; 1]%N)
                           (concat (map (downward 1) (nth p (map (@elems_ nat) tri2) []))))
         (seq 0 (length tri2)).
Proof.
  split; [reflexivity|]. split; [exact (@tri2_vtxdist)|]. split; [exact tri2_edges_run|].
  split; [reflexivity|]. split; [reflexivity|].
  exact (@sharedRanks_exact nat sumHash 1 tri2 (map (@elems_ nat) tri2) tri2_edges 0 1 _
           [0; 1]%N eq_refl (@tri2_vtxdist) tri2_edges_run eq_refl eq_refl).
Defined.

Lemma contiguousGIDs_dense_witness :
  length (map (@elems_ nat) tri2) = length tri2 /\
  getFaces sumHash 1 tri2 (map (@elems_ nat) tri2) = Some tri2_edges /\
  ((forall f g, In (f, g) (gidPairs tri2_edges) ->
      (g < N.of_nat (length (nodup (list_eq_dec N.eq_dec)
                                   (map fst (gidPairs tri2_edges)))))%N) /\
   (forall k, k < length (nodup (list_eq_dec N.eq_dec) (map fst (gidPairs tri2_edges))) ->
      exists f, In (f, N.of_nat k) (gidPairs tri2_edges))).
Proof.
  split; [reflexivity|]. split; [exact tri2_edges_run|].
  exact (@contiguousGIDs_dense nat sumHash 0 tri2 (map (@elems_ nat) tri2) tri2_edges
           eq_refl tri2_edges_run).
Defined.

(** The boundary entries of the two triangles, rank by rank. *)
Definition tri2_ups : list (list (Simplex * nat)) :=
  [[([0; 1]%N, 0); ([0; 2]%N, 0); ([1; 2]%N, 0)]; [([0; 1]%N, 0); ([0; 3]%N, 0); ([1; 3]%N, 0)]].

Lemma deleteDomainBoundaryFaces_spec_witness :
  1 < 2 /\ length tri2_ups = length tri2 /\
  ((forall f, heldBy tri2_ups f <= 2) ->
   exists res,
     deleteDomainBoundaryFaces sumHash 2 tri2 tri2_ups = Some res /\
     length res = length tri2_ups /\
     forall r up, nth_error tri2_ups r = Some up ->
       exists dbf,
         nth_error res r = Some (filter (fun u => heldBy tri2_ups (fst u) =? 2) up, dbf) /\
         NoDup dbf /\
         forall f, In f dbf <-> In f (map fst up) /\ heldBy tri2_ups f = 1) /\
  ((exists f, 2 < heldBy tri2_ups f) ->
   deleteDomainBoundaryFaces sumHash 2 tri2 tri2_ups = None).
Proof.
  assert (H : 1 < 2) by lia.
  split; [exact H|]. split; [reflexivity|].
  exact (@deleteDomainBoundaryFaces_spec nat sumHash 2 tri2 tri2_ups H eq_refl).
Defined.

(** A bound on the multiplicity of every face, checked on the faces
    that occur. *)
Lemma countKey_bound (A : Type) (n : nat) (l : list (Simplex * A)) :
  forallb (fun u => countKey (fst u) l <=? n) l = true -> forall f, countKey f l <= n.
Proof.
  intros H f. destruct (Nat.eq_dec (countKey f l) 0) as [E|E]; [lia|].
  assert (Hin : In f (map fst l)) by (apply countKey_In; lia).
  apply in_map_iff in Hin. destruct Hin as (u & <- & Hu).
  rewrite forallb_forall in H. apply Nat.leb_le. now apply H.
Qed.

Lemma tri2_manifold : forall f, globalWitnesses 2 tri2 f <= 2.
Proof. apply countKey_bound. vm_compute. reflexivity. Qed.

Lemma tri2_distinct : NoDup (concat (map (@elems_ nat) tri2)).
Proof.
  simpl. constructor; [|constructor; [|constructor]].
  - intros [E|[]]. discriminate E.
  - intros [].
Qed.

Lemma ghost_layer_neighbours_witness :
  1 < 2 /\ (forall f, globalWitnesses 2 tri2 f <= 2) /\
  NoDup (concat (map (@elems_ nat) tri2)) /\
  exists res,
    getGhostElements sumHash stl_stable 2 tri2 1 = Some res /\ length res = length tri2 /\
    forall r m, nth_error tri2 r = Some m ->
      exists batch,
        nth_error res r = Some (elems_ m ++ batch) /\ strictly_sorted batch /\
        forall e', In e' batch <->
          exists r' m' e f, r' <> r /\ nth_error tri2 r' = Some m' /\ In e' (elems_ m') /\
                            In e (elems_ m) /\
                            In f (downward (2 - 1) e) /\ In f (downward (2 - 1) e').
Proof.
  assert (H : 1 < 2) by lia.
  split; [exact H|]. split; [exact tri2_manifold|]. split; [exact tri2_distinct|].
  exact (@ghost_layer_neighbours nat sumHash stl_stable 2 tri2 H tri2_manifold tri2_distinct).
Defined.

(** Four vertices, two on each of two ranks, with one row of data each;
    either rank holds a triangle. *)
Definition quad_vdata : list (MeshData nat) := [[10; 11]; [12; 13]].

Definition quad_mesh (es : list Simplex) : GlobalSimplexMesh nat :=
  {| elems_ := es; elementData := None; isPartitionedByHash := false;
     vtxdist := makeSortedDistribution (map (@length nat) quad_vdata) |}.

Definition quad : World nat := [quad_mesh [[0; 1; 2]%N]; quad_mesh [[1; 2; 3]%N]].

Lemma quad_vtxdist :
  forall m, In m quad -> vtxdist m = makeSortedDistribution (map (@length nat) quad_vdata).
Proof. intros m [<-|[<-|[]]]; reflexivity. Qed.

Lemma quad_vertices :
  forall es e v, In es (map (@elems_ nat) quad) -> In e es -> In v e ->
                 (v < N.of_nat (length (concat quad_vdata)))%N.
Proof.
  intros es e v [<-|[<-|[]]] [<-|[]] Hv; simpl in Hv;
    repeat (destruct Hv as [<-|Hv]; [simpl; lia|]); destruct Hv.
Qed.

Lemma vertexData_reaches_faces_witness :
  length (map (@elems_ nat) quad) = length quad /\
  length quad_vdata = length quad /\
  (forall m, In m quad -> vtxdist m = makeSortedDistribution (map (@length nat) quad_vdata)) /\
  (forall es e v, In es (map (@elems_ nat) quad) -> In e es -> In v e ->
                  (v < N.of_nat (length (concat quad_vdata)))%N) /\
  exists lfs data,
    getFaces sumHash 0 quad (map (@elems_ nat) quad) = Some lfs /\
    getVertexData 0 sumHash quad (map (@Some (MeshData nat)) quad_vdata)
                  (map (@elems_ nat) quad) = Some data /\
    forall q lf j f,
      nth_error lfs q = Some lf -> nth_error (lf_faces lf) j = Some f ->
      exists dat,
        nth_error data q = Some (Some dat) /\ length dat = length (lf_faces lf) /\
        nth_error dat j = Some (nth (N.to_nat (nth 0 f 0%N)) (concat quad_vdata) 0).
Proof.
  split; [reflexivity|]. split; [reflexivity|]. split; [exact (@quad_vtxdist)|].
  split; [exact (@quad_vertices)|].
  exact (@vertexData_reaches_faces nat 0 sumHash quad quad_vdata (map (@elems_ nat) quad)
           eq_refl eq_refl (@quad_vtxdist) (@quad_vertices)).
Defined.

(** A boundary mesh of edges on the two triangles: rank 0 tags the
    edges (0,1) and (1,2), rank 1 attaches an empty table. *)
Definition edgeTags : World nat :=
  [{| elems_ := [[0; 1]; [1; 2]]%N; elementData := Some [7; 8];
      isPartitionedByHash := false; vtxdist := [] |};
   {| elems_ := []; elementData := Some []; isPartitionedByHash := false; vtxdist := [] |}].

Lemma edgeTags_fresh : forall bm, In bm edgeTags -> isPartitionedByHash bm = false.
Proof. intros bm [<-|[<-|[]]]; reflexivity. Qed.

Lemma edgeTags_data : forall bm, In bm edgeTags -> hasElementData bm = true.
Proof. intros bm [<-|[<-|[]]]; reflexivity. Qed.

Lemma edgeTags_distinct : NoDup (concat (map (@elems_ nat) edgeTags)).
Proof.
  change (NoDup [[0; 1]; [1; 2]]%N). constructor; [|constructor; [|constructor]].
  - intros [E|[]]. discriminate E.
  - intros [].
Qed.

Lemma edgeTags_small : length (concat (map (@elems_ nat) edgeTags)) <= size_t_max.
Proof.
  change (2 <= size_t_max). unfold size_t_max. lia.
Qed.

Lemma boundaryData_reaches_faces_witness :
  0 < 1 < 2 /\ length (map (@elems_ nat) tri2) = length tri2 /\
  length edgeTags = length tri2 /\
  (forall bm, In bm edgeTags -> isPartitionedByHash bm = false) /\
  (forall bm, In bm edgeTags -> hasElementData bm = true) /\
  NoDup (concat (map (@elems_ nat) edgeTags)) /\
  length (concat (map (@elems_ nat) edgeTags)) <= size_t_max /\
  exists lfs data wb',
    getFaces sumHash 1 tri2 (map (@elems_ nat) tri2) = Some lfs /\
    getBoundaryData 0 sumHash stl_stable 2 1 tri2
                    (map (@Some (GlobalSimplexMesh nat)) edgeTags) (map (@elems_ nat) tri2)
    = Some (data, map (@Some (GlobalSimplexMesh nat)) wb') /\
    forall q lf j f,
      nth_error lfs q = Some lf -> nth_error (lf_faces lf) j = Some f ->
      exists dat,
        nth_error data q = Some (Some dat) /\ length dat = length (lf_faces lf) /\
        (forall row, In (f, Some row) (allRows 0 edgeTags) -> nth_error dat j = Some row) /\
        (~ In f (concat (map (@elems_ nat) edgeTags)) -> nth_error dat j = Some 0).
Proof.
  assert (H : 0 < 1 < 2) by lia.
  split; [exact H|]. split; [reflexivity|]. split; [reflexivity|].
  split; [exact (@edgeTags_fresh)|]. split; [exact (@edgeTags_data)|].
  split; [exact edgeTags_distinct|]. split; [exact edgeTags_small|].
  exact (@boundaryData_reaches_faces nat 0 sumHash stl_stable 2 1 tri2 edgeTags
           (map (@elems_ nat) tri2) H eq_refl eq_refl (@edgeTags_fresh) (@edgeTags_data)
           edgeTags_distinct edgeTags_small).
Defined.

(** The two triangles with a 32-bit [idx_t]. *)
Lemma tri2_simplices : forall m e, In m tri2 -> In e (elems_ m) -> length e = 3.
Proof. intros m e [<-|[<-|[]]] [<-|[]]; reflexivity. Qed.

Lemma distributedCSR_spec_witness :
  (0 <= 2147483647)%Z /\
  (forall m e, In m tri2 -> In e (elems_ m) -> length e = 3) /\
  ((forall m, In m tri2 -> (Z.of_nat (numElements m * 3) <= 2147483647)%Z) ->
   exists csrs,
     distributedCSR 2 2147483647 Z.of_N tri2 = Some csrs /\ length csrs = length tri2 /\
     forall r m, nth_error tri2 r = Some m ->
       nth_error csrs r
       = Some {| dist := map Z.of_N (makeSortedDistribution (map (@numElements nat) tri2));
                 rowPtr := map (fun i => Z.of_nat (i * 3)) (seq 0 (S (numElements m)));
                 colInd := map Z.of_N (concat (elems_ m)) |}) /\
  ((exists m, In m tri2 /\ (2147483647 < Z.of_nat (numElements m * 3))%Z) ->
   distributedCSR 2 2147483647 Z.of_N tri2 = None).
Proof.
  assert (H : (0 <= 2147483647)%Z) by lia.
  split; [exact H|]. split; [exact (@tri2_simplices)|].
  exact (@distributedCSR_spec nat 2 2147483647 Z.of_N tri2 H (@tri2_simplices)).
Defined.
